(** * GitArena graph algorithms: a shallow embedding of [lib/graphAlgo.ts]

    The development embeds the layout and spatial-index core of GitArena
    (topological sort, lane assignment, layout, quadtree, ancestry query)
    and proves the properties stated for it.

    A second part covers code around that core: [buildAdjacencyList],
    [queryRect] and [generateSyntheticGraph] of [lib/graphAlgo.ts],
    [clamp] and [rafThrottle] of [lib/utils.ts], the wheel and zoom
    handlers of [hooks/usePanZoom.ts], and [pushSnapshot] of
    [state/useAppStore.ts].

    Conventions of the embedding:
    - a JavaScript [Map] is an insertion-ordered association list
      ([JsMap]): [set] on a present key keeps the key's position, [set] on
      an absent key appends, exactly the iteration order of a JS Map;
    - a JavaScript [Set] of strings is the list of its members with a
      boolean membership test;
    - integral numbers (degrees, lanes, rows, timestamps) are [Z]; the
      [-1] sentinels of [indexOf] and [?? -1] are kept;
    - the numbers of the layout are rationals [Q]: they are whole numbers
      (and halves of them on the bends of an edge), which doubles compute
      without rounding; [clamp] and the pan/zoom handlers are embedded
      over [Q] as well, and their properties are those of exact
      arithmetic;
    - the quadtree is embedded once, over a class [Num] of the operations
      it applies to numbers; the instance for IEEE doubles ([float], the
      kernel's binary64) is the arithmetic of the code, rounding, signed
      zeros, infinities and [NaN] included, and the theorems about the
      quadtree are stated for it, or for every instance;
    - a [while] loop whose termination is not structural takes a fuel
      argument and returns [option]; the theorems show that the fuel the
      top-level function passes is enough;
    - a closure with mutable variables ([rafThrottle]) is a state record
      with one transition per call and per animation frame;
    - [generateSyntheticGraph] is embedded for natural-number arguments,
      and quotients by the zoom are used for a non-zero zoom only. *)

From Stdlib Require Import String List ZArith QArith Bool Lia Lqa Permutation.
From Stdlib Require Import Floats.
From Stdlib Require Import Sorting.Sorted Ascii NArith HexString DecimalString FinFun.
From Stdlib Require Import Relations.Relation_Operators.
Import ListNotations.
Open Scope string_scope.
Open Scope list_scope.
Open Scope Z_scope.

Set Implicit Arguments.

(** ** JavaScript [Map<string, V>] with insertion order *)

Module JsMap.
Section Defs.
Variable V : Type.

Definition t := list (string * V).

Definition empty : t := [].

Fixpoint get (k : string) (m : t) : option V :=
  match m with
  | [] => None
  | (k', v) :: r => if String.eqb k k' then Some v else get k r
  end.

Definition has (k : string) (m : t) : bool :=
  match get k m with Some _ => true | None => false end.

Fixpoint set (k : string) (v : V) (m : t) : t :=
  match m with
  | [] => [(k, v)]
  | (k', v') :: r =>
      if String.eqb k k' then (k', v) :: r else (k', v') :: set k v r
  end.

Fixpoint delete (k : string) (m : t) : t :=
  match m with
  | [] => []
  | (k', v') :: r =>
      if String.eqb k k' then r else (k', v') :: delete k r
  end.

Definition keys (m : t) : list string := map fst m.

Definition size (m : t) : nat := List.length m.
End Defs.

Arguments empty {V}.
End JsMap.

(** [x ?? d] on an optional value. *)
Definition nullish {A : Type} (o : option A) (d : A) : A :=
  match o with Some a => a | None => d end.

(** [new Set(xs).has(x)] *)
Definition set_has (s : list string) (x : string) : bool :=
  existsb (String.eqb x) s.

(** ** Domain types ([lib/types.ts]) *)

Record CommitNode := mkCommit {
  oid : string;
  message : string;
  parents : list string;
  timestamp : Z;
  refs : list string;
  isHead : bool
}.

(** ** Topological sort (Kahn's algorithm) *)

(** Inner loop of the first pass: the parents of one commit. *)
Definition topo_parent_step (oidSet : list string) (c : CommitNode)
    (st : JsMap.t Z * JsMap.t (list string)) (p : string)
    : JsMap.t Z * JsMap.t (list string) :=
  let '(inDegree, children) := st in
  if negb (set_has oidSet p) then (inDegree, children)
  else
    let existing := nullish (JsMap.get p children) [] in
    let existing := existing ++ [oid c] in
    let children := JsMap.set p existing children in
    let inDegree :=
      JsMap.set (oid c) (nullish (JsMap.get (oid c) inDegree) 0 + 1) inDegree in
    (inDegree, children).

(** Body of the first pass: one commit. *)
Definition topo_commit_step (oidSet : list string)
    (st : JsMap.t Z * JsMap.t (list string)) (c : CommitNode)
    : JsMap.t Z * JsMap.t (list string) :=
  let '(inDegree, children) := st in
  let inDegree :=
    if negb (JsMap.has (oid c) inDegree) then JsMap.set (oid c) 0 inDegree
    else inDegree in
  fold_left (topo_parent_step oidSet c) (parents c) (inDegree, children).

Definition topo_build (commits : list CommitNode)
    : JsMap.t Z * JsMap.t (list string) :=
  let oidSet := map oid commits in
  fold_left (topo_commit_step oidSet) commits (JsMap.empty, JsMap.empty).

(** [for (const [oid, deg] of inDegree) if (deg === 0) queue.push(oid)] *)
Definition topo_seed (inDegree : JsMap.t Z) : list string :=
  map fst (filter (fun kv => snd kv =? 0) inDegree).

(** Body of the [for (const child of children.get(node) ?? [])] loop. *)
Definition topo_child_step (st : JsMap.t Z * list string) (child : string)
    : JsMap.t Z * list string :=
  let '(inDegree, queue) := st in
  let newDeg := nullish (JsMap.get child inDegree) 1 - 1 in
  let inDegree := JsMap.set child newDeg inDegree in
  if newDeg =? 0 then (inDegree, queue ++ [child]) else (inDegree, queue).

(** The [while (queueIdx < queue.length)] loop. *)
Fixpoint topo_loop (fuel : nat) (children : JsMap.t (list string))
    (inDegree : JsMap.t Z) (queue : list string) (queueIdx : nat)
    (sorted : list string) : option (list string) :=
  match nth_error queue queueIdx with
  | None => Some sorted
  | Some node =>
      match fuel with
      | O => None
      | S fuel' =>
          let sorted := sorted ++ [node] in
          let '(inDegree, queue) :=
            fold_left topo_child_step
              (nullish (JsMap.get node children) []) (inDegree, queue) in
          topo_loop fuel' children inDegree queue (S queueIdx) sorted
      end
  end.

Definition topologicalSort_fuel (fuel : nat) (commits : list CommitNode)
    : option (list string) :=
  let '(inDegree, children) := topo_build commits in
  let queue := topo_seed inDegree in
  match topo_loop fuel children inDegree queue 0 [] with
  | None => None
  | Some sorted =>
      let sortedSet := sorted in
      Some (sorted ++
            filter (fun o => negb (set_has sortedSet o)) (map oid commits))
  end.

(** Every node is dequeued at most once, so one unit of fuel per commit
    is enough (shown below). *)
Definition topologicalSort (commits : list CommitNode) : option (list string) :=
  topologicalSort_fuel (length commits) commits.

(** ** Lane assignment *)

(** [Array.prototype.sort] with a comparator: the sort is stable, so for a
    consistent comparator its result is the stable ordering, which is what
    insertion from the right computes. *)
Section JsSort.
Variable A : Type.
Variable cmp : A -> A -> Z.

Fixpoint sort_insert (a : A) (l : list A) : list A :=
  match l with
  | [] => [a]
  | b :: r => if cmp a b >? 0 then b :: sort_insert a r else a :: b :: r
  end.

Definition js_sort (l : list A) : list A := fold_right sort_insert [] l.
End JsSort.

(** [[...commits].sort((a, b) => b.timestamp - a.timestamp)] *)
Definition sort_by_time_desc (commits : list CommitNode) : list CommitNode :=
  js_sort (fun a b => timestamp b - timestamp a) commits.

(** A slot of [activeLanes : Array<string | null>]: [None] is a hole left
    by an assignment past the end, [Some None] is [null], [Some (Some s)]
    is the reserved identifier. *)
Definition slot := option (option string).

Definition slot_is_null (s : slot) : bool :=
  match s with Some None => true | _ => false end.

(** [activeLanes.indexOf(null)], [-1] when absent. *)
Fixpoint indexOf_null_from (i : Z) (lanes : list slot) : Z :=
  match lanes with
  | [] => -1
  | s :: r => if slot_is_null s then i else indexOf_null_from (i + 1) r
  end.

Definition indexOf_null (lanes : list slot) : Z := indexOf_null_from 0 lanes.

(** [activeLanes[i] === null] *)
Definition lane_is_null (lanes : list slot) (i : Z) : bool :=
  if i <? 0 then false
  else match nth_error lanes (Z.to_nat i) with
       | Some s => slot_is_null s
       | None => false
       end.

Fixpoint list_update {A : Type} (l : list A) (n : nat) (v : A) : list A :=
  match l, n with
  | [], _ => []
  | _ :: r, O => v :: r
  | a :: r, S n' => a :: list_update r n' v
  end.

(** [activeLanes[i] = v]: in range the slot is replaced, past the end the
    array grows with holes.  Lane indices are never negative
    ([assignColumns_nonneg] below). *)
Definition lane_assign (lanes : list slot) (i : Z) (v : option string)
    : list slot :=
  let n := Z.to_nat i in
  if (n <? List.length lanes)%nat then list_update lanes n (Some v)
  else lanes ++ repeat None (n - List.length lanes) ++ [Some v].

Record LaneState := mkLaneState {
  columns : JsMap.t Z;
  activeLanes : list slot;
  reservations : JsMap.t Z
}.

(** Body of [for (let i = 0; i < commit.parents.length; i++)]. *)
Definition lane_parent_step (oidSet : list string) (col : Z) (i : Z)
    (parent : string) (st : LaneState) : LaneState :=
  if negb (set_has oidSet parent) then st
  else if JsMap.has parent (columns st) || JsMap.has parent (reservations st)
  then st
  else
    let '(laneIdx, lanes) :=
      if (i =? 0) && lane_is_null (activeLanes st) col
      then (col, activeLanes st)
      else
        let laneIdx := indexOf_null (activeLanes st) in
        if laneIdx =? -1
        then (Z.of_nat (List.length (activeLanes st)), activeLanes st ++ [Some None])
        else (laneIdx, activeLanes st) in
    mkLaneState (columns st)
                (lane_assign lanes laneIdx (Some parent))
                (JsMap.set parent laneIdx (reservations st)).

Fixpoint lane_parents (oidSet : list string) (col : Z) (i : Z)
    (ps : list string) (st : LaneState) : LaneState :=
  match ps with
  | [] => st
  | parent :: rest =>
      lane_parents oidSet col (i + 1) rest
        (lane_parent_step oidSet col i parent st)
  end.

(** Body of [for (const commit of sorted)]. *)
Definition lane_commit_step (oidSet : list string) (st : LaneState)
    (commit : CommitNode) : LaneState :=
  let col := nullish (JsMap.get (oid commit) (reservations st)) (-1) in
  let '(lanes, res) :=
    if negb (col =? -1)
    then (lane_assign (activeLanes st) col None,
          JsMap.delete (oid commit) (reservations st))
    else (activeLanes st, reservations st) in
  let '(col, lanes) :=
    if col =? -1 then
      let col := indexOf_null lanes in
      if col =? -1
      then (Z.of_nat (List.length lanes), lanes ++ [Some None])
      else (col, lanes)
    else (col, lanes) in
  let cols := JsMap.set (oid commit) col (columns st) in
  lane_parents oidSet col 0 (parents commit) (mkLaneState cols lanes res).

Definition assignColumns (commits : list CommitNode) : JsMap.t Z :=
  let oidSet := map oid commits in
  let sorted := sort_by_time_desc commits in
  columns
    (fold_left (lane_commit_step oidSet) sorted
       (mkLaneState JsMap.empty [] JsMap.empty)).

(** ** Layout *)

Record LayoutNode := mkLayoutNode {
  n_oid : string;
  n_x : Q;
  n_y : Q;
  n_col : Z;
  n_row : Z;
  n_color : string;
  n_parents : list string;
  n_refs : list string;
  n_message : string;
  n_isHead : bool
}.

Record LayoutEdge := mkLayoutEdge {
  e_from : string;
  e_to : string;
  e_color : string;
  e_points : list (Q * Q)
}.

Record GraphLayout := mkGraphLayout {
  nodes : list LayoutNode;
  edges : list LayoutEdge;
  width : Q;
  height : Q
}.

(** [styles/tokens.ts] *)
Definition branchColors : list string :=
  ["#6366f1"; "#22c55e"; "#f59e0b"; "#ec4899";
   "#06b6d4"; "#f97316"; "#a855f7"; "#14b8a6"].
Definition colSpacing : Q := 80.
Definition rowSpacing : Q := 70.
Definition padding : Q := 60.

(** [Math.max] on two numbers. *)
Definition Qmax2 (a b : Q) : Q := if Qle_bool a b then b else a.

(** [arr.map((x, i) => f x i)] *)
Fixpoint mapi_from {A B : Type} (f : A -> Z -> B) (i : Z) (l : list A)
    : list B :=
  match l with
  | [] => []
  | a :: r => f a i :: mapi_from f (i + 1) r
  end.

Definition mapi {A B : Type} (f : A -> Z -> B) (l : list A) : list B :=
  mapi_from f 0 l.

Definition layout_node (cols : JsMap.t Z) (commit : CommitNode) (row : Z)
    : LayoutNode :=
  let col := nullish (JsMap.get (oid commit) cols) 0 in
  let colorIdx := Z.rem col (Z.of_nat (List.length branchColors)) in
  mkLayoutNode (oid commit)
    (padding + inject_Z col * colSpacing)
    (padding + inject_Z row * rowSpacing)
    col row
    (nth (Z.to_nat colorIdx) branchColors "")
    (parents commit) (refs commit) (message commit) (isHead commit).

(** Body of [for (const parentOid of node.parents)]. *)
Definition edge_step (nodeMap : JsMap.t LayoutNode) (node : LayoutNode)
    (acc : list LayoutEdge) (parentOid : string) : list LayoutEdge :=
  match JsMap.get parentOid nodeMap with
  | None => acc
  | Some parent =>
      let points :=
        if n_col node =? n_col parent
        then [(n_x node, n_y node); (n_x parent, n_y parent)]
        else
          let midY := (n_y node + n_y parent) / 2 in
          [(n_x node, n_y node); (n_x node, midY);
           (n_x parent, midY); (n_x parent, n_y parent)] in
      acc ++ [mkLayoutEdge (n_oid node) parentOid (n_color node) points]
  end%Q.

Definition layout_edges (nodeMap : JsMap.t LayoutNode) (ns : list LayoutNode)
    : list LayoutEdge :=
  fold_left (fun acc node => fold_left (edge_step nodeMap node) (n_parents node) acc)
    ns [].

(** [computeLayout]; the [oidToIndex] map of the source is written but
    never read and is left out. *)
Definition computeLayout (commits : list CommitNode) : GraphLayout :=
  if (List.length commits =? 0)%nat
  then mkGraphLayout [] [] 0 0
  else
    let cols := assignColumns commits in
    let sorted := sort_by_time_desc commits in
    let ns := mapi (layout_node cols) sorted in
    let nodeMap :=
      fold_left (fun m n => JsMap.set (n_oid n) n m) ns JsMap.empty in
    let es := layout_edges nodeMap ns in
    let maxCol := fold_right Z.max 0 (map n_col ns) in
    let w := (padding * 2 + inject_Z maxCol * colSpacing)%Q in
    let h := (padding * 2 + (inject_Z (Z.of_nat (List.length ns)) - 1) * rowSpacing)%Q in
    mkGraphLayout ns es (Qmax2 w 200) (Qmax2 h 200).

(** ** Numbers *)

(** The operations the quadtree applies to JavaScript numbers.  The code
    is embedded once, over this interface; [float_num] below is the
    arithmetic of the code itself (IEEE 754 binary64, the kernel's
    primitive floats).  [of_Q] gives the number a literal or a layout
    coordinate denotes. *)
Class Num (N : Type) := {
  nadd : N -> N -> N;
  nsub : N -> N -> N;
  nmul : N -> N -> N;
  ndiv : N -> N -> N;
  nleb : N -> N -> bool;
  nltb : N -> N -> bool;
  of_Q : Q -> N
}.

(** The literal [2]. *)
Definition ntwo {N : Type} {num : Num N} : N := of_Q 2.

Declare Scope num_scope.
Delimit Scope num_scope with num.
Notation "a + b" := (nadd a b) : num_scope.
Notation "a - b" := (nsub a b) : num_scope.
Notation "a * b" := (nmul a b) : num_scope.
Notation "a / b" := (ndiv a b) : num_scope.
Notation "a <=? b" := (nleb a b) (at level 70, no associativity) : num_scope.
Notation "a <? b" := (nltb a b) (at level 70, no associativity) : num_scope.
(** [a >= b] and [a > b] hold exactly when [b <= a] and [b < a] do, also
    when an operand is [NaN] (every comparison is then false). *)
Notation "a >=? b" := (nleb b a) (at level 70, no associativity) : num_scope.
Notation "a >? b" := (nltb b a) (at level 70, no associativity) : num_scope.

(** The double nearest to [m * 2^e]; [m * 2^e] itself when [m] is below
    [2^53] in magnitude and [e] is in the range of the exponents. *)
Definition dyadic (m e : Z) : float :=
  SF2Prim (binary_normalize prec emax m e false).

(** The double an integer below [2^53] in magnitude is, and the double
    nearest to a quotient of two such integers: the value of a decimal
    literal. *)
Definition float_of_Z (z : Z) : float := dyadic z 0.

Definition float_of_Q (q : Q) : float :=
  PrimFloat.div (float_of_Z (Qnum q)) (float_of_Z (Zpos (Qden q))).

(** IEEE 754 binary64, round to nearest even. *)
#[export] Instance float_num : Num float := {|
  nadd := PrimFloat.add;
  nsub := PrimFloat.sub;
  nmul := PrimFloat.mul;
  ndiv := PrimFloat.div;
  nleb := PrimFloat.leb;
  nltb := PrimFloat.ltb;
  of_Q := float_of_Q
|}.

(** ** Quadtree *)

Record BBox (N : Type) := mkBBox {
  b_x : N;
  b_y : N;
  b_width : N;
  b_height : N
}.

Section QuadtreeDefs.
Variable T : Type.
Variable N : Type.
Context {num : Num N}.
Local Open Scope num_scope.

Record Entry := mkEntry {
  item : T;
  ent_x : N;
  ent_y : N
}.

(** [children] is [null] or the array built by [subdivide]. *)
#[warnings="-register-all"] Inductive QuadtreeNode := QNode {
  bounds : BBox N;
  items : list Entry;
  children : option (list QuadtreeNode)
}.

Record Quadtree := mkQuadtree {
  root : QuadtreeNode;
  maxItems : Z;
  maxDepth : Z
}.

Definition quadtree_new (b : BBox N) (maxItems maxDepth : Z) : Quadtree :=
  mkQuadtree (QNode b [] None) maxItems maxDepth.

Definition inBounds (b : BBox N) (x y : N) : bool :=
  (x >=? b_x b) && (x <=? b_x b + b_width b) &&
  (y >=? b_y b) && (y <=? b_y b + b_height b).

Definition boundsOverlap (a b : BBox N) : bool :=
  negb ((b_x a >? b_x b + b_width b)
        || (b_x a + b_width a <? b_x b)
        || (b_y a >? b_y b + b_height b)
        || (b_y a + b_height a <? b_y b)).

(** The redistribution loop of [subdivide] for one entry: push it to the
    first child that contains it; [None] when no child does. *)
Fixpoint place_entry (entry : Entry) (cs : list QuadtreeNode)
    : option (list QuadtreeNode) :=
  match cs with
  | [] => None
  | c :: rest =>
      if inBounds (bounds c) (ent_x entry) (ent_y entry)
      then Some (QNode (bounds c) (items c ++ [entry]) (children c) :: rest)
      else option_map (cons c) (place_entry entry rest)
  end.

Definition subdivide_step (st : list QuadtreeNode * list Entry)
    (entry : Entry) : list QuadtreeNode * list Entry :=
  let '(cs, kept) := st in
  match place_entry entry cs with
  | Some cs' => (cs', kept)
  | None => (cs, kept ++ [entry])
  end.

Definition subdivide (node : QuadtreeNode) : QuadtreeNode :=
  let x := b_x (bounds node) in
  let y := b_y (bounds node) in
  let hw := b_width (bounds node) / ntwo in
  let hh := b_height (bounds node) / ntwo in
  let cs :=
    [ QNode (mkBBox x y hw hh) [] None;
      QNode (mkBBox (x + hw) y hw hh) [] None;
      QNode (mkBBox x (y + hh) hw hh) [] None;
      QNode (mkBBox (x + hw) (y + hh) hw hh) [] None ] in
  let oldItems := items node in
  let '(cs, kept) := fold_left subdivide_step oldItems (cs, []) in
  QNode (bounds node) kept (Some cs).

(** The [for (const child of node.children)] loop of [insertInto]: the
first child whose bounds contain the point receives the recursive call
[f] and the loop returns; [None] when no child contains the point. *)
Fixpoint descend (f : QuadtreeNode -> QuadtreeNode) (x y : N)
    (cs : list QuadtreeNode) : option (list QuadtreeNode) :=
  match cs with
  | [] => None
  | child :: rest =>
      if inBounds (bounds child) x y then Some (f child :: rest)
      else option_map (cons child) (descend f x y rest)
  end.

Fixpoint insertInto (maxItems maxDepth : Z) (node : QuadtreeNode)
    (entry : Entry) (depth : Z) {struct node} : QuadtreeNode :=
  if negb (inBounds (bounds node) (ent_x entry) (ent_y entry)) then node
  else
    match children node with
    | None =>
        let node' := QNode (bounds node) (items node ++ [entry]) None in
        if (Z.of_nat (List.length (items node')) >? maxItems)%Z
           && (depth <? maxDepth)%Z
        then subdivide node'
        else node'
    | Some cs =>
        match descend
                (fun child => insertInto maxItems maxDepth child entry (depth + 1)%Z)
                (ent_x entry) (ent_y entry) cs with
        | Some cs' => QNode (bounds node) (items node) (Some cs')
        | None => QNode (bounds node) (items node ++ [entry]) (Some cs)
        end
    end.

Definition insert (qt : Quadtree) (it : T) (x y : N) : Quadtree :=
  mkQuadtree (insertInto (maxItems qt) (maxDepth qt) (root qt)
                (mkEntry it x y) 0)
             (maxItems qt) (maxDepth qt).

(** [queryNode]; the callback's effect on the enclosing variables is a
    state [S] threaded through the traversal. *)
Fixpoint queryNode (S : Type) (callback : S -> T -> N -> N -> S)
    (node : QuadtreeNode) (x y radius : N) (s : S) {struct node} : S :=
  let searchBounds :=
    mkBBox (x - radius) (y - radius) (radius * ntwo) (radius * ntwo) in
  if negb (boundsOverlap (bounds node) searchBounds) then s
  else
    let s :=
      fold_left (fun s entry => callback s (item entry) (ent_x entry) (ent_y entry))
        (items node) s in
    match children node with
    | None => s
    | Some cs =>
        fold_left (fun s child => queryNode callback child x y radius s) cs s
    end.

(** The callback of [queryNearest] on the pair [(best, bestDist)].
    [a ** 2] is evaluated as [a * a]. *)
Definition nearest_step (x y : N) (s : option T * N) (it : T) (ix iy : N)
    : option T * N :=
  let d := (ix - x) * (ix - x) + (iy - y) * (iy - y) in
  if d <? snd s then (Some it, d) else s.

Definition queryNearest (qt : Quadtree) (x y radius : N) : option T :=
  fst (queryNode (nearest_step x y) (root qt) x y radius
         (None, radius * radius)).

Fixpoint queryRectNode (node : QuadtreeNode) (rect : BBox N)
    (results : list T) {struct node} : list T :=
  if negb (boundsOverlap (bounds node) rect) then results
  else
    let results :=
      fold_left
        (fun results entry =>
           if (ent_x entry >=? b_x rect) &&
              (ent_x entry <=? b_x rect + b_width rect) &&
              (ent_y entry >=? b_y rect) &&
              (ent_y entry <=? b_y rect + b_height rect)
           then results ++ [item entry] else results)
        (items node) results in
    match children node with
    | None => results
    | Some cs =>
        fold_left (fun results child => queryRectNode child rect results)
          cs results
    end.

Definition queryRect (qt : Quadtree) (rect : BBox N) : list T :=
  queryRectNode (root qt) rect [].
End QuadtreeDefs.

Arguments mkEntry {T N} _ _ _.
Arguments quadtree_new T {N} _ _ _.

(** ** Ancestry query *)

(** [for (const p of node.parents) if (!visited.has(p)) queue.push(p)] *)
Definition push_parents (visited : list string) (queue : list string)
    (ps : list string) : list string :=
  fold_left (fun q p => if negb (set_has visited p) then q ++ [p] else q)
    ps queue.

(** The [while (queue.length > 0)] loop. *)
Fixpoint isAncestor_loop (fuel : nat) (commitMap : JsMap.t CommitNode)
    (ancestor : string) (visited : list string) (queue : list string)
    : option bool :=
  match queue with
  | [] => Some false
  | current :: queue =>
      match fuel with
      | O => None
      | S fuel' =>
          if String.eqb current ancestor then Some true
          else if set_has visited current
          then isAncestor_loop fuel' commitMap ancestor visited queue
          else
            let visited := visited ++ [current] in
            let queue :=
              match JsMap.get current commitMap with
              | Some node => push_parents visited queue (parents node)
              | None => queue
              end in
            isAncestor_loop fuel' commitMap ancestor visited queue
      end
  end.

Definition isAncestor_fuel (fuel : nat) (commits : list CommitNode)
    (ancestor descendant : string) : option bool :=
  let commitMap :=
    fold_left (fun m c => JsMap.set (oid c) c m) commits JsMap.empty in
  isAncestor_loop fuel commitMap ancestor [] [descendant].

(** Each iteration removes one queue element, and the parents of a commit
    are pushed at most once, so the number of iterations is at most one
    more than the number of parent references. *)
Definition isAncestor (commits : list CommitNode) (ancestor descendant : string)
    : option bool :=
  isAncestor_fuel
    (S (fold_right (fun c n => (List.length (parents c) + n)%nat) O commits))
    commits ancestor descendant.

(** ** Spatial index of a layout *)

Definition buildSpatialIndex (N : Type) {num : Num N} (layout : GraphLayout)
    : Quadtree LayoutNode N :=
  fold_left
    (fun qt node => insert qt node (of_Q (n_x node)) (of_Q (n_y node)))
    (nodes layout)
    (quadtree_new LayoutNode
       (mkBBox (of_Q 0) (of_Q 0)
               (of_Q (width layout) + of_Q 200)%num
               (of_Q (height layout) + of_Q 200)%num) 4 10).

Arguments buildSpatialIndex N {num} layout.

(** ** Adjacency list *)

(** [for (const c of commits) adj.set(c.oid, c.parents)] *)
Definition buildAdjacencyList (commits : list CommitNode)
    : JsMap.t (list string) :=
  fold_left (fun adj c => JsMap.set (oid c) (parents c) adj) commits
    JsMap.empty.

(** ** Utilities ([lib/utils.ts]) *)

(** [Math.min] on two numbers. *)
Definition Qmin2 (a b : Q) : Q := if Qle_bool a b then a else b.

(** [Math.min(Math.max(value, min), max)] *)
Definition clamp (value min max : Q) : Q := Qmin2 (Qmax2 value min) max.

(** [rafThrottle(fn)]: the closure's variables [queued] and [lastArgs],
    with the callbacks handed to [requestAnimationFrame] and not yet run
    ([scheduled]) and the calls of [fn] made so far ([fn_calls]). *)
Section RafThrottle.
Variable Args : Type.

Record ThrottleState := mkThrottleState {
  queued : bool;
  lastArgs : option Args;
  scheduled : nat;
  fn_calls : list Args
}.

Definition throttle_init : ThrottleState :=
  mkThrottleState false None 0 [].

(** A call of the throttled function. *)
Definition throttle_call (st : ThrottleState) (args : Args)
    : ThrottleState :=
  if negb (queued st)
  then mkThrottleState true (Some args) (S (scheduled st)) (fn_calls st)
  else mkThrottleState (queued st) (Some args) (scheduled st) (fn_calls st).

(** The callback given to [requestAnimationFrame]. *)
Definition throttle_callback (st : ThrottleState) : ThrottleState :=
  mkThrottleState false (lastArgs st) (scheduled st)
    (match lastArgs st with
     | Some args => fn_calls st ++ [args]
     | None => fn_calls st
     end).

(** An animation frame: every scheduled callback runs once. *)
Definition throttle_frame (st : ThrottleState) : ThrottleState :=
  let st' := Nat.iter (scheduled st) throttle_callback st in
  mkThrottleState (queued st') (lastArgs st') 0 (fn_calls st').

Inductive ThrottleEvent :=
| Call (args : Args)
| Frame.

Definition throttle_step (st : ThrottleState) (ev : ThrottleEvent)
    : ThrottleState :=
  match ev with
  | Call args => throttle_call st args
  | Frame => throttle_frame st
  end.

Definition throttle_run (evs : list ThrottleEvent) : ThrottleState :=
  fold_left throttle_step evs throttle_init.
End RafThrottle.

Arguments Frame {Args}.

(** ** Pan and zoom ([hooks/usePanZoom.ts]) *)

Record ViewState := mkViewState {
  panX : Q;
  panY : Q;
  zoom : Q
}.

(** [Partial<ViewState>]: the fields an update carries. *)
Record ViewPatch := mkViewPatch {
  patch_panX : option Q;
  patch_panY : option Q;
  patch_zoom : option Q
}.

(** [setView]: [{ ...s.view, ...partial }] *)
Definition setView (view : ViewState) (partial : ViewPatch) : ViewState :=
  mkViewState (nullish (patch_panX partial) (panX view))
              (nullish (patch_panY partial) (panY view))
              (nullish (patch_zoom partial) (zoom view)).

Definition MIN_ZOOM : Q := 1 # 10.
Definition MAX_ZOOM : Q := 3.
Definition ZOOM_SENSITIVITY : Q := 1 # 1000.

(** The update [handleWheel] passes on.  [rect] is the canvas rectangle's
    (left, top) when the canvas is mounted. *)
Definition handleWheel (view : ViewState) (ctrlOrMeta : bool)
    (rect : option (Q * Q)) (clientX clientY deltaX deltaY : Q) : ViewPatch :=
  if ctrlOrMeta then
    let delta := (- deltaY * ZOOM_SENSITIVITY)%Q in
    let newZoom := clamp (zoom view * (1 + delta)) MIN_ZOOM MAX_ZOOM in
    match rect with
    | Some (rectLeft, rectTop) =>
        let cx := (clientX - rectLeft)%Q in
        let cy := (clientY - rectTop)%Q in
        let scale := (newZoom / zoom view)%Q in
        let newPanX := (cx - (cx - panX view) * scale)%Q in
        let newPanY := (cy - (cy - panY view) * scale)%Q in
        mkViewPatch (Some newPanX) (Some newPanY) (Some newZoom)
    | None => mkViewPatch None None (Some newZoom)
    end
  else
    mkViewPatch (Some (panX view - deltaX)%Q) (Some (panY view - deltaY)%Q) None.

(** [zoomIn]: [setView({ zoom: clamp(zoom * 1.2, MIN_ZOOM, MAX_ZOOM) })] *)
Definition zoomIn (view : ViewState) : ViewState :=
  setView view
    (mkViewPatch None None
       (Some (clamp (zoom view * (12 # 10)) MIN_ZOOM MAX_ZOOM))).

(** [zoomOut]: [setView({ zoom: clamp(zoom / 1.2, MIN_ZOOM, MAX_ZOOM) })] *)
Definition zoomOut (view : ViewState) : ViewState :=
  setView view
    (mkViewPatch None None
       (Some (clamp (zoom view / (12 # 10)) MIN_ZOOM MAX_ZOOM))).

(** ** Snapshots ([state/useAppStore.ts]) *)

(** [arr.slice(start, end)], negative indices counting from the end. *)
Definition js_slice {A : Type} (l : list A) (start stop : Z) : list A :=
  let len := Z.of_nat (List.length l) in
  let norm i := if i <? 0 then Z.max (len + i) 0 else Z.min i len in
  let s := norm start in
  let e := norm stop in
  firstn (Z.to_nat (e - s)) (skipn (Z.to_nat s) l).

(** [pushSnapshot] on the pair ([snapshots], [snapshotIndex]). *)
Definition pushSnapshot {A : Type} (snapshots : list A) (snapshotIndex : Z)
    (snapshot : A) : list A * Z :=
  let trimmed := js_slice snapshots 0 (snapshotIndex + 1) in
  let next := trimmed ++ [snapshot] in
  let capped :=
    if (50 <? List.length next)%nat
    then js_slice next (Z.of_nat (List.length next) - 50)
                  (Z.of_nat (List.length next))
    else next in
  (capped, Z.of_nat (List.length capped) - 1).

(** ** Synthetic graphs ([generateSyntheticGraph]) *)

(** [i.toString(16)] and [`${i}`] on a non-negative integer. *)
Definition toString16 (i : nat) : string :=
  match N.of_nat i with
  | N0 => "0"
  | Npos p => HexString.Raw.of_pos p ""
  end.

Definition toString10 (i : nat) : string :=
  NilEmpty.string_of_uint (Nat.to_uint i).

(** [s.padStart(targetLength, c)] for a one-character filler. *)
Fixpoint pad_chars (k : nat) (c : ascii) (s : string) : string :=
  match k with
  | O => s
  | S k' => String c (pad_chars k' c s)
  end.

Definition padStart (s : string) (targetLength : nat) (c : ascii) : string :=
  pad_chars (targetLength - String.length s) c s.

(** [if (headOid)]: a string that is defined and not empty. *)
Definition truthy (o : option string) : option string :=
  match o with
  | Some s => if String.eqb s "" then None else Some s
  | None => None
  end.

Record GenState := mkGenState {
  g_commits : list CommitNode;
  g_branches : list string;
  g_branchHeads : JsMap.t string
}.

(** Body of [for (let i = 0; i < n; i++)].  [i % Math.floor(n /
    branchFactor) === 0] is false when the divisor is zero (the remainder
    is [NaN]) or infinite ([branchFactor = 0]). *)
Definition gen_step (n branchFactor : nat) (st : GenState) (i : nat)
    : GenState :=
  let oid := padStart (toString16 i) 40 "0"%char in
  let branches := g_branches st in
  let branchIdx := (i mod List.length branches)%nat in
  let branchName := nth branchIdx branches "" in
  let parents :=
    match truthy (JsMap.get branchName (g_branchHeads st)) with
    | Some headOid => [headOid]
    | None => []
    end in
  let parents :=
    if (10 <? i)%nat && (i mod 7 =? 0)%nat && (1 <? List.length branches)%nat
    then
      let otherIdx := ((branchIdx + 1) mod List.length branches)%nat in
      match truthy (JsMap.get (nth otherIdx branches "") (g_branchHeads st)) with
      | Some otherHead =>
          if negb (existsb (String.eqb otherHead) parents)
          then parents ++ [otherHead] else parents
      | None => parents
      end
    else parents in
  let commit :=
    mkCommit oid (String.append "Commit " (toString10 i)) parents
      (1700000000 + Z.of_nat i * 60)
      (if (i =? n - 1)%nat then [branchName] else [])
      (i =? n - 1)%nat in
  let commits := g_commits st ++ [commit] in
  let branchHeads := JsMap.set branchName oid (g_branchHeads st) in
  let period := (n / branchFactor)%nat in
  if (0 <? i)%nat && (negb (period =? 0)%nat && (i mod period =? 0)%nat)
     && (List.length branches <? 8)%nat
  then
    let newBranch :=
      String.append "feature-" (toString10 (List.length branches)) in
    mkGenState commits (branches ++ [newBranch])
      (JsMap.set newBranch oid branchHeads)
  else mkGenState commits branches branchHeads.

(** [generateSyntheticGraph(n, branchFactor)] for natural numbers. *)
Definition generateSyntheticGraph (n branchFactor : nat) : list CommitNode :=
  g_commits
    (fold_left (gen_step n branchFactor) (seq 0 n)
       (mkGenState [] ["main"] JsMap.empty)).
(** * Specification vocabulary *)

(** ** The commit graph *)

(** The resolved parent references of a commit list, as pairs
    (parent, child) in the order the first pass meets them. *)
Definition topo_edges (oidSet : list string) (commits : list CommitNode)
    : list (string * string) :=
  flat_map
    (fun c => map (fun p => (p, oid c)) (filter (set_has oidSet) (parents c)))
    commits.

(** Number of parent references of [v] whose parent is not in [done]. *)
Definition pend (E : list (string * string)) (done : list string) (v : string)
    : nat :=
  List.length
    (filter (fun e => String.eqb (snd e) v && negb (set_has done (fst e))) E).

(** Number of times [v] lists [p] as a parent. *)
Definition mult (E : list (string * string)) (p v : string) : nat :=
  List.length
    (filter (fun e => String.eqb (fst e) p && String.eqb (snd e) v) E).

(** [child] lists [parent], and [parent] is an identifier of the list. *)
Definition resolved_edge (commits : list CommitNode) (child parent : string)
    : Prop :=
  exists c, In c commits /\ oid c = child /\
            In parent (parents c) /\ In parent (map oid commits).

Definition acyclic (commits : list CommitNode) : Prop :=
  forall x, ~ clos_trans string (resolved_edge commits) x x.

(** Parent references that name an identifier of the list, in order. *)
Definition resolved_refs (commits : list CommitNode) : list string :=
  flat_map (fun c => filter (set_has (map oid commits)) (parents c)) commits.

(** [x] lists [y] as a parent. *)
Definition parent_edge (commits : list CommitNode) (x y : string) : Prop :=
  exists c, In c commits /\ oid c = x /\ In y (parents c).

(** The same relation read off the commit map. *)
Definition map_edge (cm : JsMap.t CommitNode) (x y : string) : Prop :=
  exists c, JsMap.get x cm = Some c /\ In y (parents c).

(** Parent references not yet pushed: those of map entries whose key is
    not visited. *)
Definition unexpanded (cm : JsMap.t CommitNode) (visited : list string) : nat :=
  list_sum
    (map (fun kc => if set_has visited (fst kc) then O
                    else List.length (parents (snd kc))) cm).

(** ** Invariants of the topological sort *)

Section KahnInvariant.
Variable E : list (string * string).
Variable K : list string.

(** Invariant of the loop.  [done] is the dequeued prefix of the queue and
    [h] the children of the current node already handled. *)
Record topo_inv (inDegree : JsMap.t Z) (queue done h : list string) : Prop := {
  ti_nodup : NoDup queue;
  ti_keys : JsMap.keys inDegree = K;
  ti_queue_deg :
    forall v, In v queue -> exists d, JsMap.get v inDegree = Some d /\ d <= 0;
  ti_deg :
    forall v, In v K ->
      JsMap.get v inDegree =
      Some (Z.of_nat (pend E done v) - Z.of_nat (count_occ string_dec h v));
  ti_zero : forall v, In v K -> JsMap.get v inDegree = Some 0 -> In v queue;
  ti_order :
    forall j v p, nth_error queue j = Some v -> In (p, v) E ->
      exists i, (i < j)%nat /\ nth_error queue i = Some p
}.
End KahnInvariant.

(** What the two maps hold once the parent references [E] have been met. *)
Record build_inv (E : list (string * string))
    (st : JsMap.t Z * JsMap.t (list string)) : Prop := {
  bi_nodup : NoDup (JsMap.keys (fst st));
  bi_deg :
    forall v, In v (JsMap.keys (fst st)) ->
      JsMap.get v (fst st) = Some (Z.of_nat (pend E [] v));
  bi_children :
    forall p v,
      count_occ string_dec (nullish (JsMap.get p (snd st)) []) v = mult E p v;
  bi_edge_key : forall p v, In (p, v) E -> In v (JsMap.keys (fst st))
}.

(** ** Walks in a graph *)

Section WalkDef.
Variable A : Type.
Variable R : A -> A -> Prop.
Variable P : A -> Prop.

(** A walk, newest node first: each node is an [R]-successor of the one
    after it, and every node satisfies [P]. *)
Inductive walk : list A -> Prop :=
| walk_one v : P v -> walk [v]
| walk_step w v l : P w -> R v w -> walk (v :: l) -> walk (w :: v :: l).
End WalkDef.

(** ** Lanes *)

(** No assigned or reserved lane index is negative. *)
Definition lanes_nonneg (st : LaneState) : Prop :=
  (forall k v, In (k, v) (columns st) -> 0 <= v) /\
  (forall k v, In (k, v) (reservations st) -> 0 <= v).

(** ** Quadtree *)

(** The comparison laws the proofs about the quadtree rest on.  They hold
    of IEEE doubles, [NaN] included (a comparison with [NaN] is false);
    no law about rounding is assumed. *)
Class NumOrder (N : Type) {num : Num N} := {
  nleb_trans : forall a b c : N,
    (a <=? b)%num = true -> (b <=? c)%num = true -> (a <=? c)%num = true;
  nleb_nltb : forall a b : N, (a <=? b)%num = true -> (b <? a)%num = false;
  nltb_trans : forall a b c : N,
    (a <? b)%num = true -> (b <? c)%num = true -> (a <? c)%num = true;
  nltb_irrefl : forall a : N, (a <? a)%num = false
}.

Section QuadtreeSpec.
Variable T : Type.
Variable N : Type.
Context {num : Num N}.
Local Open Scope num_scope.

(** One rectangle inside another, far edges as the code computes them. *)
Definition rect_in (c p : BBox N) : bool :=
  (b_x p <=? b_x c) && (b_x c + b_width c <=? b_x p + b_width p) &&
  (b_y p <=? b_y c) && (b_y c + b_height c <=? b_y p + b_height p).

(** The point of an entry passes the code's [inBounds] test for a
    rectangle. *)
Definition entry_in (b : BBox N) (e : Entry T N) : Prop :=
  inBounds b (ent_x e) (ent_y e) = true.

(** All entries held by a subtree. *)
Fixpoint entries (n : QuadtreeNode T N) : list (Entry T N) :=
  items n ++
  match children n with
  | None => []
  | Some cs => flat_map entries cs
  end.

(** The structural invariant: every entry held at a node or below it
    passes [inBounds] for the node's rectangle, at every node. *)
#[warnings="-register-all"] Inductive well_formed : QuadtreeNode T N -> Prop :=
| wf_leaf b its :
    Forall (entry_in b) its -> well_formed (QNode b its None)
| wf_inner b its cs :
    Forall (entry_in b) its ->
    Forall (fun c => Forall (entry_in b) (entries c)) cs ->
    Forall well_formed cs ->
    well_formed (QNode b its (Some cs)).

(** [insert] applied to a sequence of (item, x, y) triples. *)
Definition insert_all (qt : Quadtree T N) (l : list (T * N * N))
    : Quadtree T N :=
  fold_left (fun qt p => insert qt (fst (fst p)) (snd (fst p)) (snd p)) l qt.

(** The entry [insert] stores for an (item, x, y) triple. *)
Definition entry_of (p : T * N * N) : Entry T N :=
  mkEntry (fst (fst p)) (snd (fst p)) (snd p).

(** The square that [queryNode] prunes with. *)
Definition searchBounds (x y radius : N) : BBox N :=
  mkBBox (x - radius) (y - radius) (radius * ntwo) (radius * ntwo).

(** The entries [queryNode] hands to its callback, in order. *)
Fixpoint visit (n : QuadtreeNode T N) (x y radius : N) : list (Entry T N) :=
  if negb (boundsOverlap (bounds n) (searchBounds x y radius)) then []
  else
    items n ++
    match children n with
    | None => []
    | Some cs => flat_map (fun c => visit c x y radius) cs
    end.

(** The point of an entry lies in the search square, by the test the
    code applies to rectangles. *)
Definition in_square (x y radius : N) (e : Entry T N) : bool :=
  inBounds (searchBounds x y radius) (ent_x e) (ent_y e).

(** Squared distance from an entry to the query point, as the callback
    of [queryNearest] computes it. *)
Definition entry_dist (x y : N) (e : Entry T N) : N :=
  (ent_x e - x) * (ent_x e - x) + (ent_y e - y) * (ent_y e - y).

(** The four quarters of a rectangle, in the order [subdivide] lists
    them: NW, NE, SW, SE. *)
Definition quadrants (b : BBox N) : list (BBox N) :=
  [ mkBBox (b_x b) (b_y b) (b_width b / ntwo) (b_height b / ntwo);
    mkBBox (b_x b + b_width b / ntwo) (b_y b)
           (b_width b / ntwo) (b_height b / ntwo);
    mkBBox (b_x b) (b_y b + b_height b / ntwo)
           (b_width b / ntwo) (b_height b / ntwo);
    mkBBox (b_x b + b_width b / ntwo) (b_y b + b_height b / ntwo)
           (b_width b / ntwo) (b_height b / ntwo) ].

(** Every subdivided node has exactly the four quarters of its rectangle
    as children. *)
#[warnings="-register-all"] Inductive quartered : QuadtreeNode T N -> Prop :=
| quartered_leaf b its : quartered (QNode b its None)
| quartered_inner b its cs :
    map (@bounds T N) cs = quadrants b ->
    Forall quartered cs ->
    quartered (QNode b its (Some cs)).

(** Subdivided nodes occur only at depths below [md]; [d] is the depth of
    the node itself. *)
#[warnings="-register-all"] Inductive depth_ok (md : Z) : Z -> QuadtreeNode T N -> Prop :=
| depth_ok_leaf d b its : depth_ok md d (QNode b its None)
| depth_ok_inner d b its cs :
    (d < md)%Z ->
    Forall (depth_ok md (d + 1)%Z) cs ->
    depth_ok md d (QNode b its (Some cs)).

(** Number of levels below a node. *)
Fixpoint tree_height (n : QuadtreeNode T N) : nat :=
  match children n with
  | None => O
  | Some cs => S (fold_right (fun c h => Nat.max (tree_height c) h) O cs)
  end.
End QuadtreeSpec.

Arguments rect_in {N num} _ _.
Arguments entry_in {T N num} _ _.
Arguments entries {T N} _.
Arguments well_formed {T N num} _.
Arguments insert_all {T N num} _ _.
Arguments entry_of {T N} _.
Arguments searchBounds {N num} _ _ _.
Arguments visit {T N num} _ _ _ _.
Arguments in_square {T N num} _ _ _ _.
Arguments entry_dist {T N num} _ _ _.
Arguments quadrants {N num} _.
Arguments quartered {T N num} _.
Arguments depth_ok {T N} _ _ _.
Arguments tree_height {T N} _.

(** ** Doubles that compute without rounding *)

(** The canonical form of the double [a * 2^e], for [a] below [2^53] in
    magnitude: a mantissa of exactly 53 binary digits, with its
    exponent. *)
Definition canon_pos (p : positive) : positive :=
  Pos.shiftl_nat p (Z.to_nat (53 - Z.pos (digits2_pos p))).

Definition canon_exp (p : positive) (e : Z) : Z :=
  e - (53 - Z.pos (digits2_pos p)).

Definition canon (a e : Z) : spec_float :=
  match a with
  | Z0 => S754_zero false
  | Zpos p => S754_finite false (canon_pos p) (canon_exp p e)
  | Zneg p => S754_finite true (canon_pos p) (canon_exp p e)
  end.

(** ** Example inputs *)

(** A two-cycle with a dangling parent, next to a root. *)
Definition example_cycle : list CommitNode :=
  [ mkCommit "c" "third" ["b"; "ghost"] 300 [] true;
    mkCommit "b" "second" ["c"] 200 [] false;
    mkCommit "a" "first" [] 100 [] false ].

(** A merge of two branches of one root, newest first. *)
Definition example_diamond : list CommitNode :=
  [ mkCommit "merge" "merge" ["a"; "b"; "ghost"] 300 [] true;
    mkCommit "b" "right" ["root"] 200 [] false;
    mkCommit "a" "left" ["root"] 200 [] false;
    mkCommit "root" "initial" [] 100 [] false ].

(** Distance from the root in [example_diamond]. *)
Definition example_diamond_rank (s : string) : nat :=
  if String.eqb s "root" then 0
  else if String.eqb s "merge" then 2 else 1.

(** A chain of three commits whose head also names a missing parent. *)
Definition example_chain : list CommitNode :=
  [ mkCommit "a" "first" [] 100 [] false;
    mkCommit "b" "second" ["a"] 200 [] false;
    mkCommit "c" "third" ["b"; "ghost"] 300 [] true ].

(** Six points in a 100 x 100 square; the fifth insert subdivides. *)
Definition example_tree : Quadtree string float :=
  insert_all (quadtree_new string (mkBBox 0 0 100 100)%float 4 8)
    [("A", 10, 10); ("B", 50, 50); ("C", 90, 90); ("D", 20, 20);
     ("E", 60, 10); ("F", 50, 50)]%float.

(** A square with corner [(0.1, 0.1)] and side [4.2], subdivided by its
    second point. *)
Definition example_overhang : Quadtree string float :=
  insert_all
    (quadtree_new string
       (mkBBox (of_Q 0.1) (of_Q 0.1) (of_Q 4.2) (of_Q 4.2)) 1 8)
    [("A", 1, 1); ("B", 3, 3)]%float.

(** One point on the left edge of a square whose left edge is [-27.8]. *)
Definition example_edge_points : list (string * float * float) :=
  [("A", of_Q (-27.8), 5%float)].

Definition example_edge_tree : Quadtree string float :=
  insert_all (quadtree_new string (mkBBox (of_Q (-27.8)) 0 10 10)%float 4 8)
    example_edge_points.

(** Inputs of [tests/graphAlgo.test.ts]. *)
Definition test_commit (o : string) (ps : list string) (ts : Z) : CommitNode :=
  mkCommit o (String.append "Commit " o) ps ts [] false.

Definition test_chain : list CommitNode :=
  [ test_commit "a" [] 100; test_commit "b" ["a"] 200;
    test_commit "c" ["b"] 300 ].

Definition test_merge : list CommitNode :=
  [ test_commit "root" [] 100; test_commit "a" ["root"] 200;
    test_commit "b" ["root"] 201; test_commit "merge" ["a"; "b"] 300 ].

(** ** Further vocabulary *)

(** A commit none of whose parent references names an identifier of
    [oids]: a root of the graph restricted to the list. *)
Definition is_root (oids : list string) (c : CommitNode) : bool :=
  negb (existsb (set_has oids) (parents c)).

(** The node of commit [b] in the layout of [test_chain]. *)
Definition example_node_b : LayoutNode :=
  mkLayoutNode "b" 60 130 0 1 "#6366f1" ["a"] [] "Commit b" false.

(** The edge [edge_step] builds for a child and one of its parents. *)
Definition edge_between (node parent : LayoutNode) : LayoutEdge :=
  mkLayoutEdge (n_oid node) (n_oid parent) (n_color node)
    (if n_col node =? n_col parent
     then [(n_x node, n_y node); (n_x parent, n_y parent)]
     else [(n_x node, n_y node);
           (n_x node, (n_y node + n_y parent) / 2);
           (n_x parent, (n_y node + n_y parent) / 2);
           (n_x parent, n_y parent)])%Q.

(** ** Doubles that are not below zero *)

(** Not a negative number: [NaN], a zero of either sign, or a number
    with the sign bit clear. *)
Definition sf_nonneg (x : spec_float) : Prop :=
  match x with
  | S754_infinity true | S754_finite true _ _ => False
  | _ => True
  end.

(** ** Commit lists with repeated identifiers *)

(** The commit an identifier resolves to in a [Map] filled from the list:
    the last one that carries it. *)
Definition last_commit (commits : list CommitNode) (k : string)
    : option CommitNode :=
  find (fun c => String.eqb (oid c) k) (rev commits).

(** [y] is a parent reference of the commit that [x] resolves to. *)
Definition resolved_parent (commits : list CommitNode) (x y : string) : Prop :=
  exists c, last_commit commits x = Some c /\ In y (parents c).

(** ** Linear histories *)

(** A list read newest first in which every commit has exactly one
    parent, the next commit of the list, and the last has none. *)
Fixpoint is_chain (s : list CommitNode) : Prop :=
  match s with
  | [] => True
  | c :: r =>
      parents c = match r with [] => [] | p :: _ => [oid p] end /\
      is_chain r
  end.

(** ** Synthetic graphs *)

(** The identifier of the [j]-th synthetic commit. *)
Definition synthetic_oid (j : nat) : string :=
  padStart (toString16 j) 40 "0"%char.

(** The number a hexadecimal identifier denotes. *)
Definition hex_rank (s : string) : nat :=
  N.to_nat (HexString.Raw.to_N s 0%N).

(** What [generateSyntheticGraph n] puts at position [j]. *)
Definition synthetic_commit (n j : nat) (c : CommitNode) : Prop :=
  oid c = synthetic_oid j /\
  message c = String.append "Commit " (toString10 j) /\
  timestamp c = 1700000000 + Z.of_nat j * 60 /\
  isHead c = (j =? n - 1)%nat /\
  (List.length (parents c) <= 2)%nat /\
  Forall (fun p => exists j', (j' < j)%nat /\ p = synthetic_oid j')
    (parents c).

(** Invariant of the generator's loop after [k] iterations. *)
Definition gen_inv (n k : nat) (st : GenState) : Prop :=
  Forall2 (synthetic_commit n) (seq 0 k) (g_commits st) /\
  (forall b h, JsMap.get b (g_branchHeads st) = Some h ->
               exists j', (j' < k)%nat /\ h = synthetic_oid j').

(** ** Throttling *)

(** One call per frame with the arguments of the latest request since the
    previous frame, none for a frame without a request. *)
Fixpoint latest_per_frame {Args : Type} (pending : option Args)
    (evs : list (ThrottleEvent Args)) : list Args :=
  match evs with
  | [] => []
  | Call args :: r => latest_per_frame (Some args) r
  | Frame :: r =>
      match pending with
      | Some args => args :: latest_per_frame None r
      | None => latest_per_frame None r
      end
  end.

Definition is_frame {Args : Type} (ev : ThrottleEvent Args) : bool :=
  match ev with Frame => true | Call _ => false end.

(** Between events at most one callback is scheduled, exactly when
    [queued] is set, and then there are arguments to pass on. *)
Definition throttle_inv {Args : Type} (st : ThrottleState Args) : Prop :=
  scheduled st = (if queued st then 1%nat else 0%nat) /\
  (queued st = true -> lastArgs st <> None).
(** * Proofs *)

(** ** Facts about [JsMap] and sets *)

Lemma set_has_true_iff (s : list string) (x : string) :
  set_has s x = true <-> In x s.
Proof.
  unfold set_has. rewrite existsb_exists. split.
  - intros [y [Hy He]]. apply String.eqb_eq in He. now subst.
  - intros H. exists x. split; [assumption | apply String.eqb_refl].
Qed.

Lemma set_has_false_iff (s : list string) (x : string) :
  set_has s x = false <-> ~ In x s.
Proof.
  rewrite <- set_has_true_iff. destruct (set_has s x); intuition congruence.
Qed.

Module JsMapFacts.
Import JsMap.
Section Facts.
Variable V : Type.
Implicit Types (m : JsMap.t V) (k : string) (v : V).

Lemma get_set_eq m k v : get k (set k v m) = Some v.
Proof.
  induction m as [|[k' v'] r IH]; simpl.
  - now rewrite String.eqb_refl.
  - destruct (String.eqb k k') eqn:E; simpl; rewrite E; auto.
Qed.

Lemma get_set_neq m k k' v : k <> k' -> get k' (set k v m) = get k' m.
Proof.
  intros Hne. induction m as [|[k0 v0] r IH]; simpl.
  - destruct (String.eqb k' k) eqn:E; auto.
    apply String.eqb_eq in E. congruence.
  - destruct (String.eqb k k0) eqn:E; simpl.
    + apply String.eqb_eq in E. subst k0.
      destruct (String.eqb k' k) eqn:E'; auto.
      apply String.eqb_eq in E'. congruence.
    + now rewrite IH.
Qed.

Lemma get_Some_keys m k v : get k m = Some v -> In k (keys m).
Proof.
  induction m as [|[k' v'] r IH]; simpl; [discriminate|].
  destruct (String.eqb k k') eqn:E.
  - apply String.eqb_eq in E. auto.
  - intros H. right. now apply IH.
Qed.

Lemma keys_get m k : In k (keys m) -> exists v, get k m = Some v.
Proof.
  induction m as [|[k' v'] r IH]; simpl; [tauto|].
  intros [H|H]; destruct (String.eqb k k') eqn:E; eauto.
  subst. now rewrite String.eqb_refl in E.
Qed.

Lemma get_None_keys m k : get k m = None <-> ~ In k (keys m).
Proof.
  split.
  - intros H Hin. apply keys_get in Hin. destruct Hin as [v Hv]. congruence.
  - intros H. destruct (get k m) eqn:E; auto.
    apply get_Some_keys in E. contradiction.
Qed.

Lemma has_true_iff m k : has k m = true <-> In k (keys m).
Proof.
  unfold has. split.
  - destruct (get k m) eqn:E; [|discriminate].
    intros _. eapply get_Some_keys; eauto.
  - intros H. apply keys_get in H. destruct H as [v ->]. reflexivity.
Qed.

Lemma has_false_iff m k : has k m = false <-> ~ In k (keys m).
Proof.
  rewrite <- has_true_iff. destruct (has k m); intuition congruence.
Qed.

Lemma keys_set_in m k v : In k (keys m) -> keys (set k v m) = keys m.
Proof.
  induction m as [|[k' v'] r IH]; simpl; [tauto|].
  destruct (String.eqb k k') eqn:E; simpl; auto.
  intros [H|H]; [subst; now rewrite String.eqb_refl in E|].
  f_equal. now apply IH.
Qed.

Lemma keys_set_notin m k v :
  ~ In k (keys m) -> keys (set k v m) = keys m ++ [k].
Proof.
  induction m as [|[k' v'] r IH]; simpl; auto.
  intros H. destruct (String.eqb k k') eqn:E; simpl.
  - apply String.eqb_eq in E. subst. tauto.
  - f_equal. apply IH. tauto.
Qed.

Lemma in_keys_set m k k' v :
  In k' (keys (set k v m)) <-> k' = k \/ In k' (keys m).
Proof.
  destruct (in_dec string_dec k (keys m)) as [Hin|Hin].
  - rewrite keys_set_in by assumption. intuition (subst; auto).
  - rewrite keys_set_notin by assumption. rewrite in_app_iff. simpl.
    intuition (subst; auto).
Qed.

Lemma get_NoDup_in m k v :
  NoDup (keys m) -> In (k, v) m -> get k m = Some v.
Proof.
  induction m as [|[k' v'] r IH]; simpl; [tauto|].
  intros Hnd [H|H].
  - inversion H; subst. now rewrite String.eqb_refl.
  - inversion Hnd; subst. destruct (String.eqb k k') eqn:E.
    + apply String.eqb_eq in E. subst. exfalso. apply H2.
      change k' with (fst (k', v)). now apply in_map.
    + now apply IH.
Qed.

Lemma get_in m k v : get k m = Some v -> In (k, v) m.
Proof.
  induction m as [|[k' v'] r IH]; simpl; [discriminate|].
  destruct (String.eqb k k') eqn:E.
  - apply String.eqb_eq in E. intros H. inversion H; subst. auto.
  - auto.
Qed.

Lemma keys_NoDup_set m k v : NoDup (keys m) -> NoDup (keys (set k v m)).
Proof.
  intros H. destruct (in_dec string_dec k (keys m)) as [Hin|Hin].
  - now rewrite keys_set_in.
  - rewrite keys_set_notin by assumption.
    apply NoDup_app; [assumption | repeat constructor; simpl; tauto |].
    simpl. intros a Ha [<-|[]]. contradiction.
Qed.
End Facts.
End JsMapFacts.

(** ** Counting facts used by the analysis of Kahn's algorithm *)

Lemma filter_length_mono {A : Type} (f g : A -> bool) (l : list A) :
  (forall x, In x l -> g x = true -> f x = true) ->
  (List.length (filter g l) <= List.length (filter f l))%nat.
Proof.
  induction l as [|a r IH]; simpl; intros H; [lia|].
  assert (IH' := IH (fun x Hx => H x (or_intror Hx))).
  destruct (g a) eqn:Eg.
  - rewrite (H a (or_introl eq_refl) Eg). simpl. lia.
  - destruct (f a); simpl; lia.
Qed.

Lemma filter_length_saturated {A : Type} (f g : A -> bool) (l : list A) :
  (forall x, In x l -> g x = true -> f x = true) ->
  (List.length (filter f l) <= List.length (filter g l))%nat ->
  forall x, In x l -> f x = true -> g x = true.
Proof.
  induction l as [|a r IH]; simpl; intros H Hle x Hx Hf; [tauto|].
  assert (Hmono := @filter_length_mono A f g r (fun x Hx => H x (or_intror Hx))).
  assert (Hsub : forall x, In x r -> g x = true -> f x = true) by auto.
  destruct (g a) eqn:Eg.
  - rewrite (H a (or_introl eq_refl) Eg) in Hle. simpl in Hle.
    destruct Hx as [->|Hx]; [assumption|].
    apply IH; auto. lia.
  - destruct (f a) eqn:Ef; simpl in Hle.
    + lia.
    + destruct Hx as [->|Hx]; [congruence|].
      apply IH; auto.
Qed.

Lemma count_occ_snoc (l : list string) (c v : string) :
  count_occ string_dec (l ++ [c]) v =
  (count_occ string_dec l v + if string_dec c v then 1 else 0)%nat.
Proof.
  rewrite count_occ_app. simpl. destruct (string_dec c v); lia.
Qed.

Lemma set_has_app (s1 s2 : list string) (x : string) :
  set_has (s1 ++ s2) x = set_has s1 x || set_has s2 x.
Proof. unfold set_has. apply existsb_app. Qed.

Lemma pend_snoc E done node v :
  ~ In node done ->
  (pend E (done ++ [node]) v + mult E node v = pend E done v)%nat.
Proof.
  intros Hn. unfold pend, mult. induction E as [|[p w] r IH]; simpl; auto.
  rewrite set_has_app.
  assert (Hs : set_has [node] p = String.eqb p node)
    by (unfold set_has; simpl; apply orb_false_r).
  rewrite Hs. clear Hs.
  destruct (String.eqb w v) eqn:Ew; simpl.
  - destruct (String.eqb p node) eqn:Ep.
    + apply String.eqb_eq in Ep. subst p.
      apply set_has_false_iff in Hn. rewrite Hn. simpl. lia.
    + rewrite orb_false_r. destruct (set_has done p); simpl; lia.
  - rewrite andb_false_r. exact IH.
Qed.

Lemma pend_app E1 E2 done v :
  pend (E1 ++ E2) done v = (pend E1 done v + pend E2 done v)%nat.
Proof. unfold pend. now rewrite filter_app, length_app. Qed.

Lemma mult_app E1 E2 p v :
  mult (E1 ++ E2) p v = (mult E1 p v + mult E2 p v)%nat.
Proof. unfold mult. now rewrite filter_app, length_app. Qed.

Lemma pend_pos_in E done v :
  (0 < pend E done v)%nat -> exists p, In (p, v) E /\ ~ In p done.
Proof.
  unfold pend. intros H.
  destruct (filter _ E) as [|[p w] r] eqn:Ef; [simpl in H; lia|].
  assert (Hin : In (p, w) (filter (fun e => String.eqb (snd e) v && negb (set_has done (fst e))) E))
    by (rewrite Ef; now left).
  apply filter_In in Hin. destruct Hin as [Hin Hb]. simpl in Hb.
  apply andb_true_iff in Hb. destruct Hb as [Hw Hd].
  apply String.eqb_eq in Hw. subst w.
  apply negb_true_iff, set_has_false_iff in Hd. eauto.
Qed.

Lemma pend_zero_all E done v p :
  pend E done v = O -> In (p, v) E -> In p done.
Proof.
  unfold pend. intros H Hin.
  destruct (in_dec string_dec p done) as [Hd|Hd]; [assumption|].
  exfalso.
  assert (Hf : In (p, v) (filter (fun e => String.eqb (snd e) v && negb (set_has done (fst e))) E)).
  { apply filter_In. split; [assumption|]. simpl.
    rewrite String.eqb_refl. apply set_has_false_iff in Hd. now rewrite Hd. }
  destruct (filter _ E); [contradiction | simpl in H; lia].
Qed.

Lemma mult_pos_in E p v : (0 < mult E p v)%nat -> In (p, v) E.
Proof.
  unfold mult. intros H.
  destruct (filter _ E) as [|[p' w] r] eqn:Ef; [simpl in H; lia|].
  assert (Hin : In (p', w) (filter (fun e => String.eqb (fst e) p && String.eqb (snd e) v) E))
    by (rewrite Ef; now left).
  apply filter_In in Hin. destruct Hin as [Hin Hb]. simpl in Hb.
  apply andb_true_iff in Hb. destruct Hb as [Hp Hw].
  apply String.eqb_eq in Hp, Hw. now subst.
Qed.

(** When the pending references of [c] are no more than those naming
    [node], every pending reference of [c] names [node]. *)
Lemma pend_le_mult E done node c p :
  ~ In node done ->
  (pend E done c <= mult E node c)%nat ->
  In (p, c) E -> In p done \/ p = node.
Proof.
  intros Hn Hle Hin.
  destruct (in_dec string_dec p done) as [Hd|Hd]; [now left|right].
  assert (H := @filter_length_saturated _
            (fun e => String.eqb (snd e) c && negb (set_has done (fst e)))
            (fun e => String.eqb (fst e) node && String.eqb (snd e) c) E).
  assert (Hg : String.eqb (fst (p, c)) node && String.eqb (snd (p, c)) c = true).
  { apply H.
    - intros [p' w] _ Hb. simpl in *. apply andb_true_iff in Hb.
      destruct Hb as [Hp Hw]. rewrite Hw. simpl.
      apply String.eqb_eq in Hp. subst p'.
      apply set_has_false_iff in Hn. now rewrite Hn.
    - exact Hle.
    - exact Hin.
    - simpl. rewrite String.eqb_refl. apply set_has_false_iff in Hd.
      now rewrite Hd. }
  simpl in Hg. apply andb_true_iff in Hg. destruct Hg as [Hg _].
  now apply String.eqb_eq in Hg.
Qed.

(** ** List facts about queue prefixes *)

Lemma firstn_S_nth_error {A : Type} (l : list A) (n : nat) (a : A) :
  nth_error l n = Some a -> firstn (S n) l = firstn n l ++ [a].
Proof.
  revert n. induction l as [|b r IH]; intros [|n] H; simpl in *;
    try discriminate.
  - now inversion H.
  - f_equal. now apply IH.
Qed.

Lemma firstn_app_le {A : Type} (l1 l2 : list A) (n : nat) :
  (n <= List.length l1)%nat -> firstn n (l1 ++ l2) = firstn n l1.
Proof.
  intros H. rewrite firstn_app.
  replace (n - List.length l1)%nat with O by lia.
  simpl. apply app_nil_r.
Qed.

Lemma NoDup_nth_error_not_in_firstn {A : Type} (l : list A) (n : nat) (a : A) :
  NoDup l -> nth_error l n = Some a -> ~ In a (firstn n l).
Proof.
  revert n. induction l as [|b r IH]; intros [|n] Hnd H; simpl in *;
    try discriminate; auto.
  inversion Hnd; subst. intros [->|Hin].
  - apply nth_error_In in H. contradiction.
  - eapply IH; eauto.
Qed.

Lemma In_firstn_nth_error {A : Type} (l : list A) (n : nat) (a : A) :
  In a (firstn n l) ->
  exists i, (i < n)%nat /\ (i < List.length l)%nat /\ nth_error l i = Some a.
Proof.
  revert n. induction l as [|b r IH]; intros [|n] H; simpl in *; try tauto.
  destruct H as [->|H].
  - exists O. simpl. repeat split; lia.
  - destruct (IH _ H) as [i [Hi [Hl He]]]. exists (S i). simpl.
    repeat split; auto; lia.
Qed.

(** ** The main loop of Kahn's algorithm *)

Section KahnLoop.
Variable E : list (string * string).
Variable K : list string.
Variable children : JsMap.t (list string).
Hypothesis children_mult :
  forall p v,
    count_occ string_dec (nullish (JsMap.get p children) []) v = mult E p v.
Hypothesis edge_child_key : forall p v, In (p, v) E -> In v K.

Lemma topo_inv_queue_incl inDegree queue done h :
  topo_inv E K inDegree queue done h -> incl queue K.
Proof.
  intros I v Hv. destruct (ti_queue_deg I v Hv) as [d [Hd _]].
  rewrite <- (ti_keys I). eapply JsMapFacts.get_Some_keys; eauto.
Qed.

Lemma topo_child_step_inv inDegree queue done h node c :
  topo_inv E K inDegree queue done h ->
  ~ In node done ->
  (count_occ string_dec (h ++ [c]) c <= mult E node c)%nat ->
  (forall p, In p done \/ p = node ->
     exists i, (i < List.length queue)%nat /\ nth_error queue i = Some p) ->
  exists inDegree' extra,
    topo_child_step (inDegree, queue) c = (inDegree', queue ++ extra) /\
    topo_inv E K inDegree' (queue ++ extra) done (h ++ [c]).
Proof.
  intros I Hnode Hcnt Hpos.
  assert (HcK : In c K).
  { apply (edge_child_key node). apply mult_pos_in.
    rewrite count_occ_snoc in Hcnt. destruct (string_dec c c); [lia|congruence]. }
  assert (Hkeys : In c (JsMap.keys inDegree)) by (now rewrite (ti_keys I)).
  pose proof (ti_deg I c HcK) as Hd.
  unfold topo_child_step. rewrite Hd. simpl nullish.
  set (d := Z.of_nat (pend E done c) - Z.of_nat (count_occ string_dec h c)) in *.
  assert (Hcount : forall v, v <> c ->
            count_occ string_dec (h ++ [c]) v = count_occ string_dec h v).
  { intros v Hv. rewrite count_occ_snoc.
    destruct (string_dec c v); [congruence|lia]. }
  assert (Hcountc : count_occ string_dec (h ++ [c]) c = S (count_occ string_dec h c)).
  { rewrite count_occ_snoc. destruct (string_dec c c); [lia|congruence]. }
  destruct (d - 1 =? 0) eqn:Ez.
  - apply Z.eqb_eq in Ez.
    exists (JsMap.set c (d - 1) inDegree), [c]. split; [reflexivity|].
    assert (Hnq : ~ In c queue).
    { intros Hin. destruct (ti_queue_deg I c Hin) as [d' [Hd' Hle]].
      rewrite Hd in Hd'. inversion Hd'. lia. }
    constructor.
    + apply NoDup_app; [apply (ti_nodup I) | repeat constructor; simpl; tauto |].
      intros a Ha [<-|[]]. contradiction.
    + rewrite JsMapFacts.keys_set_in by assumption. apply (ti_keys I).
    + intros v Hv. destruct (string_dec c v) as [<-|Hne].
      * rewrite JsMapFacts.get_set_eq. exists (d - 1). split; [reflexivity|lia].
      * rewrite JsMapFacts.get_set_neq by assumption.
        apply in_app_iff in Hv. destruct Hv as [Hv|[Hv|[]]]; [|congruence].
        apply (ti_queue_deg I v Hv).
    + intros v Hv. destruct (string_dec c v) as [<-|Hne].
      * rewrite JsMapFacts.get_set_eq, Hcountc. f_equal. unfold d. lia.
      * rewrite JsMapFacts.get_set_neq by assumption.
        rewrite Hcount by congruence. apply (ti_deg I v Hv).
    + intros v Hv. destruct (string_dec c v) as [<-|Hne].
      * intros _. apply in_app_iff. right. now left.
      * rewrite JsMapFacts.get_set_neq by assumption. intros H0.
        apply in_app_iff. left. apply (ti_zero I v Hv H0).
    + intros j v p Hj Hp.
      destruct (Nat.lt_ge_cases j (List.length queue)) as [Hlt|Hge].
      * rewrite nth_error_app1 in Hj by assumption.
        destruct (ti_order I _ _ Hj Hp) as [i [Hi Hi']].
        exists i. split; [assumption|].
        rewrite nth_error_app1 by lia. assumption.
      * rewrite nth_error_app2 in Hj by assumption.
        destruct (j - List.length queue)%nat as [|k] eqn:Ek; simpl in Hj;
          [|destruct k; discriminate].
        inversion Hj; subst v.
        assert (Hpm : In p done \/ p = node).
        { apply (@pend_le_mult E done node c p); auto. unfold d in Ez. lia. }
        destruct (Hpos p Hpm) as [i [Hi Hi']].
        exists i. split; [lia|]. rewrite nth_error_app1 by lia. assumption.
  - apply Z.eqb_neq in Ez.
    exists (JsMap.set c (d - 1) inDegree), []. rewrite app_nil_r.
    split; [reflexivity|]. constructor.
    + apply (ti_nodup I).
    + rewrite JsMapFacts.keys_set_in by assumption. apply (ti_keys I).
    + intros v Hv. destruct (string_dec c v) as [<-|Hne].
      * rewrite JsMapFacts.get_set_eq. exists (d - 1). split; [reflexivity|].
        destruct (ti_queue_deg I c Hv) as [d' [Hd' Hle]].
        rewrite Hd in Hd'. inversion Hd'. lia.
      * rewrite JsMapFacts.get_set_neq by assumption.
        apply (ti_queue_deg I v Hv).
    + intros v Hv. destruct (string_dec c v) as [<-|Hne].
      * rewrite JsMapFacts.get_set_eq, Hcountc. f_equal. unfold d. lia.
      * rewrite JsMapFacts.get_set_neq by assumption.
        rewrite Hcount by congruence. apply (ti_deg I v Hv).
    + intros v Hv. destruct (string_dec c v) as [<-|Hne].
      * rewrite JsMapFacts.get_set_eq. intros H0. inversion H0. lia.
      * rewrite JsMapFacts.get_set_neq by assumption. apply (ti_zero I v Hv).
    + apply (ti_order I).
Qed.

Lemma topo_children_fold_inv done node :
  ~ In node done ->
  forall rest h inDegree queue,
    (forall v, (count_occ string_dec (h ++ rest) v <= mult E node v)%nat) ->
    topo_inv E K inDegree queue done h ->
    (forall p, In p done \/ p = node ->
       exists i, (i < List.length queue)%nat /\ nth_error queue i = Some p) ->
    exists inDegree' extra,
      fold_left topo_child_step rest (inDegree, queue)
        = (inDegree', queue ++ extra) /\
      topo_inv E K inDegree' (queue ++ extra) done (h ++ rest).
Proof.
  intros Hnode. induction rest as [|c rest IH]; intros h inDegree queue Hcnt I Hpos.
  - exists inDegree, []. rewrite !app_nil_r. simpl. auto.
  - cbn [fold_left].
    destruct (@topo_child_step_inv inDegree queue done h node c I Hnode)
      as [inDegree1 [extra1 [Hstep I1]]]; auto.
    { specialize (Hcnt c). rewrite count_occ_app in Hcnt. simpl in Hcnt.
      rewrite count_occ_snoc. destruct (string_dec c c); [lia|congruence]. }
    rewrite Hstep.
    destruct (IH (h ++ [c]) inDegree1 (queue ++ extra1)) as [inDegree2 [extra2 [Hfold I2]]].
    + intros v. rewrite <- app_assoc. apply Hcnt.
    + exact I1.
    + intros p Hp. destruct (Hpos p Hp) as [i [Hi Hi']].
      exists i. rewrite length_app. split; [lia|].
      rewrite nth_error_app1 by lia. assumption.
    + exists inDegree2, (extra1 ++ extra2). rewrite Hfold.
      rewrite <- !app_assoc in *. simpl in I2. auto.
Qed.

Lemma topo_loop_inv :
  forall fuel inDegree queue idx,
    NoDup K ->
    topo_inv E K inDegree queue (firstn idx queue) [] ->
    (idx <= List.length queue)%nat ->
    (List.length K <= idx + fuel)%nat ->
    exists inDegree' queue',
      topo_loop fuel children inDegree queue idx (firstn idx queue)
        = Some queue' /\
      topo_inv E K inDegree' queue' queue' [].
Proof.
  induction fuel as [|fuel IH]; intros inDegree queue idx HK I Hidx Hfuel.
  - assert (Hlen : (List.length queue <= List.length K)%nat).
    { apply NoDup_incl_length; [apply (ti_nodup I)|].
      eapply topo_inv_queue_incl; eauto. }
    assert (idx = List.length queue) by lia. subst idx.
    simpl. rewrite (proj2 (nth_error_None queue (List.length queue))) by lia.
    rewrite firstn_all in *. eauto.
  - simpl. destruct (nth_error queue idx) as [node|] eqn:Hn.
    + assert (Hnd : ~ In node (firstn idx queue))
        by (eapply NoDup_nth_error_not_in_firstn; eauto; apply (ti_nodup I)).
      assert (Hlt : (idx < List.length queue)%nat)
        by (apply nth_error_Some; congruence).
      destruct (@topo_children_fold_inv (firstn idx queue) node Hnd
                  (nullish (JsMap.get node children) []) [] inDegree queue)
        as [inDegree1 [extra [Hfold I1]]].
      * intros v. simpl. rewrite children_mult. lia.
      * exact I.
      * intros p [Hp| ->].
        -- destruct (In_firstn_nth_error _ _ _ Hp) as [i [_ [Hi He]]]. eauto.
        -- eauto.
      * rewrite Hfold. simpl app in I1.
        assert (Hfirst : firstn (S idx) (queue ++ extra) = firstn idx queue ++ [node]).
        { rewrite firstn_app_le by lia. now apply firstn_S_nth_error. }
        rewrite <- Hfirst.
        apply IH; auto.
        -- rewrite Hfirst. constructor; try apply I1.
           intros v Hv. rewrite (ti_deg I1 v Hv). f_equal.
           rewrite children_mult.
           pose proof (@pend_snoc E (firstn idx queue) node v Hnd). simpl. lia.
        -- rewrite length_app. lia.
        -- lia.
    + apply nth_error_None in Hn.
      assert (idx = List.length queue) by lia. subst idx.
      rewrite firstn_all in *. eauto.
Qed.
End KahnLoop.

(** ** The first pass of the topological sort *)

Lemma pend_snoc_edge E p c v :
  pend (E ++ [(p, c)]) [] v =
  (pend E [] v + if string_dec c v then 1 else 0)%nat.
Proof.
  rewrite pend_app. f_equal. unfold pend. simpl.
  destruct (string_dec c v) as [->|Hne].
  - now rewrite String.eqb_refl.
  - apply String.eqb_neq in Hne. now rewrite Hne.
Qed.

Lemma mult_snoc_edge E p c p' v :
  mult (E ++ [(p, c)]) p' v =
  (mult E p' v +
   if string_dec p p' then if string_dec c v then 1 else 0 else 0)%nat.
Proof.
  rewrite mult_app. f_equal. unfold mult. simpl.
  destruct (string_dec p p') as [->|Hp].
  - rewrite String.eqb_refl. simpl. destruct (string_dec c v) as [->|Hc].
    + now rewrite String.eqb_refl.
    + apply String.eqb_neq in Hc. now rewrite Hc.
  - apply String.eqb_neq in Hp. now rewrite Hp.
Qed.

Section TopoBuild.
Variable oidSet : list string.

Lemma topo_parent_step_inv E st c p :
  build_inv E st -> In (oid c) (JsMap.keys (fst st)) ->
  build_inv (E ++ (if set_has oidSet p then [(p, oid c)] else []))
            (topo_parent_step oidSet c st p) /\
  JsMap.keys (fst (topo_parent_step oidSet c st p)) = JsMap.keys (fst st).
Proof.
  intros I Hc. destruct st as [inDegree children].
  destruct I as [Hnd Hdeg Hch Hek]. simpl in *.
  unfold topo_parent_step. destruct (set_has oidSet p) eqn:Hp; simpl.
  - assert (Hk : JsMap.keys
               (JsMap.set (oid c) (nullish (JsMap.get (oid c) inDegree) 0 + 1) inDegree)
             = JsMap.keys inDegree)
      by (now apply JsMapFacts.keys_set_in).
    split; [|exact Hk]. constructor; simpl.
    + rewrite Hk. exact Hnd.
    + rewrite Hk. intros v Hv. rewrite pend_snoc_edge.
      destruct (string_dec (oid c) v) as [<-|Hne].
      * rewrite JsMapFacts.get_set_eq. rewrite (Hdeg (oid c) Hc). simpl.
        f_equal. lia.
      * rewrite JsMapFacts.get_set_neq by assumption.
        rewrite (Hdeg v Hv). f_equal. lia.
    + intros p' v. rewrite mult_snoc_edge.
      destruct (string_dec p p') as [<-|Hne].
      * rewrite JsMapFacts.get_set_eq. simpl. rewrite count_occ_snoc.
        f_equal. apply Hch.
      * rewrite JsMapFacts.get_set_neq by assumption.
        rewrite Hch. lia.
    + rewrite Hk. intros p' v Hin. apply in_app_iff in Hin.
      destruct Hin as [Hin|[Hin|[]]].
      * apply (Hek _ _ Hin).
      * inversion Hin; subst. assumption.
  - rewrite app_nil_r. split; [|reflexivity]. constructor; assumption.
Qed.

Lemma topo_parents_fold_inv c :
  forall ps E st,
    build_inv E st -> In (oid c) (JsMap.keys (fst st)) ->
    build_inv (E ++ map (fun p => (p, oid c)) (filter (set_has oidSet) ps))
              (fold_left (topo_parent_step oidSet c) ps st) /\
    JsMap.keys (fst (fold_left (topo_parent_step oidSet c) ps st))
      = JsMap.keys (fst st).
Proof.
  induction ps as [|p ps IH]; intros E st I Hc; simpl.
  - rewrite app_nil_r. auto.
  - destruct (@topo_parent_step_inv E st c p I Hc) as [I1 Hk1].
    destruct (IH _ _ I1) as [I2 Hk2]; [now rewrite Hk1|].
    rewrite Hk2, Hk1. split; [|reflexivity].
    destruct (set_has oidSet p); simpl.
    + rewrite <- app_assoc in I2. exact I2.
    + rewrite app_nil_r in I2. exact I2.
Qed.

Lemma topo_commit_step_inv E st c :
  build_inv E st ->
  build_inv (E ++ map (fun p => (p, oid c)) (filter (set_has oidSet) (parents c)))
            (topo_commit_step oidSet st c) /\
  (forall k, In k (JsMap.keys (fst (topo_commit_step oidSet st c))) <->
             k = oid c \/ In k (JsMap.keys (fst st))).
Proof.
  intros I. destruct st as [inDegree children]. unfold topo_commit_step.
  destruct (JsMap.has (oid c) inDegree) eqn:Hhas; simpl negb; cbv iota.
  - apply JsMapFacts.has_true_iff in Hhas.
    destruct (@topo_parents_fold_inv c (parents c) E (inDegree, children) I Hhas)
      as [I1 Hk].
    split; [exact I1|]. intros k. rewrite Hk. simpl.
    intuition (subst; auto).
  - apply JsMapFacts.has_false_iff in Hhas.
    assert (I0 : build_inv E (JsMap.set (oid c) 0 inDegree, children)).
    { destruct I as [Hnd Hdeg Hch Hek]. simpl in *. constructor; simpl.
      - now apply JsMapFacts.keys_NoDup_set.
      - intros v Hv. apply JsMapFacts.in_keys_set in Hv.
        destruct (string_dec (oid c) v) as [<-|Hne].
        + rewrite JsMapFacts.get_set_eq. f_equal.
          destruct (pend E [] (oid c)) eqn:Ep; [reflexivity|].
          exfalso. destruct (@pend_pos_in E [] (oid c)) as [p [Hp _]]; [lia|].
          apply Hhas. apply (Hek _ _ Hp).
        + rewrite JsMapFacts.get_set_neq by assumption.
          apply Hdeg. destruct Hv; [congruence|assumption].
      - exact Hch.
      - intros p v Hp. apply JsMapFacts.in_keys_set. right.
        apply (Hek _ _ Hp). }
    destruct (@topo_parents_fold_inv c (parents c) E _ I0) as [I1 Hk].
    { simpl. apply JsMapFacts.in_keys_set. now left. }
    split; [exact I1|]. intros k. rewrite Hk. simpl.
    apply JsMapFacts.in_keys_set.
Qed.

Lemma topo_commits_fold_inv :
  forall commits E st,
    build_inv E st ->
    build_inv (E ++ topo_edges oidSet commits)
              (fold_left (topo_commit_step oidSet) commits st) /\
    (forall k,
        In k (JsMap.keys (fst (fold_left (topo_commit_step oidSet) commits st)))
        <-> In k (map oid commits) \/ In k (JsMap.keys (fst st))).
Proof.
  induction commits as [|c cs IH]; intros E st I; simpl.
  - rewrite app_nil_r. split; [assumption|]. tauto.
  - destruct (@topo_commit_step_inv E st c I) as [I1 Hk1].
    destruct (IH _ _ I1) as [I2 Hk2].
    split.
    + unfold topo_edges in *. rewrite app_assoc. exact I2.
    + intros k. rewrite Hk2, Hk1. intuition (subst; auto).
Qed.
End TopoBuild.

Lemma topo_build_inv commits :
  build_inv (topo_edges (map oid commits) commits) (topo_build commits) /\
  (forall k, In k (JsMap.keys (fst (topo_build commits)))
             <-> In k (map oid commits)).
Proof.
  unfold topo_build.
  destruct (@topo_commits_fold_inv (map oid commits) commits []
              (JsMap.empty, JsMap.empty)) as [I Hk].
  - constructor; simpl; try tauto; try constructor.
  - split; [exact I|]. intros k. rewrite Hk. simpl. tauto.
Qed.

Lemma topo_edges_in oidSet commits p v :
  In (p, v) (topo_edges oidSet commits) <->
  exists c, In c commits /\ oid c = v /\ In p (parents c) /\ In p oidSet.
Proof.
  unfold topo_edges. rewrite in_flat_map. split.
  - intros [c [Hc Hin]]. apply in_map_iff in Hin.
    destruct Hin as [q [Hq Hf]]. inversion Hq; subst.
    apply filter_In in Hf. destruct Hf as [Hf Hs].
    apply set_has_true_iff in Hs. eauto.
  - intros [c [Hc [Hv [Hp Hs]]]]. exists c. split; [assumption|].
    apply in_map_iff. exists p. subst. split; [reflexivity|].
    apply filter_In. split; [assumption|]. now apply set_has_true_iff.
Qed.

(** ** Walks in a finite graph without sinks *)

Section Walks.
Variable A : Type.
Variable R : A -> A -> Prop.
Variable P : A -> Prop.

Lemma walk_all l : walk R P l -> Forall P l.
Proof. induction 1; constructor; auto. Qed.

Lemma walk_reach w l :
  walk R P (w :: l) -> forall v, In v l -> clos_trans A R v w.
Proof.
  revert w. induction l as [|u l IH]; intros w Hw v Hv; [contradiction|].
  inversion Hw; subst. destruct Hv as [->|Hv].
  - now apply t_step.
  - eapply t_trans; [apply (IH u); eassumption | now apply t_step].
Qed.

Lemma walk_NoDup l :
  (forall x, ~ clos_trans A R x x) -> walk R P l -> NoDup l.
Proof.
  intros Hac. induction l as [|w l IH]; intros Hw; [constructor|].
  constructor.
  - intros Hin. apply (Hac w). eapply walk_reach; eauto.
  - inversion Hw; subst; [constructor|]. now apply IH.
Qed.

Lemma walk_extend :
  (forall v, P v -> exists p, R v p /\ P p) ->
  forall n v, P v -> exists l, List.length l = S n /\ walk R P l.
Proof.
  intros Hsucc. induction n as [|n IH]; intros v Hv.
  - exists [v]. split; [reflexivity | now constructor].
  - destruct (IH v Hv) as [l [Hlen Hw]].
    destruct l as [|u l]; [discriminate|].
    assert (Hu : P u) by (apply walk_all in Hw; now inversion Hw).
    destruct (Hsucc u Hu) as [p [Hr Hp]].
    exists (p :: u :: l). split; [simpl in *; lia | now constructor].
Qed.

(** In a finite set where every node has a successor in the set, some
    node reaches itself. *)
Lemma no_sink_cyclic (U : list A) :
  (forall v, P v -> In v U) ->
  (forall v, P v -> exists p, R v p /\ P p) ->
  (forall x, ~ clos_trans A R x x) ->
  forall v, ~ P v.
Proof.
  intros HU Hsucc Hac v Hv.
  destruct (@walk_extend Hsucc (List.length U) v Hv) as [l [Hlen Hw]].
  assert (Hnd := walk_NoDup Hac Hw).
  assert (Hincl : incl l U).
  { intros x Hx. apply HU. apply walk_all in Hw.
    rewrite Forall_forall in Hw. auto. }
  pose proof (NoDup_incl_length Hnd Hincl). lia.
Qed.
End Walks.

(** ** Resolved edges and the pairs met by the first pass *)

Lemma topo_edges_resolved commits p v :
  In (p, v) (topo_edges (map oid commits) commits) <->
  resolved_edge commits v p.
Proof. apply topo_edges_in. Qed.

Lemma NoDup_map_fst_filter {A B : Type} (f : A * B -> bool) (m : list (A * B)) :
  NoDup (map fst m) -> NoDup (map fst (filter f m)).
Proof.
  induction m as [|[k v] r IH]; simpl; intros H; [constructor|].
  inversion H; subst. destruct (f (k, v)); simpl; auto.
  constructor; auto. intros Hin. apply H2.
  apply in_map_iff in Hin. destruct Hin as [x [Hx Hf]].
  apply filter_In in Hf. apply in_map_iff. exists x. tauto.
Qed.

(** ** Outcome of the topological sort *)

(** The loop ends within the fuel; its queue has no duplicates, holds
    only input identifiers, lists every resolved parent before its child,
    and every identifier left out of it has a resolved parent left out. *)
Lemma topologicalSort_queue (commits : list CommitNode) :
  exists queue,
    topologicalSort commits =
      Some (queue ++
            filter (fun o => negb (set_has queue o)) (map oid commits)) /\
    NoDup queue /\
    incl queue (map oid commits) /\
    (forall v, In v (map oid commits) -> ~ In v queue ->
       exists p, resolved_edge commits v p /\ ~ In p queue) /\
    (forall j v p, nth_error queue j = Some v -> resolved_edge commits v p ->
       exists i, (i < j)%nat /\ nth_error queue i = Some p).
Proof.
  destruct (topo_build_inv commits) as [B HK].
  unfold topologicalSort, topologicalSort_fuel.
  destruct (topo_build commits) as [inDegree children] eqn:Hb.
  destruct B as [Bnd Bdeg Bch Bek]. simpl in *.
  set (E := topo_edges (map oid commits) commits) in *.
  set (K := JsMap.keys inDegree) in *.
  assert (Hseed_get : forall v, In v (topo_seed inDegree) <->
                                JsMap.get v inDegree = Some 0).
  { intros v. unfold topo_seed. rewrite in_map_iff. split.
    - intros [[k d] [Hk Hin]]. simpl in Hk. subst k.
      apply filter_In in Hin. destruct Hin as [Hin Hd]. simpl in Hd.
      apply Z.eqb_eq in Hd. subst d. now apply JsMapFacts.get_NoDup_in.
    - intros Hg. exists (v, 0). split; [reflexivity|].
      apply filter_In. split; [now apply JsMapFacts.get_in | reflexivity]. }
  assert (I0 : topo_inv E K inDegree (topo_seed inDegree) (firstn 0 (topo_seed inDegree)) []).
  { constructor.
    - unfold topo_seed. apply NoDup_map_fst_filter. exact Bnd.
    - reflexivity.
    - intros v Hv. apply Hseed_get in Hv. exists 0. split; [assumption|lia].
    - intros v Hv. simpl. rewrite (Bdeg v Hv). f_equal. lia.
    - intros v _ Hg. now apply Hseed_get.
    - intros j v p Hj Hp. exfalso. apply nth_error_In in Hj.
      apply Hseed_get in Hj.
      assert (HvK : In v K) by (eapply JsMapFacts.get_Some_keys; eauto).
      rewrite (Bdeg v HvK) in Hj. inversion Hj.
      assert (Hz : pend E [] v = O) by lia.
      apply (pend_zero_all _ _ _ p Hz Hp). }
  assert (Hfuel : (List.length K <= 0 + List.length commits)%nat).
  { rewrite <- (length_map oid commits). apply NoDup_incl_length; [exact Bnd|].
    intros k Hk. now apply HK. }
  destruct (@topo_loop_inv E K children Bch Bek (List.length commits) inDegree
              (topo_seed inDegree) 0%nat Bnd I0 (Nat.le_0_l _) Hfuel)
    as [inDegree' [queue [Hloop I]]].
  simpl firstn in Hloop. rewrite Hloop.
  exists queue. split; [reflexivity|]. split; [apply (ti_nodup I)|].
  split; [|split].
  - intros v Hv. apply HK. eapply topo_inv_queue_incl; eauto.
  - intros v Hv Hnq. apply HK in Hv.
    pose proof (ti_deg I v Hv) as Hd. simpl in Hd.
    destruct (pend E queue v) eqn:Ep.
    + exfalso. apply Hnq. apply (ti_zero I v Hv). rewrite Hd. reflexivity.
    + destruct (@pend_pos_in E queue v) as [p [Hp Hpq]]; [lia|].
      exists p. split; [now apply topo_edges_resolved | assumption].
  - intros j v p Hj Hp.
    eapply (ti_order I); [exact Hj | now apply topo_edges_resolved].
Qed.

(** C2. For a commit list with pairwise distinct identifiers (dangling
    parents and cycles allowed), [topologicalSort] returns a list that is a
    permutation of the input identifiers: every input identifier appears
    exactly once. *)
Theorem topologicalSort_permutation (commits : list CommitNode) :
  NoDup (map oid commits) ->
  exists sorted,
    topologicalSort commits = Some sorted /\
    Permutation (map oid commits) sorted /\
    NoDup sorted.
Proof.
  intros Hnd.
  destruct (topologicalSort_queue commits) as [queue [Hs [Hq [Hincl _]]]].
  eexists. split; [exact Hs|].
  assert (Hnd' : NoDup (queue ++
            filter (fun o => negb (set_has queue o)) (map oid commits))).
  { apply NoDup_app; [assumption | now apply NoDup_filter |].
    intros a Ha Hf. apply filter_In in Hf. destruct Hf as [_ Hf].
    apply negb_true_iff, set_has_false_iff in Hf. contradiction. }
  split; [|assumption].
  apply NoDup_Permutation; [assumption | assumption |].
  intros x. rewrite in_app_iff, filter_In, negb_true_iff, set_has_false_iff.
  split.
  - intros Hx. destruct (in_dec string_dec x queue); auto.
  - intros [Hx|[Hx _]]; auto.
Qed.

Lemma topologicalSort_permutation_witness :
  exists sorted,
    topologicalSort example_cycle = Some sorted /\
    Permutation (map oid example_cycle) sorted /\
    NoDup sorted.
Proof.
  apply topologicalSort_permutation.
  simpl. repeat constructor; simpl; intuition discriminate.
Defined.

Lemma acyclic_of_rank (commits : list CommitNode) (rank : string -> nat) :
  (forall child parent,
      resolved_edge commits child parent -> (rank parent < rank child)%nat) ->
  acyclic commits.
Proof.
  intros Hr.
  assert (H : forall x y, clos_trans string (resolved_edge commits) x y ->
                          (rank y < rank x)%nat).
  { induction 1; [auto | lia]. }
  intros x Hx. apply H in Hx. lia.
Qed.

(** C3. For a commit list with pairwise distinct identifiers whose
    resolved parent references form an acyclic graph, the output of
    [topologicalSort] places every resolved parent at a strictly smaller
    index than each commit that lists it. *)
Theorem topologicalSort_parent_first (commits : list CommitNode) :
  NoDup (map oid commits) ->
  acyclic commits ->
  exists sorted,
    topologicalSort commits = Some sorted /\
    NoDup sorted /\
    forall child parent,
      resolved_edge commits child parent ->
      exists i j,
        nth_error sorted i = Some parent /\
        nth_error sorted j = Some child /\
        (i < j)%nat.
Proof.
  intros Hnd Hac.
  destruct (topologicalSort_queue commits)
    as [queue [Hs [Hq [Hincl [Hleft Hord]]]]].
  assert (Hall : forall v, ~ (In v (map oid commits) /\ ~ In v queue)).
  { apply (@no_sink_cyclic string (resolved_edge commits)
             (fun v => In v (map oid commits) /\ ~ In v queue)
             (map oid commits)).
    - tauto.
    - intros v [Hv Hnq]. destruct (Hleft v Hv Hnq) as [p [Hp Hpq]].
      exists p. split; [assumption|]. split; [|assumption].
      destruct Hp as [c [_ [_ [_ Hin]]]]. exact Hin.
    - exact Hac. }
  assert (Hrest : filter (fun o => negb (set_has queue o)) (map oid commits) = []).
  { destruct (filter _ (map oid commits)) as [|x r] eqn:Ef; [reflexivity|].
    exfalso. assert (Hx : In x (x :: r)) by now left.
    rewrite <- Ef in Hx. apply filter_In in Hx. destruct Hx as [Hx Hb].
    apply negb_true_iff, set_has_false_iff in Hb. apply (Hall x). tauto. }
  rewrite Hrest, app_nil_r in Hs.
  exists queue. split; [exact Hs|]. split; [exact Hq|].
  intros child parent He.
  assert (Hc : In child queue).
  { destruct (in_dec string_dec child queue) as [Hin|Hin]; [assumption|].
    exfalso. apply (Hall child). split; [|assumption].
    destruct He as [c [Hc [<- _]]]. now apply in_map. }
  apply In_nth_error in Hc. destruct Hc as [j Hj].
  destruct (Hord j child parent Hj He) as [i [Hi Hi']].
  exists i, j. auto.
Qed.

Lemma topologicalSort_parent_first_witness :
  exists sorted,
    topologicalSort example_diamond = Some sorted /\
    NoDup sorted /\
    forall child parent,
      resolved_edge example_diamond child parent ->
      exists i j,
        nth_error sorted i = Some parent /\
        nth_error sorted j = Some child /\
        (i < j)%nat.
Proof.
  apply topologicalSort_parent_first.
  - simpl. repeat constructor; simpl; intuition discriminate.
  - apply (@acyclic_of_rank example_diamond example_diamond_rank).
    intros child parent [c [Hc [Ho [Hp Hin]]]]. simpl in Hc, Hin.
    destruct Hc as [<-|[<-|[<-|[<-|[]]]]]; simpl in Ho, Hp; subst child;
      repeat (destruct Hp as [<-|Hp]); try contradiction;
      try (vm_compute; lia);
      simpl in Hin; intuition discriminate.
Defined.

(** ** Sorting and indexed maps *)

Lemma sort_insert_perm {A : Type} (cmp : A -> A -> Z) (a : A) (l : list A) :
  Permutation (a :: l) (sort_insert cmp a l).
Proof.
  induction l as [|b r IH]; simpl; [reflexivity|].
  destruct (cmp a b >? 0); [|reflexivity].
  rewrite perm_swap. now constructor.
Qed.

Lemma js_sort_perm {A : Type} (cmp : A -> A -> Z) (l : list A) :
  Permutation l (js_sort cmp l).
Proof.
  induction l as [|a r IH]; simpl; [constructor|].
  rewrite <- sort_insert_perm. now constructor.
Qed.

Lemma sort_by_time_desc_perm (commits : list CommitNode) :
  Permutation commits (sort_by_time_desc commits).
Proof. apply js_sort_perm. Qed.

Lemma mapi_from_length {A B : Type} (f : A -> Z -> B) (l : list A) (i : Z) :
  List.length (mapi_from f i l) = List.length l.
Proof. revert i. induction l; intros i; simpl; auto. Qed.

Lemma mapi_from_map {A B C : Type} (f : A -> Z -> B) (g : B -> C) (g' : A -> C)
    (l : list A) (i : Z) :
  (forall a k, g (f a k) = g' a) ->
  map g (mapi_from f i l) = map g' l.
Proof.
  intros H. revert i. induction l as [|a r IH]; intros i; simpl; [reflexivity|].
  now rewrite H, IH.
Qed.

Lemma mapi_from_flat_map {A B C : Type} (f : A -> Z -> B) (g : B -> list C)
    (g' : A -> list C) (l : list A) (i : Z) :
  (forall a k, g (f a k) = g' a) ->
  flat_map g (mapi_from f i l) = flat_map g' l.
Proof.
  intros H. revert i. induction l as [|a r IH]; intros i; simpl; [reflexivity|].
  now rewrite H, IH.
Qed.

(** Keys of a map filled by [for (const a of l) m.set(key(a), a)]. *)
Lemma fold_set_keys {A : Type} (key : A -> string) (l : list A) :
  forall (m : JsMap.t A) k,
    In k (JsMap.keys (fold_left (fun m a => JsMap.set (key a) a m) l m)) <->
    In k (map key l) \/ In k (JsMap.keys m).
Proof.
  induction l as [|a r IH]; intros m k; simpl; [tauto|].
  rewrite IH, JsMapFacts.in_keys_set. intuition (subst; auto).
Qed.

(** ** Layout: node and edge counts *)

Lemma edge_fold_length (nodeMap : JsMap.t LayoutNode) (node : LayoutNode) :
  forall ps acc,
    List.length (fold_left (edge_step nodeMap node) ps acc) =
    (List.length acc +
     List.length (filter (fun p => JsMap.has p nodeMap) ps))%nat.
Proof.
  induction ps as [|p ps IH]; intros acc; simpl; [lia|].
  rewrite IH. unfold edge_step, JsMap.has.
  destruct (JsMap.get p nodeMap); simpl.
  - destruct (n_col node =? n_col l); rewrite length_app; simpl; lia.
  - lia.
Qed.

Lemma layout_edges_length (nodeMap : JsMap.t LayoutNode) (ns : list LayoutNode) :
  List.length (layout_edges nodeMap ns) =
  List.length
    (flat_map (fun n => filter (fun p => JsMap.has p nodeMap) (n_parents n)) ns).
Proof.
  unfold layout_edges.
  enough (H : forall acc,
             List.length
               (fold_left
                  (fun acc node =>
                     fold_left (edge_step nodeMap node) (n_parents node) acc)
                  ns acc) =
             (List.length acc +
              List.length
                (flat_map
                   (fun n => filter (fun p => JsMap.has p nodeMap) (n_parents n))
                   ns))%nat)
    by (rewrite H; reflexivity).
  induction ns as [|n ns IH]; intros acc; simpl; [lia|].
  rewrite IH, edge_fold_length, length_app. lia.
Qed.

Lemma filter_ext_in_flat_map {A B : Type} (f g : B -> bool) (h : A -> list B)
    (l : list A) :
  (forall b, f b = g b) ->
  flat_map (fun a => filter f (h a)) l = flat_map (fun a => filter g (h a)) l.
Proof.
  intros H. induction l as [|a r IH]; simpl; [reflexivity|].
  rewrite IH. f_equal. apply filter_ext. exact H.
Qed.

(** C4. [computeLayout] returns one node per input commit, and one edge
    per parent reference that names an identifier of the input; references
    that do not resolve produce no edge.  This holds for every commit list,
    in particular for those with pairwise distinct identifiers. *)
Theorem computeLayout_counts (commits : list CommitNode) :
  List.length (nodes (computeLayout commits)) = List.length commits /\
  List.length (edges (computeLayout commits)) =
    List.length (resolved_refs commits).
Proof.
  unfold computeLayout.
  destruct commits as [|c0 cs]; [simpl; auto|].
  set (commits := c0 :: cs).
  change (List.length commits =? 0)%nat with false. cbv iota.
  cbn [nodes edges].
  set (cols := assignColumns commits).
  set (sorted := sort_by_time_desc commits).
  set (ns := mapi (layout_node cols) sorted).
  assert (Hperm : Permutation commits sorted) by apply sort_by_time_desc_perm.
  split.
  - unfold ns, mapi. rewrite mapi_from_length.
    symmetry. now apply Permutation_length.
  - rewrite layout_edges_length.
    set (nodeMap := fold_left (fun m n => JsMap.set (n_oid n) n m) ns JsMap.empty).
    assert (Hoids : map n_oid ns = map oid sorted).
    { unfold ns, mapi. now apply mapi_from_map. }
    assert (Hhas : forall p, JsMap.has p nodeMap = set_has (map oid commits) p).
    { intros p. apply eq_true_iff_eq.
      rewrite JsMapFacts.has_true_iff, set_has_true_iff.
      unfold nodeMap. rewrite fold_set_keys, Hoids.
      split.
      - intros [H|H]; [|destruct H]. eapply Permutation_in; [|exact H].
        apply Permutation_map. now symmetry.
      - intros H. left. eapply Permutation_in; [|exact H].
        now apply Permutation_map. }
    rewrite (filter_ext_in_flat_map _ _ n_parents ns Hhas).
    unfold ns, mapi.
    rewrite (@mapi_from_flat_map _ _ _ (layout_node cols)
               (fun n => filter (set_has (map oid commits)) (n_parents n))
               (fun c => filter (set_has (map oid commits)) (parents c)))
      by reflexivity.
    unfold resolved_refs. apply Permutation_length.
    apply Permutation_flat_map. now symmetry.
Qed.

(** ** Layout of the empty list *)

(** C1 (as amended). For the empty commit list [computeLayout] returns
    the empty node list, the empty edge list, and width and height both
    equal to zero: the early return does not apply the floor of 200. *)
Theorem computeLayout_empty :
  computeLayout [] = mkGraphLayout [] [] 0 0.
Proof. reflexivity. Qed.

(** C1 as stated fails: the empty layout has no positive width or
    height, so its dimensions are not at any positive floor. *)
Lemma empty_layout_not_floored :
  ~ (0 < width (computeLayout []) /\ 0 < height (computeLayout []))%Q.
Proof. simpl. intros [H _]. discriminate H. Qed.

(** The floor is applied on the path for non-empty input. *)
Lemma computeLayout_nonempty_floor (c : CommitNode) (cs : list CommitNode) :
  (200 <= width (computeLayout (c :: cs)) /\
   200 <= height (computeLayout (c :: cs)))%Q.
Proof.
  unfold computeLayout. change (List.length (c :: cs) =? 0)%nat with false.
  cbv iota. cbn [width height]. unfold Qmax2.
  split.
  - match goal with |- context [Qle_bool ?a 200] => destruct (Qle_bool a 200) eqn:E end.
    + apply Qle_refl.
    + apply Qnot_lt_le. intros H. apply Qlt_le_weak in H.
      apply Qle_bool_iff in H. congruence.
  - match goal with |- context [Qle_bool ?a 200] => destruct (Qle_bool a 200) eqn:E end.
    + apply Qle_refl.
    + apply Qnot_lt_le. intros H. apply Qlt_le_weak in H.
      apply Qle_bool_iff in H. congruence.
Qed.

(** ** Lane assignment for a root with two children *)

Lemma lanes_fork (oidSet : list string) (x y r : CommitNode) :
  set_has oidSet (oid r) = true ->
  parents x = [oid r] -> parents y = [oid r] -> parents r = [] ->
  oid x <> oid y -> oid x <> oid r -> oid y <> oid r ->
  columns
    (fold_left (lane_commit_step oidSet) [x; y; r]
       (mkLaneState JsMap.empty [] JsMap.empty))
  = [(oid x, 0); (oid y, 1); (oid r, 0)].
Proof.
  intros Hs Hx Hy Hr Hxy Hxr Hyr.
  assert (E1 : String.eqb (oid r) (oid x) = false) by (apply String.eqb_neq; congruence).
  assert (E2 : String.eqb (oid r) (oid y) = false) by (apply String.eqb_neq; congruence).
  assert (E3 : String.eqb (oid y) (oid x) = false) by (apply String.eqb_neq; congruence).
  assert (E4 : String.eqb (oid y) (oid r) = false) by (apply String.eqb_neq; congruence).
  assert (E5 : String.eqb (oid x) (oid r) = false) by (apply String.eqb_neq; congruence).
  assert (E6 : String.eqb (oid x) (oid y) = false) by (apply String.eqb_neq; congruence).
  assert (S1 : lane_commit_step oidSet (mkLaneState JsMap.empty [] JsMap.empty) x
               = mkLaneState [(oid x, 0)] [Some (Some (oid r))] [(oid r, 0)]).
  { unfold lane_commit_step. rewrite Hx. simpl.
    unfold lane_parent_step, JsMap.has. simpl. rewrite Hs, E1. reflexivity. }
  assert (S2 : lane_commit_step oidSet
                 (mkLaneState [(oid x, 0)] [Some (Some (oid r))] [(oid r, 0)]) y
               = mkLaneState [(oid x, 0); (oid y, 1)]
                   [Some (Some (oid r)); Some None] [(oid r, 0)]).
  { unfold lane_commit_step. rewrite Hy. simpl. rewrite E4. simpl. rewrite E3.
    unfold lane_parent_step, JsMap.has. simpl.
    rewrite Hs, E1, E2, String.eqb_refl. reflexivity. }
  assert (S3 : lane_commit_step oidSet
                 (mkLaneState [(oid x, 0); (oid y, 1)]
                    [Some (Some (oid r)); Some None] [(oid r, 0)]) r
               = mkLaneState [(oid x, 0); (oid y, 1); (oid r, 0)]
                   [Some None; Some None] []).
  { unfold lane_commit_step. rewrite Hr. simpl. rewrite String.eqb_refl. simpl.
    rewrite E1, E2. reflexivity. }
  cbn [fold_left]. rewrite S1, S2, S3. reflexivity.
Qed.

Lemma Permutation_3_inv {A : Type} (x y z : A) (l : list A) :
  Permutation l [x; y; z] ->
  l = [x; y; z] \/ l = [x; z; y] \/ l = [y; x; z] \/
  l = [y; z; x] \/ l = [z; x; y] \/ l = [z; y; x].
Proof.
  intros H. destruct (Permutation_vs_cons_inv H) as [l1 [l2 ->]].
  symmetry in H. apply Permutation_cons_app_inv in H.
  apply Permutation_length_2_inv in H.
  destruct l1 as [|u [|v [|w l1]]]; simpl in H;
    destruct H as [H|H]; try discriminate;
    try (destruct l2 as [|? [|? [|? ?]]]; try discriminate);
    inversion H; subst; simpl; tauto.
Qed.

(** The time-descending order of a root and two newer children ends with
    the root. *)
Lemma sort_fork (root a b : CommitNode) (commits : list CommitNode) :
  Permutation commits [root; a; b] ->
  timestamp root < timestamp a -> timestamp root < timestamp b ->
  sort_by_time_desc commits = [a; b; root] \/
  sort_by_time_desc commits = [b; a; root].
Proof.
  intros Hp Ha Hb. apply Permutation_3_inv in Hp.
  unfold sort_by_time_desc, js_sort.
  destruct Hp as [->|[->|[->|[->|[->| ->]]]]]; simpl;
    repeat match goal with
           | |- context [?u >? ?v] =>
               destruct (Z.gtb_spec u v); try lia; simpl
           end; auto.
Qed.

(** C7. For three commits with pairwise distinct identifiers, in any list
    order -- a root without parents and two children [a] and [b] whose
    only parent is the root and whose timestamps are newer than the
    root's -- [assignColumns] gives the root's lane to exactly one of [a]
    and [b], a different lane to the other, and uses two lanes in all. *)
Theorem assignColumns_fork (root a b : CommitNode) (commits : list CommitNode) :
  Permutation commits [root; a; b] ->
  oid root <> oid a -> oid root <> oid b -> oid a <> oid b ->
  parents root = [] ->
  parents a = [oid root] ->
  parents b = [oid root] ->
  timestamp root < timestamp a ->
  timestamp root < timestamp b ->
  exists lr la lb,
    JsMap.get (oid root) (assignColumns commits) = Some lr /\
    JsMap.get (oid a) (assignColumns commits) = Some la /\
    JsMap.get (oid b) (assignColumns commits) = Some lb /\
    ((la = lr /\ lb <> lr) \/ (lb = lr /\ la <> lr)) /\
    List.length (nodup Z.eq_dec (map snd (assignColumns commits))) = 2%nat.
Proof.
  intros Hp Hra Hrb Hab Hr Ha Hb Hta Htb.
  assert (Hs : set_has (map oid commits) (oid root) = true).
  { apply set_has_true_iff. apply in_map.
    eapply Permutation_in; [symmetry; exact Hp | now left]. }
  assert (E1 : String.eqb (oid root) (oid a) = false) by (now apply String.eqb_neq).
  assert (E2 : String.eqb (oid root) (oid b) = false) by (now apply String.eqb_neq).
  assert (E3 : String.eqb (oid a) (oid b) = false) by (now apply String.eqb_neq).
  assert (E4 : String.eqb (oid b) (oid a) = false)
    by (apply String.eqb_neq; congruence).
  unfold assignColumns.
  destruct (sort_fork Hp Hta Htb) as [-> | ->].
  - rewrite (@lanes_fork (map oid commits) a b root) by (auto; congruence).
    exists 0, 0, 1. simpl.
    rewrite E1, E2, E4, !String.eqb_refl.
    repeat split; auto. left. split; [reflexivity | lia].
  - rewrite (@lanes_fork (map oid commits) b a root) by (auto; congruence).
    exists 0, 1, 0. simpl.
    rewrite E1, E2, E3, !String.eqb_refl.
    repeat split; auto. right. split; [reflexivity | lia].
Qed.

Lemma assignColumns_fork_witness :
  exists lr la lb,
    JsMap.get "root" (assignColumns
      [ mkCommit "a" "left" ["root"] 200 [] false;
        mkCommit "root" "initial" [] 100 [] false;
        mkCommit "b" "right" ["root"] 201 [] true ]) = Some lr /\
    JsMap.get "a" (assignColumns
      [ mkCommit "a" "left" ["root"] 200 [] false;
        mkCommit "root" "initial" [] 100 [] false;
        mkCommit "b" "right" ["root"] 201 [] true ]) = Some la /\
    JsMap.get "b" (assignColumns
      [ mkCommit "a" "left" ["root"] 200 [] false;
        mkCommit "root" "initial" [] 100 [] false;
        mkCommit "b" "right" ["root"] 201 [] true ]) = Some lb /\
    ((la = lr /\ lb <> lr) \/ (lb = lr /\ la <> lr)) /\
    List.length (nodup Z.eq_dec (map snd (assignColumns
      [ mkCommit "a" "left" ["root"] 200 [] false;
        mkCommit "root" "initial" [] 100 [] false;
        mkCommit "b" "right" ["root"] 201 [] true ]))) = 2%nat.
Proof.
  apply (@assignColumns_fork
           (mkCommit "root" "initial" [] 100 [] false)
           (mkCommit "a" "left" ["root"] 200 [] false)
           (mkCommit "b" "right" ["root"] 201 [] true));
    simpl; try reflexivity; try discriminate; try lia.
  apply perm_swap.
Defined.

(** ** Ancestry query *)

Lemma set_has_snoc (s : list string) (k x : string) :
  set_has (s ++ [k]) x = set_has s x || String.eqb x k.
Proof.
  rewrite set_has_app. f_equal. unfold set_has. simpl. apply orb_false_r.
Qed.

Lemma unexpanded_notin cm visited k :
  ~ In k (JsMap.keys cm) ->
  unexpanded cm (visited ++ [k]) = unexpanded cm visited.
Proof.
  unfold unexpanded. induction cm as [|[k' c'] r IH]; simpl; intros H; auto.
  rewrite IH by tauto. rewrite set_has_snoc.
  assert (E : String.eqb k' k = false) by (apply String.eqb_neq; intuition).
  now rewrite E, orb_false_r.
Qed.

Lemma unexpanded_visit cm visited k c :
  NoDup (JsMap.keys cm) -> JsMap.get k cm = Some c -> ~ In k visited ->
  (unexpanded cm (visited ++ [k]) + List.length (parents c))%nat
  = unexpanded cm visited.
Proof.
  unfold unexpanded.
  induction cm as [|[k' c'] r IH]; simpl; intros Hnd Hg Hv; [discriminate|].
  inversion Hnd; subst. rewrite set_has_snoc.
  destruct (String.eqb k k') eqn:E.
  - apply String.eqb_eq in E. subst k'. inversion Hg; subst c'.
    rewrite String.eqb_refl, orb_true_r.
    apply set_has_false_iff in Hv. rewrite Hv.
    fold (unexpanded r (visited ++ [k])). fold (unexpanded r visited).
    rewrite unexpanded_notin by assumption. lia.
  - assert (E' : String.eqb k' k = false).
    { apply String.eqb_neq. apply String.eqb_neq in E. congruence. }
    rewrite E', orb_false_r. rewrite <- (IH H2 Hg Hv). lia.
Qed.

Lemma push_parents_length visited ps :
  forall queue,
    (List.length (push_parents visited queue ps)
     <= List.length queue + List.length ps)%nat.
Proof.
  unfold push_parents. induction ps as [|p ps IH]; intros queue; simpl; [lia|].
  destruct (set_has visited p); simpl.
  - specialize (IH queue). lia.
  - specialize (IH (queue ++ [p])). rewrite length_app in IH. simpl in IH. lia.
Qed.

Lemma push_parents_in visited ps :
  forall queue x,
    In x (push_parents visited queue ps) <->
    In x queue \/ (In x ps /\ ~ In x visited).
Proof.
  unfold push_parents. induction ps as [|p ps IH]; intros queue x; simpl.
  - tauto.
  - rewrite IH. destruct (set_has visited p) eqn:E; simpl.
    + apply set_has_true_iff in E. intuition (subst; auto; contradiction).
    + apply set_has_false_iff in E. rewrite in_app_iff. simpl.
      intuition (subst; auto).
Qed.

Section AncestorLoop.
Variable cm : JsMap.t CommitNode.
Variable ancestor : string.
Hypothesis cm_nodup : NoDup (JsMap.keys cm).

(** The loop returns within a fuel that covers the queue and the parent
    references still to be pushed. *)
Lemma isAncestor_loop_terminates :
  forall fuel visited queue,
    (List.length queue + unexpanded cm visited <= fuel)%nat ->
    exists r, isAncestor_loop fuel cm ancestor visited queue = Some r.
Proof.
  induction fuel as [|fuel IH]; intros visited queue Hf.
  - destruct queue; simpl in *; [eauto | lia].
  - destruct queue as [|current queue]; simpl; [eauto|].
    destruct (String.eqb current ancestor); [eauto|].
    destruct (set_has visited current) eqn:Ev.
    + apply IH. simpl in Hf. lia.
    + apply set_has_false_iff in Ev. simpl in Hf.
      destruct (JsMap.get current cm) as [node|] eqn:Eg.
      * apply IH.
        pose proof (@unexpanded_visit cm visited current node cm_nodup Eg Ev).
        pose proof (@push_parents_length (visited ++ [current]) (parents node) queue).
        lia.
      * apply IH. apply JsMapFacts.get_None_keys in Eg.
        rewrite unexpanded_notin by assumption. lia.
Qed.

(** A [true] answer comes from a queue element that reaches the ancestor. *)
Lemma isAncestor_loop_sound :
  forall fuel visited queue,
    isAncestor_loop fuel cm ancestor visited queue = Some true ->
    exists q, In q queue /\ clos_refl_trans string (map_edge cm) q ancestor.
Proof.
  induction fuel as [|fuel IH]; intros visited queue H.
  - destruct queue; simpl in H; discriminate.
  - destruct queue as [|current queue]; simpl in H; [discriminate|].
    destruct (String.eqb current ancestor) eqn:Ea.
    + apply String.eqb_eq in Ea. subst. exists ancestor.
      split; [now left | apply rt_refl].
    + destruct (set_has visited current).
      * destruct (IH _ _ H) as [q [Hq Hr]]. exists q. split; [now right|assumption].
      * destruct (JsMap.get current cm) as [node|] eqn:Eg.
        -- destruct (IH _ _ H) as [q [Hq Hr]].
           apply push_parents_in in Hq. destruct Hq as [Hq|[Hq _]].
           ++ exists q. split; [now right|assumption].
           ++ exists current. split; [now left|].
              eapply rt_trans; [apply rt_step; exists node; eauto | exact Hr].
        -- destruct (IH _ _ H) as [q [Hq Hr]]. exists q. split; [now right|assumption].
Qed.

(** A [false] answer leaves a visited set that holds everything that was
    visited or queued, is closed under parent edges and misses the
    ancestor. *)
Lemma isAncestor_loop_complete :
  forall fuel visited queue,
    ~ In ancestor visited ->
    (forall v w, In v visited -> map_edge cm v w ->
                 In w visited \/ In w queue) ->
    isAncestor_loop fuel cm ancestor visited queue = Some false ->
    exists S,
      (forall x, In x visited \/ In x queue -> In x S) /\
      ~ In ancestor S /\
      (forall v w, In v S -> map_edge cm v w -> In w S).
Proof.
  induction fuel as [|fuel IH]; intros visited queue Ha Hcl H.
  - destruct queue; simpl in H; [|discriminate].
    exists visited. repeat split; auto.
    + intros x [Hx|[]]. assumption.
    + intros v w Hv He. destruct (Hcl v w Hv He) as [Hw|[]]. assumption.
  - destruct queue as [|current queue]; simpl in H.
    + exists visited. repeat split; auto.
      * intros x [Hx|[]]. assumption.
      * intros v w Hv He. destruct (Hcl v w Hv He) as [Hw|[]]. assumption.
    + destruct (String.eqb current ancestor) eqn:Ea; [discriminate|].
      apply String.eqb_neq in Ea.
      destruct (set_has visited current) eqn:Ev.
      * apply set_has_true_iff in Ev.
        destruct (IH visited queue Ha) as [S [HS [HaS HclS]]]; auto.
        { intros v w Hv He. destruct (Hcl v w Hv He) as [Hw|[<-|Hw]]; auto. }
        exists S. repeat split; auto.
        intros x [Hx|[<-|Hx]]; auto.
      * apply set_has_false_iff in Ev.
        set (visited' := visited ++ [current]) in *.
        set (queue' := match JsMap.get current cm with
                       | Some node => push_parents visited' queue (parents node)
                       | None => queue
                       end) in *.
        assert (Hq : forall x, In x queue -> In x queue').
        { intros x Hx. unfold queue'. destruct (JsMap.get current cm); auto.
          apply push_parents_in. now left. }
        destruct (IH visited' queue') as [S [HS [HaS HclS]]]; auto.
        { unfold visited'. rewrite in_app_iff. simpl. intuition. }
        { intros v w Hv He. unfold visited' in Hv. apply in_app_iff in Hv.
          destruct Hv as [Hv|[<-|[]]].
          - destruct (Hcl v w Hv He) as [Hw|[<-|Hw]].
            + left. unfold visited'. apply in_app_iff. now left.
            + left. unfold visited'. apply in_app_iff. right. now left.
            + right. now apply Hq.
          - destruct He as [c [Hc Hw]]. unfold queue'. rewrite Hc.
            destruct (in_dec string_dec w visited') as [Hin|Hin]; [now left|].
            right. apply push_parents_in. right. split; assumption. }
        exists S. repeat split; auto.
        intros x [Hx|[<-|Hx]].
        -- apply HS. left. unfold visited'. apply in_app_iff. now left.
        -- apply HS. left. unfold visited'. apply in_app_iff. right. now left.
        -- apply HS. right. now apply Hq.
Qed.
End AncestorLoop.

Lemma fold_set_fresh {A : Type} (key : A -> string) (l : list A) :
  forall m : JsMap.t A,
    NoDup (map key l) ->
    (forall a, In a l -> ~ In (key a) (JsMap.keys m)) ->
    fold_left (fun m a => JsMap.set (key a) a m) l m
    = m ++ map (fun a => (key a, a)) l.
Proof.
  induction l as [|a r IH]; intros m Hnd Hfresh; simpl.
  - now rewrite app_nil_r.
  - inversion Hnd; subst. rewrite IH; auto.
    + assert (Hset : JsMap.set (key a) a m = m ++ [(key a, a)]).
      { assert (Ha := Hfresh a (or_introl eq_refl)). clear - Ha.
        induction m as [|[k v] m IH]; simpl; auto.
        simpl in Ha. destruct (String.eqb (key a) k) eqn:E.
        - apply String.eqb_eq in E. subst. tauto.
        - f_equal. apply IH. tauto. }
      rewrite Hset, <- app_assoc. reflexivity.
    + intros b Hb Hin. apply JsMapFacts.in_keys_set in Hin.
      destruct Hin as [Hin|Hin].
      * apply H1. rewrite <- Hin. now apply in_map.
      * apply (Hfresh b); auto. now right.
Qed.

Lemma commitMap_distinct (commits : list CommitNode) :
  NoDup (map oid commits) ->
  fold_left (fun m c => JsMap.set (oid c) c m) commits JsMap.empty
  = map (fun c => (oid c, c)) commits.
Proof.
  intros H. rewrite fold_set_fresh; auto.
Qed.

Lemma commitMap_get (commits : list CommitNode) (k : string) (c : CommitNode) :
  NoDup (map oid commits) ->
  JsMap.get k (map (fun c => (oid c, c)) commits) = Some c <->
  In c commits /\ oid c = k.
Proof.
  intros Hnd.
  assert (Hkeys : JsMap.keys (map (fun c => (oid c, c)) commits) = map oid commits).
  { unfold JsMap.keys. rewrite map_map. reflexivity. }
  split.
  - intros H. apply JsMapFacts.get_in in H. apply in_map_iff in H.
    destruct H as [c' [Hc' Hin]]. inversion Hc'; subst. auto.
  - intros [Hin <-]. apply JsMapFacts.get_NoDup_in.
    + now rewrite Hkeys.
    + apply in_map_iff. eauto.
Qed.

Lemma unexpanded_nil (commits : list CommitNode) :
  unexpanded (map (fun c => (oid c, c)) commits) []
  = fold_right (fun c n => (List.length (parents c) + n)%nat) O commits.
Proof.
  unfold unexpanded. induction commits as [|c r IH]; simpl; auto.
Qed.

Lemma clos_rt_eq_or_t {A : Type} (R : A -> A -> Prop) (x y : A) :
  clos_refl_trans A R x y -> x = y \/ clos_trans A R x y.
Proof.
  induction 1 as [x y H | x | x y z _ IH1 _ IH2].
  - right. now apply t_step.
  - now left.
  - destruct IH1 as [->|H1]; [assumption|].
    destruct IH2 as [<-|H2]; [now right|].
    right. eapply t_trans; eauto.
Qed.

Lemma clos_t_rt_ext {A : Type} (R R' : A -> A -> Prop) (x y : A) :
  (forall u v, R u v -> R' u v) ->
  clos_trans A R x y -> clos_refl_trans A R' x y.
Proof.
  intros H. induction 1.
  - apply rt_step. auto.
  - eapply rt_trans; eauto.
Qed.

Lemma clos_rt_t_ext {A : Type} (R R' : A -> A -> Prop) (x y : A) :
  (forall u v, R u v -> R' u v) ->
  clos_refl_trans A R x y -> x = y \/ clos_trans A R' x y.
Proof.
  intros H Hr. apply clos_rt_eq_or_t in Hr. destruct Hr as [->|Hr]; [now left|].
  right. induction Hr.
  - apply t_step. auto.
  - eapply t_trans; eauto.
Qed.

(** C8. For a commit list with pairwise distinct identifiers,
    [isAncestor commits a b] returns, and returns [true] exactly when
    [a = b] or [a] is reachable from [b] along one or more parent
    references; in particular [isAncestor commits x x] is [true] for every
    [x], present in the list or not. *)
Theorem isAncestor_correct (commits : list CommitNode) (a b : string) :
  NoDup (map oid commits) ->
  (exists r,
     isAncestor commits a b = Some r /\
     (r = true <-> a = b \/ clos_trans string (parent_edge commits) b a)) /\
  (forall x, isAncestor commits x x = Some true).
Proof.
  intros Hnd.
  assert (Hself : forall x, isAncestor commits x x = Some true).
  { intros x. unfold isAncestor, isAncestor_fuel. simpl.
    now rewrite String.eqb_refl. }
  split; [|exact Hself].
  unfold isAncestor, isAncestor_fuel.
  rewrite commitMap_distinct by exact Hnd.
  set (cm := map (fun c => (oid c, c)) commits).
  assert (Hcm : NoDup (JsMap.keys cm)).
  { unfold cm, JsMap.keys. rewrite map_map. exact Hnd. }
  assert (Hedge : forall u v, map_edge cm u v <-> parent_edge commits u v).
  { intros u v. unfold map_edge, parent_edge. split.
    - intros [c [Hc Hv]]. apply (commitMap_get _ _ _ Hnd) in Hc.
      exists c. tauto.
    - intros [c [Hc [Ho Hv]]]. exists c. split; [|assumption].
      apply (commitMap_get _ _ _ Hnd). auto. }
  set (fuel := S (fold_right (fun c n => (List.length (parents c) + n)%nat) O commits)).
  destruct (@isAncestor_loop_terminates cm a Hcm fuel [] [b]) as [r Hr].
  { unfold cm. rewrite unexpanded_nil. unfold fuel. simpl. lia. }
  exists r. split; [exact Hr|].
  destruct r.
  - split; [intros _|reflexivity].
    destruct (isAncestor_loop_sound _ _ _ _ _ Hr) as [q [[<-|[]] Hq]].
    apply (@clos_rt_t_ext _ (map_edge cm) (parent_edge commits)) in Hq.
    + destruct Hq; auto.
    + intros u v. apply Hedge.
  - split; [discriminate|]. intros H. exfalso.
    destruct (@isAncestor_loop_complete cm a fuel [] [b]) as [S [HS [HaS Hcl]]];
      [ intros [] | intros v w [] | exact Hr | ].
    assert (Hreach : forall x y, clos_refl_trans string (map_edge cm) x y ->
                                 In x S -> In y S).
    { induction 1; eauto. }
    apply HaS. apply (Hreach b a).
    + destruct H as [->|H]; [apply rt_refl|].
      apply (@clos_t_rt_ext _ (parent_edge commits)); [|assumption].
      intros u v. apply Hedge.
    + apply HS. right. now left.
Qed.

Lemma isAncestor_correct_witness :
  (exists r,
     isAncestor example_chain "a" "c" = Some r /\
     (r = true <->
      "a" = "c" \/ clos_trans string (parent_edge example_chain) "c" "a")) /\
  (forall x, isAncestor example_chain x x = Some true).
Proof.
  apply isAncestor_correct.
  simpl. repeat constructor; simpl; intuition discriminate.
Defined.

(** ** Quadtree: structural facts *)

Lemma Permutation_filter {A : Type} (f : A -> bool) (l l' : list A) :
  Permutation l l' -> Permutation (filter f l) (filter f l').
Proof.
  induction 1 as [| x l l' _ IH | x y l | l l' l'' _ IH1 _ IH2]; simpl.
  - constructor.
  - destruct (f x); [now constructor | assumption].
  - destruct (f x), (f y); try reflexivity. apply perm_swap.
  - etransitivity; eassumption.
Qed.

Lemma filter_none {A : Type} (f : A -> bool) (l : list A) :
  (forall x, In x l -> f x = false) -> filter f l = [].
Proof.
  induction l as [|a l IH]; intros H; simpl; [reflexivity|].
  rewrite (H a (or_introl eq_refl)). apply IH.
  intros x Hx. apply H. now right.
Qed.

Section QuadtreeFacts.
Variable T : Type.
Variable N : Type.
Context {num : Num N}.

Section TreeInduction.
Variable P : QuadtreeNode T N -> Prop.
Hypothesis P_leaf : forall b its, P (QNode b its None).
Hypothesis P_inner : forall b its cs, Forall P cs -> P (QNode b its (Some cs)).

Lemma QuadtreeNode_tree_ind : forall n : QuadtreeNode T N, P n.
Proof.
  fix IH 1. intros [b its [cs|]].
  - apply P_inner. induction cs as [|c r IHr]; constructor.
    + apply IH.
    + exact IHr.
  - apply P_leaf.
Qed.
End TreeInduction.

(** [place_entry] adds the entry to the items of exactly one child, one
    whose rectangle passes [inBounds]. *)
Lemma place_entry_spec (e : Entry T N) :
  forall cs cs',
    place_entry e cs = Some cs' ->
    exists l1 c l2,
      cs = l1 ++ c :: l2 /\
      cs' = l1 ++ QNode (bounds c) (items c ++ [e]) (children c) :: l2 /\
      entry_in (bounds c) e.
Proof.
  induction cs as [|c r IH]; intros cs' H; simpl in H; [discriminate|].
  destruct (inBounds (bounds c) (ent_x e) (ent_y e)) eqn:E.
  - injection H as <-. exists [], c, r. auto.
  - destruct (place_entry e r) as [r'|]; simpl in H; [|discriminate].
    injection H as <-.
    destruct (IH r' eq_refl) as [l1 [c' [l2 [H1 [H2 H3]]]]].
    exists (c :: l1), c', l2. subst. auto.
Qed.

Lemma descend_spec (f : QuadtreeNode T N -> QuadtreeNode T N) (x y : N) :
  forall cs cs',
    descend f x y cs = Some cs' ->
    exists l1 c l2,
      cs = l1 ++ c :: l2 /\ cs' = l1 ++ f c :: l2 /\
      inBounds (bounds c) x y = true.
Proof.
  induction cs as [|c r IH]; intros cs' H; simpl in H; [discriminate|].
  destruct (inBounds (bounds c) x y) eqn:E.
  - injection H as <-. exists [], c, r. auto.
  - destruct (descend f x y r) as [r'|]; simpl in H; [|discriminate].
    injection H as <-.
    destruct (IH r' eq_refl) as [l1 [c' [l2 [H1 [H2 H3]]]]].
    exists (c :: l1), c', l2. subst. auto.
Qed.

Lemma subdivide_bounds (n : QuadtreeNode T N) :
  bounds (subdivide n) = bounds n.
Proof.
  unfold subdivide. destruct (fold_left _ _ _). reflexivity.
Qed.

(** *** Contents *)

Lemma place_entry_perm (e : Entry T N) (cs cs' : list (QuadtreeNode T N)) :
  place_entry e cs = Some cs' ->
  Permutation (flat_map entries cs') (e :: flat_map entries cs).
Proof.
  intros H.
  destruct (place_entry_spec e cs H) as [l1 [c [l2 [-> [-> _]]]]].
  rewrite !flat_map_app. cbn [flat_map]. destruct c as [b its ch].
  cbn [entries items children bounds].
  rewrite <- !app_assoc. cbn [app].
  symmetry. rewrite (app_assoc (flat_map entries l1) its).
  rewrite (app_assoc (flat_map entries l1) its (e :: _)).
  apply Permutation_cons_app. reflexivity.
Qed.

Lemma subdivide_fold_perm :
  forall (its : list (Entry T N)) cs kept cs' kept',
    fold_left (@subdivide_step T N num) its (cs, kept) = (cs', kept') ->
    Permutation (kept' ++ flat_map entries cs')
                (its ++ kept ++ flat_map entries cs).
Proof.
  induction its as [|e its IH]; intros cs kept cs' kept' H; simpl in H.
  - inversion H; subst. reflexivity.
  - destruct (place_entry e cs) as [cs1|] eqn:Ep.
    + rewrite (IH _ _ _ _ H). cbn [app].
      rewrite (place_entry_perm _ _ Ep).
      rewrite (app_assoc its kept). symmetry.
      apply Permutation_cons_app. now rewrite <- app_assoc.
    + rewrite (IH _ _ _ _ H). cbn [app]. rewrite <- app_assoc. cbn [app].
      rewrite (app_assoc its kept). symmetry.
      apply Permutation_cons_app. now rewrite <- app_assoc.
Qed.

Lemma subdivide_perm (b : BBox N) (its : list (Entry T N)) :
  Permutation (entries (subdivide (QNode b its None))) its.
Proof.
  unfold subdivide. cbn [bounds items].
  match goal with
  | |- context [fold_left _ its (?cs0, [])] =>
      destruct (fold_left (@subdivide_step T N num) its (cs0, []))
        as [cs' kept'] eqn:Ef
  end.
  cbn [entries items children].
  rewrite (subdivide_fold_perm _ _ _ Ef). simpl. now rewrite app_nil_r.
Qed.

Lemma insertInto_perm (mi md : Z) (e : Entry T N) :
  forall (n : QuadtreeNode T N) depth,
    Permutation (entries (insertInto mi md n e depth))
      (if inBounds (bounds n) (ent_x e) (ent_y e)
       then e :: entries n else entries n).
Proof.
  induction n as [b its | b its cs IH] using QuadtreeNode_tree_ind;
    intros depth; cbn [insertInto bounds items children];
    destruct (inBounds b (ent_x e) (ent_y e)) eqn:Eb; cbn [negb];
    try reflexivity.
  - assert (Hp : Permutation (its ++ [e]) (e :: its))
      by (symmetry; apply Permutation_cons_append).
    cbn [entries items children]. rewrite app_nil_r.
    destruct ((Z.of_nat (List.length (its ++ [e])) >? mi) && (depth <? md)).
    + now rewrite subdivide_perm.
    + cbn [entries items children]. now rewrite app_nil_r.
  - destruct (descend _ (ent_x e) (ent_y e) cs) as [cs'|] eqn:Ed.
    + destruct (descend_spec _ _ _ _ Ed) as [l1 [c [l2 [-> [-> Hc]]]]].
      apply Forall_app in IH. destruct IH as [_ IH].
      inversion IH as [|? ? IHc _]; subst.
      specialize (IHc (depth + 1)). rewrite Hc in IHc.
      cbn [entries items children]. rewrite !flat_map_app. cbn [flat_map].
      rewrite IHc. cbn [app].
      symmetry. rewrite (app_assoc its (flat_map entries l1) (e :: _)).
      apply Permutation_cons_app. now rewrite <- app_assoc.
    + cbn [entries items children]. rewrite <- app_assoc. cbn [app].
      symmetry. apply Permutation_cons_app. reflexivity.
Qed.

Lemma insertInto_bounds (mi md : Z) (e : Entry T N) :
  forall (n : QuadtreeNode T N) depth,
    bounds (insertInto mi md n e depth) = bounds n.
Proof.
  intros [b its [cs|]] depth; cbn [insertInto bounds items children];
    destruct (inBounds b (ent_x e) (ent_y e)); cbn [negb]; try reflexivity.
  - destruct (descend _ _ _ cs); reflexivity.
  - destruct ((Z.of_nat (List.length (its ++ [e])) >? mi) && (depth <? md));
      [apply subdivide_bounds | reflexivity].
Qed.

Lemma insert_all_bounds :
  forall (l : list (T * N * N)) (qt : Quadtree T N),
    bounds (root (insert_all qt l)) = bounds (root qt).
Proof.
  induction l as [|[[it x] y] l IH]; intros qt; [reflexivity|].
  cbn [insert_all fold_left fst snd].
  fold (insert_all (insert qt it x y) l).
  rewrite IH. apply insertInto_bounds.
Qed.

Lemma insert_all_perm :
  forall (l : list (T * N * N)) (qt : Quadtree T N),
    Permutation (entries (root (insert_all qt l)))
      (entries (root qt)
       ++ map entry_of
            (filter (fun p => inBounds (bounds (root qt)) (snd (fst p)) (snd p))
                    l)).
Proof.
  induction l as [|[[it x] y] l IH]; intros qt.
  - simpl. now rewrite app_nil_r.
  - cbn [insert_all fold_left fst snd].
    fold (insert_all (insert qt it x y) l).
    rewrite IH. cbn [insert root]. rewrite insertInto_bounds.
    rewrite (insertInto_perm (maxItems qt) (maxDepth qt) (mkEntry it x y)
               (root qt) 0).
    cbn [ent_x ent_y filter fst snd].
    destruct (inBounds (bounds (root qt)) x y); cbn [map]; [|reflexivity].
    unfold entry_of at 2. cbn [fst snd]. cbn [app].
    apply Permutation_cons_app. reflexivity.
Qed.

(** *** The invariant *)

Lemma well_formed_entries_in :
  forall n : QuadtreeNode T N,
    well_formed n -> Forall (entry_in (bounds n)) (entries n).
Proof.
  intros n H. destruct H as [b its Hi | b its cs Hi Hc _];
    cbn [bounds entries items children].
  - now rewrite app_nil_r.
  - apply Forall_app. split; [assumption|].
    apply Forall_flat_map. exact Hc.
Qed.

Lemma well_formed_push (b : BBox N) (its : list (Entry T N))
    (ch : option (list (QuadtreeNode T N))) (e : Entry T N) :
  well_formed (QNode b its ch) -> entry_in b e ->
  well_formed (QNode b (its ++ [e]) ch).
Proof.
  intros H He. inversion H as [? ? Hi | ? ? cs Hi Hc Hw]; subst.
  - constructor. apply Forall_app. split; [assumption | now repeat constructor].
  - constructor; auto.
    apply Forall_app. split; [assumption | now repeat constructor].
Qed.

Lemma subdivide_fold_wf (b : BBox N) :
  forall (its : list (Entry T N)) cs kept cs' kept',
    fold_left (@subdivide_step T N num) its (cs, kept) = (cs', kept') ->
    Forall (entry_in b) its -> Forall (entry_in b) kept ->
    Forall well_formed cs ->
    Forall well_formed cs' /\ Forall (entry_in b) kept'.
Proof.
  induction its as [|e its IH]; intros cs kept cs' kept' H Hits Hkept Hcs;
    simpl in H.
  - inversion H; subst. auto.
  - inversion Hits as [|? ? He Hr]; subst.
    destruct (place_entry e cs) as [cs1|] eqn:Ep.
    + apply (@IH _ _ _ _ H Hr Hkept).
      destruct (place_entry_spec e cs Ep) as [l1 [c [l2 [-> [-> Hc]]]]].
      apply Forall_app in Hcs. destruct Hcs as [H1 H2].
      inversion H2 as [|? ? Hwc Hw2]; subst.
      apply Forall_app. split; [assumption|]. constructor; [|assumption].
      destruct c as [bc ic chc]. cbn [bounds items children] in *.
      now apply well_formed_push.
    + apply (@IH _ _ _ _ H Hr); auto.
      apply Forall_app. split; [assumption | now repeat constructor].
Qed.

Lemma subdivide_wf (b : BBox N) (its : list (Entry T N)) :
  Forall (entry_in b) its ->
  well_formed (subdivide (QNode b its None)).
Proof.
  intros Hits.
  assert (Hall : Forall (entry_in b)
                   (entries (subdivide (QNode b its None)))).
  { rewrite Forall_forall in *. intros e He. apply Hits.
    eapply Permutation_in; [apply subdivide_perm | exact He]. }
  revert Hall. unfold subdivide. cbn [bounds items].
  match goal with
  | |- context [fold_left _ its (?cs0, [])] =>
      assert (Hcs0 : Forall (@well_formed T N num) cs0)
        by (repeat constructor);
      destruct (fold_left (@subdivide_step T N num) its (cs0, []))
        as [cs' kept'] eqn:Ef
  end.
  destruct (@subdivide_fold_wf b its _ [] cs' kept' Ef Hits (Forall_nil _)
              Hcs0) as [Hwf Hk].
  cbn [entries items children]. intros Hall.
  apply Forall_app in Hall. destruct Hall as [_ Hall].
  constructor; auto. now apply Forall_flat_map in Hall.
Qed.

Lemma insertInto_wf (mi md : Z) (e : Entry T N) :
  forall (n : QuadtreeNode T N) depth,
    well_formed n -> well_formed (insertInto mi md n e depth).
Proof.
  induction n as [b its | b its cs IH] using QuadtreeNode_tree_ind;
    intros depth Hwf; cbn [insertInto bounds items children];
    destruct (inBounds b (ent_x e) (ent_y e)) eqn:Eb; cbn [negb];
    try exact Hwf.
  - inversion Hwf as [? ? Hi|]; subst.
    assert (Hi' : Forall (entry_in b) (its ++ [e])).
    { apply Forall_app. split; [assumption | now repeat constructor]. }
    destruct ((Z.of_nat (List.length (its ++ [e])) >? mi) && (depth <? md)).
    + now apply subdivide_wf.
    + now constructor.
  - destruct (descend _ (ent_x e) (ent_y e) cs) as [cs'|] eqn:Ed.
    + destruct (descend_spec _ _ _ _ Ed) as [l1 [c [l2 [-> [-> Hc]]]]].
      inversion Hwf as [|? ? ? Hi Hin Hw]; subst.
      apply Forall_app in IH. destruct IH as [_ IH].
      inversion IH as [|? ? IHc _]; subst.
      apply Forall_app in Hin. destruct Hin as [Hin1 Hin2].
      inversion Hin2 as [|? ? Hinc Hin3]; subst.
      apply Forall_app in Hw. destruct Hw as [Hw1 Hw2].
      inversion Hw2 as [|? ? Hwc Hw3]; subst.
      constructor; auto.
      * apply Forall_app. split; [assumption|]. constructor; [|assumption].
        rewrite Forall_forall in *. intros e' He'.
        pose proof (insertInto_perm mi md e c (depth + 1)) as Hp.
        rewrite Hc in Hp.
        apply (Permutation_in _ Hp) in He'. destruct He' as [<-|He'].
        -- exact Eb.
        -- now apply Hinc.
      * apply Forall_app. split; [assumption|]. constructor; [|assumption].
        now apply IHc.
    + now apply well_formed_push.
Qed.

Lemma insert_all_wf :
  forall (l : list (T * N * N)) (qt : Quadtree T N),
    well_formed (root qt) -> well_formed (root (insert_all qt l)).
Proof.
  induction l as [|[[it x] y] l IH]; intros qt H; [exact H|].
  cbn [insert_all fold_left fst snd].
  fold (insert_all (insert qt it x y) l).
  apply IH. cbn [insert root]. now apply insertInto_wf.
Qed.

(** [insertInto] returns at once when the point is outside the bounds. *)
Lemma insertInto_outside (mi md : Z) (n : QuadtreeNode T N)
    (e : Entry T N) (depth : Z) :
  inBounds (bounds n) (ent_x e) (ent_y e) = false ->
  insertInto mi md n e depth = n.
Proof.
  intros H. destruct n as [b its ch]. cbn [insertInto bounds] in *.
  now rewrite H.
Qed.
End QuadtreeFacts.

(** ** Quadtree: shape *)

Section QuadtreeShapeFacts.
Variable T : Type.
Variable N : Type.
Context {num : Num N}.

Lemma place_entry_leaves (e : Entry T N) (cs cs' : list (QuadtreeNode T N)) :
  Forall (fun c => children c = None) cs ->
  place_entry e cs = Some cs' ->
  Forall (fun c => children c = None) cs' /\
  map (@bounds T N) cs' = map (@bounds T N) cs.
Proof.
  intros Hl H.
  destruct (place_entry_spec e cs H) as [l1 [c [l2 [-> [-> _]]]]].
  apply Forall_app in Hl. destruct Hl as [H1 H2].
  inversion H2 as [|? ? Hc Hr]; subst. split.
  - apply Forall_app. split; [exact H1|]. constructor; [exact Hc | exact Hr].
  - rewrite !map_app. reflexivity.
Qed.

Lemma subdivide_fold_leaves :
  forall (its : list (Entry T N)) cs kept cs' kept',
    Forall (fun c => children c = None) cs ->
    fold_left (@subdivide_step T N num) its (cs, kept) = (cs', kept') ->
    Forall (fun c => children c = None) cs' /\
    map (@bounds T N) cs' = map (@bounds T N) cs.
Proof.
  induction its as [|e its IH]; intros cs kept cs' kept' Hl H; simpl in H.
  - inversion H; subst. auto.
  - destruct (place_entry e cs) as [cs1|] eqn:Ep.
    + destruct (@place_entry_leaves e cs cs1 Hl Ep) as [Hl1 Hb1].
      destruct (IH _ _ _ _ Hl1 H) as [Hl' Hb']. split; congruence.
    + exact (IH _ _ _ _ Hl H).
Qed.

(** [subdivide] turns a leaf into a node over the same rectangle whose
    children are four leaves over its quarters. *)
Lemma subdivide_shape (b : BBox N) (its : list (Entry T N)) :
  exists kept cs,
    subdivide (QNode b its None) = QNode b kept (Some cs) /\
    map (@bounds T N) cs = quadrants b /\
    Forall (fun c => children c = None) cs.
Proof.
  unfold subdivide. cbn [bounds items].
  match goal with
  | |- context [fold_left _ its (?cs0, [])] =>
      assert (Hl0 : Forall (fun c : QuadtreeNode T N => children c = None) cs0)
        by (repeat constructor);
      destruct (fold_left (@subdivide_step T N num) its (cs0, []))
        as [cs' kept'] eqn:Ef;
      destruct (@subdivide_fold_leaves its cs0 [] cs' kept' Hl0 Ef) as [Hl Hb]
  end.
  exists kept', cs'. split; [reflexivity|]. split; [|exact Hl].
  rewrite Hb. reflexivity.
Qed.

Lemma leaf_quartered (c : QuadtreeNode T N) :
  children c = None -> quartered c.
Proof. destruct c as [b its ch]. simpl. intros ->. constructor. Qed.

Lemma leaf_depth_ok (md d : Z) (c : QuadtreeNode T N) :
  children c = None -> depth_ok md d c.
Proof. destruct c as [b its ch]. simpl. intros ->. constructor. Qed.

Lemma insertInto_quartered (mi md : Z) (e : Entry T N) :
  forall (n : QuadtreeNode T N) depth,
    quartered n -> quartered (insertInto mi md n e depth).
Proof.
  induction n as [b its | b its cs IH] using QuadtreeNode_tree_ind;
    intros depth Hq; cbn [insertInto bounds items children];
    destruct (inBounds b (ent_x e) (ent_y e)); cbn [negb]; try exact Hq.
  - destruct ((Z.of_nat (List.length (its ++ [e])) >? mi) && (depth <? md));
      [|constructor].
    destruct (subdivide_shape b (its ++ [e])) as [kept [cs [-> [Hb Hl]]]].
    constructor; [exact Hb|].
    eapply Forall_impl; [|exact Hl]. intros c. apply leaf_quartered.
  - inversion Hq as [|? ? ? Hb Hcs]; subst.
    destruct (descend _ (ent_x e) (ent_y e) cs) as [cs'|] eqn:Ed;
      [|now constructor].
    destruct (descend_spec _ _ _ _ Ed) as [l1 [c [l2 [-> [-> _]]]]].
    apply Forall_app in IH. destruct IH as [_ IH].
    inversion IH as [|? ? IHc _]; subst.
    apply Forall_app in Hcs. destruct Hcs as [H1 H2].
    inversion H2 as [|? ? Hc Hr]; subst.
    constructor.
    + rewrite <- Hb, !map_app. cbn [map].
      now rewrite insertInto_bounds.
    + apply Forall_app. split; [exact H1|]. constructor; [|exact Hr].
      now apply IHc.
Qed.

Lemma insertInto_depth_ok (mi md : Z) (e : Entry T N) :
  forall (n : QuadtreeNode T N) depth,
    depth_ok md depth n -> depth_ok md depth (insertInto mi md n e depth).
Proof.
  induction n as [b its | b its cs IH] using QuadtreeNode_tree_ind;
    intros depth Hq; cbn [insertInto bounds items children];
    destruct (inBounds b (ent_x e) (ent_y e)); cbn [negb]; try exact Hq.
  - destruct (Z.of_nat (List.length (its ++ [e])) >? mi); cbn [andb];
      [|constructor].
    destruct (depth <? md) eqn:Ed; [|constructor].
    apply Z.ltb_lt in Ed.
    destruct (subdivide_shape b (its ++ [e])) as [kept [cs [-> [Hb Hl]]]].
    constructor; [exact Ed|].
    eapply Forall_impl; [|exact Hl]. intros c. apply leaf_depth_ok.
  - inversion Hq as [|? ? ? ? Hlt Hcs]; subst.
    destruct (descend _ (ent_x e) (ent_y e) cs) as [cs'|] eqn:Ed;
      [|now constructor].
    destruct (descend_spec _ _ _ _ Ed) as [l1 [c [l2 [-> [-> _]]]]].
    apply Forall_app in IH. destruct IH as [_ IH].
    inversion IH as [|? ? IHc _]; subst.
    apply Forall_app in Hcs. destruct Hcs as [H1 H2].
    inversion H2 as [|? ? Hc Hr]; subst.
    constructor; [exact Hlt|].
    apply Forall_app. split; [exact H1|]. constructor; [|exact Hr].
    now apply IHc.
Qed.

Lemma insert_all_shape :
  forall (l : list (T * N * N)) (qt : Quadtree T N),
    maxDepth (insert_all qt l) = maxDepth qt /\
    (quartered (root qt) -> quartered (root (insert_all qt l))) /\
    (depth_ok (maxDepth qt) 0 (root qt) ->
     depth_ok (maxDepth qt) 0 (root (insert_all qt l))).
Proof.
  induction l as [|[[it x] y] l IH]; intros qt; [simpl; auto|].
  cbn [insert_all fold_left fst snd].
  fold (insert_all (insert qt it x y) l).
  destruct (IH (insert qt it x y)) as [Hm [Hq Hd]].
  cbn [insert maxDepth root] in *.
  split; [exact Hm|]. split; intros H.
  - apply Hq. now apply insertInto_quartered.
  - apply Hd. now apply insertInto_depth_ok.
Qed.

Lemma depth_ok_height (md : Z) :
  forall (n : QuadtreeNode T N) d,
    depth_ok md d n -> Z.of_nat (tree_height n) <= Z.max 0 (md - d).
Proof.
  induction n as [b its | b its cs IH] using QuadtreeNode_tree_ind;
    intros d Hd; cbn [tree_height children]; [lia|].
  inversion Hd as [|? ? ? ? Hlt Hcs]; subst.
  assert (Hf : Z.of_nat
                 (fold_right (fun c h => Nat.max (tree_height c) h) O cs)
               <= md - d - 1).
  { clear Hd. induction cs as [|c cs IHcs]; cbn [fold_right]; [lia|].
    inversion IH as [|? ? IHc IHr]; subst.
    inversion Hcs as [|? ? Hc Hr]; subst.
    specialize (IHc _ Hc). specialize (IHcs IHr Hr). lia. }
  lia.
Qed.
End QuadtreeShapeFacts.

(** ** Quadtree: queries *)

Lemma fold_left_flat_map {A B S : Type} (f : S -> B -> S) (g : A -> list B) :
  forall (l : list A) (s : S),
    fold_left f (flat_map g l) s
    = fold_left (fun s a => fold_left f (g a) s) l s.
Proof.
  induction l as [|a l IH]; intros s; simpl; [reflexivity|].
  now rewrite fold_left_app, IH.
Qed.

Section QuadtreeQuery.
Variable T : Type.
Variable N : Type.
Context {num : Num N} {ord : @NumOrder N num}.
Local Open Scope num_scope.

Lemma queryNode_visit (S : Type) (callback : S -> T -> N -> N -> S)
    (x y radius : N) :
  forall (n : QuadtreeNode T N) s,
    queryNode callback n x y radius s
    = fold_left (fun s e => callback s (item e) (ent_x e) (ent_y e))
        (visit n x y radius) s.
Proof.
  induction n as [b its | b its cs IH] using QuadtreeNode_tree_ind; intros s.
  - cbn [queryNode visit bounds items children]. fold (searchBounds x y radius).
    destruct (boundsOverlap b (searchBounds x y radius)); cbn [negb];
      [|reflexivity].
    now rewrite app_nil_r.
  - cbn [queryNode visit bounds items children]. fold (searchBounds x y radius).
    destruct (boundsOverlap b (searchBounds x y radius)); cbn [negb];
      [|reflexivity].
    rewrite fold_left_app, fold_left_flat_map.
    generalize (fold_left
                  (fun s e => callback s (item e) (ent_x e) (ent_y e)) its s).
    induction IH as [|c r Hc _ IHr]; intros s'; simpl; [reflexivity|].
    rewrite Hc. apply IHr.
Qed.

Lemma visit_entries (x y radius : N) :
  forall (n : QuadtreeNode T N) e,
    In e (visit n x y radius) -> In e (entries n).
Proof.
  induction n as [b its | b its cs IH] using QuadtreeNode_tree_ind; intros e;
    cbn [visit entries bounds items children];
    destruct (boundsOverlap b (searchBounds x y radius)); cbn [negb];
    try contradiction; auto.
  rewrite !in_app_iff. intros [H|H]; [now left|right].
  apply in_flat_map in H. destruct H as [c [Hc He]].
  apply in_flat_map. exists c. split; [assumption|].
  rewrite Forall_forall in IH. now apply IH.
Qed.

(** A rectangle that holds a point of another rectangle overlaps it; only
    the comparison laws are used, so this is true of the edges as
    computed, whatever their rounding. *)
Lemma overlap_of_common_point (b rect : BBox N) (px py : N) :
  inBounds b px py = true -> inBounds rect px py = true ->
  boundsOverlap b rect = true.
Proof.
  unfold inBounds, boundsOverlap. rewrite !andb_true_iff.
  intros [[[H1 H2] H3] H4] [[[R1 R2] R3] R4].
  rewrite (nleb_nltb _ _ (nleb_trans _ _ _ H1 R2)).
  rewrite (nleb_nltb _ _ (nleb_trans _ _ _ R1 H2)).
  rewrite (nleb_nltb _ _ (nleb_trans _ _ _ H3 R4)).
  rewrite (nleb_nltb _ _ (nleb_trans _ _ _ R3 H4)).
  reflexivity.
Qed.

(** On a well-formed tree the pruning loses no entry of the search
    square. *)
Lemma visit_complete (x y radius : N) :
  forall (n : QuadtreeNode T N) e,
    well_formed n -> In e (entries n) -> in_square x y radius e = true ->
    In e (visit n x y radius).
Proof.
  induction n as [b its | b its cs IH] using QuadtreeNode_tree_ind;
    intros e Hwf He Hsq;
    pose proof (well_formed_entries_in Hwf) as Hall;
    rewrite Forall_forall in Hall;
    pose proof (overlap_of_common_point _ _ _ _ (Hall e He) Hsq) as Ho;
    cbn [bounds] in Ho;
    cbn [visit entries bounds items children] in *; rewrite Ho; cbn [negb].
  - assumption.
  - inversion Hwf as [|? ? ? Hi Hr Hw]; subst.
    rewrite in_app_iff in *. destruct He as [He|He]; [now left|right].
    apply in_flat_map in He. destruct He as [c [Hc He]].
    apply in_flat_map. exists c. split; [assumption|].
    rewrite Forall_forall in IH, Hw. apply IH; auto.
Qed.

(** The running minimum kept by the callback of [queryNearest]: nothing
    seen is strictly closer than the final [bestDist], and either nothing
    was taken or the answer is a seen entry strictly closer than the
    initial [bestDist]. *)
Lemma nearest_fold_spec (x y : N) :
  forall (vs : list (Entry T N)) (best : option T) (bd : N),
    let res :=
      fold_left (fun s e => nearest_step x y s (item e) (ent_x e) (ent_y e))
        vs (best, bd) in
    (forall e, In e vs -> (entry_dist x y e <? snd res) = false) /\
    ((res = (best, bd)) \/
     (exists e, In e vs /\ fst res = Some (item e) /\
                snd res = entry_dist x y e /\
                (entry_dist x y e <? bd) = true)).
Proof.
  induction vs as [|v vs IH]; intros best bd; cbn [fold_left].
  - split; [intros e []|]. now left.
  - assert (Hstep : nearest_step x y (best, bd) (item v) (ent_x v) (ent_y v)
                    = if entry_dist x y v <? bd
                      then (Some (item v), entry_dist x y v)
                      else (best, bd)) by reflexivity.
    rewrite Hstep. clear Hstep. cbv zeta.
    destruct (entry_dist x y v <? bd) eqn:E.
    + destruct (IH (Some (item v)) (entry_dist x y v)) as [Hmin Hres].
      cbv zeta in Hmin, Hres. split.
      * intros e [<-|He]; [|exact (Hmin e He)].
        destruct Hres as [-> | [e' [He' [_ [-> Hlt]]]]]; cbn [snd].
        -- apply nltb_irrefl.
        -- destruct (entry_dist x y v <? entry_dist x y e') eqn:E'; auto.
           pose proof (nltb_trans _ _ _ E' Hlt) as Hc.
           rewrite nltb_irrefl in Hc. discriminate.
      * right. destruct Hres as [-> | [e' [He' [H1 [H2 Hlt]]]]].
        -- exists v. cbn [fst snd]. split; [now left | auto].
        -- exists e'. split; [now right|]. split; [assumption|].
           split; [assumption|]. exact (nltb_trans _ _ _ Hlt E).
    + destruct (IH best bd) as [Hmin Hres]. cbv zeta in Hmin, Hres. split.
      * intros e [<-|He]; [|exact (Hmin e He)].
        destruct Hres as [-> | [e' [He' [_ [-> Hlt]]]]]; cbn [snd]; auto.
        destruct (entry_dist x y v <? entry_dist x y e') eqn:E'; auto.
        pose proof (nltb_trans _ _ _ E' Hlt) as Hc.
        rewrite E in Hc. discriminate.
      * destruct Hres as [-> | [e' [He' [H1 [H2 Hlt]]]]]; [now left|].
        right. exists e'. split; [now right | auto].
Qed.

(** An answer of [queryNearest], on any tree, is a stored item closer
    than the radius, as the code compares. *)
Lemma queryNearest_sound (qt : Quadtree T N) (x y r : N) (it : T) :
  queryNearest qt x y r = Some it ->
  exists e, In e (entries (root qt)) /\ item e = it /\
            (entry_dist x y e <? r * r) = true.
Proof.
  unfold queryNearest. rewrite queryNode_visit.
  pose proof (nearest_fold_spec x y (visit (root qt) x y r) None (r * r))
    as [_ Hres].
  cbv zeta in Hres.
  destruct Hres as [Hres | [e [He [H1 [_ Hlt]]]]].
  - rewrite Hres. discriminate.
  - rewrite H1. intros [= <-]. exists e. split; [|split; auto].
    eapply visit_entries. exact He.
Qed.

(** [queryNearest] on a well-formed tree. *)
Lemma queryNearest_spec (qt : Quadtree T N) (x y r : N) :
  well_formed (root qt) ->
  match queryNearest qt x y r with
  | Some it =>
      exists e, In e (entries (root qt)) /\ item e = it /\
                (entry_dist x y e <? r * r) = true /\
                forall e', In e' (entries (root qt)) ->
                           in_square x y r e' = true ->
                           (entry_dist x y e' <? entry_dist x y e) = false
  | None =>
      forall e', In e' (entries (root qt)) ->
                 in_square x y r e' = true ->
                 (entry_dist x y e' <? r * r) = false
  end.
Proof.
  intros Hwf. unfold queryNearest. rewrite queryNode_visit.
  pose proof (nearest_fold_spec x y (visit (root qt) x y r) None (r * r))
    as [Hmin Hres].
  cbv zeta in Hmin, Hres.
  destruct Hres as [Hres | [e [He [H1 [H2 Hlt]]]]].
  - rewrite Hres in *. cbn [fst snd] in *. intros e' He' Hsq.
    apply Hmin. now apply visit_complete.
  - rewrite H1. exists e. split; [eapply visit_entries; eassumption|].
    split; [reflexivity|]. split; [assumption|].
    intros e' He' Hsq. rewrite <- H2. apply Hmin. now apply visit_complete.
Qed.

Lemma rect_items_fold (rect : BBox N) :
  forall (its : list (Entry T N)) (results : list T),
    fold_left
      (fun results entry =>
         if (ent_x entry >=? b_x rect) &&
            (ent_x entry <=? b_x rect + b_width rect) &&
            (ent_y entry >=? b_y rect) &&
            (ent_y entry <=? b_y rect + b_height rect)
         then results ++ [item entry] else results)
      its results
    = results
      ++ map (@item T N)
           (filter (fun e => inBounds rect (ent_x e) (ent_y e)) its).
Proof.
  induction its as [|e its IH]; intros results; cbn [fold_left filter].
  - simpl. now rewrite app_nil_r.
  - rewrite IH. unfold inBounds at 2.
    destruct ((ent_x e >=? b_x rect) &&
              (ent_x e <=? b_x rect + b_width rect) &&
              (ent_y e >=? b_y rect) &&
              (ent_y e <=? b_y rect + b_height rect)).
    + cbn [map]. now rewrite <- app_assoc.
    + reflexivity.
Qed.

(** On a well-formed tree the pruned traversal finds every entry of the
    rectangle, in the order the entries are stored. *)
Lemma queryRectNode_spec (rect : BBox N) :
  forall (n : QuadtreeNode T N),
    well_formed n ->
    forall results,
      queryRectNode n rect results
      = results
        ++ map (@item T N)
             (filter (fun e => inBounds rect (ent_x e) (ent_y e)) (entries n)).
Proof.
  induction n as [b its | b its cs IH] using QuadtreeNode_tree_ind;
    intros Hwf results;
    pose proof (well_formed_entries_in Hwf) as Hall;
    rewrite Forall_forall in Hall; cbn [bounds] in Hall;
    cbn [queryRectNode bounds items children];
    destruct (boundsOverlap b rect) eqn:Eo; cbn [negb].
  - rewrite rect_items_fold. cbn [entries items children].
    now rewrite app_nil_r.
  - rewrite filter_none; [simpl; now rewrite app_nil_r|].
    intros e He.
    destruct (inBounds rect (ent_x e) (ent_y e)) eqn:Er; [|reflexivity].
    rewrite (overlap_of_common_point _ _ _ _ (Hall e He) Er) in Eo.
    discriminate.
  - rewrite rect_items_fold. cbn [entries items children].
    rewrite filter_app, map_app, app_assoc.
    generalize (results
                ++ map (@item T N)
                     (filter (fun e => inBounds rect (ent_x e) (ent_y e)) its)).
    inversion Hwf as [|? ? ? _ _ Hw]; subst. clear Hwf Hall Eo.
    induction cs as [|c cs IHcs]; intros acc; cbn [fold_left flat_map].
    + simpl. now rewrite app_nil_r.
    + inversion IH as [|? ? IHc IHr]; subst.
      inversion Hw as [|? ? Hc Hr]; subst.
      rewrite (IHc Hc), (IHcs IHr Hr).
      rewrite filter_app, map_app, app_assoc. reflexivity.
  - rewrite filter_none; [simpl; now rewrite app_nil_r|].
    intros e He.
    destruct (inBounds rect (ent_x e) (ent_y e)) eqn:Er; [|reflexivity].
    rewrite (overlap_of_common_point _ _ _ _ (Hall e He) Er) in Eo.
    discriminate.
Qed.

Lemma queryRect_insert_all (b : BBox N) (mi md : Z) (l : list (T * N * N))
    (rect : BBox N) :
  Permutation
    (queryRect (insert_all (quadtree_new T b mi md) l) rect)
    (map (fun p => fst (fst p))
       (filter (fun p => inBounds b (snd (fst p)) (snd p) &&
                         inBounds rect (snd (fst p)) (snd p)) l)).
Proof.
  unfold queryRect.
  assert (Hwf : well_formed (root (insert_all (quadtree_new T b mi md) l))).
  { apply insert_all_wf. constructor. constructor. }
  rewrite (queryRectNode_spec rect Hwf). cbn [app].
  rewrite (Permutation_filter _
             (insert_all_perm l (quadtree_new T b mi md))).
  cbn [quadtree_new root entries items children bounds app].
  clear. induction l as [|[[it x] y] l IH]; cbn [filter map fst snd];
    [constructor|].
  destruct (inBounds b x y); cbn [andb map filter]; [|exact IH].
  replace (inBounds rect (ent_x (entry_of (it, x, y)))
             (ent_y (entry_of (it, x, y))))
    with (inBounds rect x y) by reflexivity.
  destruct (inBounds rect x y); [|exact IH].
  simpl. apply perm_skip. exact IH.
Qed.
End QuadtreeQuery.

(** ** Comparison of doubles *)

(** A three-way comparison that is a lexicographic order on (sign,
    exponent, mantissa); the laws below follow from that shape alone. *)
Ltac SFcompare_cases :=
  repeat match goal with
         | x : spec_float |- _ => destruct x as [[|]|[|]| |[|] ? ?]
         end;
  cbn [SFcompare SFltb SFleb]; intros;
  try discriminate; try reflexivity;
  repeat match goal with
         | H : context [Z.compare ?a ?b] |- _ =>
             destruct (Z.compare_spec a b); subst
         | |- context [Z.compare ?a ?b] =>
             destruct (Z.compare_spec a b); subst
         end;
  try discriminate; try reflexivity; try lia;
  rewrite ?Pos.compare_cont_spec in *; cbn [Pos.switch_Eq] in *;
  repeat match goal with
         | H : context [Pos.compare ?a ?b] |- _ =>
             destruct (Pos.compare_spec a b); subst
         | |- context [Pos.compare ?a ?b] =>
             destruct (Pos.compare_spec a b); subst
         end;
  cbn [CompOpp] in *;
  try discriminate; try reflexivity; try lia.

Lemma SFleb_trans (a b c : spec_float) :
  SFleb a b = true -> SFleb b c = true -> SFleb a c = true.
Proof. unfold SFleb. SFcompare_cases. Qed.

Lemma SFleb_SFltb (a b : spec_float) :
  SFleb a b = true -> SFltb b a = false.
Proof. unfold SFleb, SFltb. SFcompare_cases. Qed.

Lemma SFltb_trans (a b c : spec_float) :
  SFltb a b = true -> SFltb b c = true -> SFltb a c = true.
Proof. unfold SFltb. SFcompare_cases. Qed.

Lemma SFltb_irrefl (a : spec_float) : SFltb a a = false.
Proof. unfold SFltb. SFcompare_cases. Qed.

#[export] Instance float_order : @NumOrder float float_num.
Proof.
  constructor; cbn [nleb nltb float_num]; intros *;
    rewrite ?leb_spec, ?ltb_spec.
  - apply SFleb_trans.
  - apply SFleb_SFltb.
  - apply SFltb_trans.
  - apply SFltb_irrefl.
Qed.

(** ** Doubles that compute without rounding *)

(** Doubles [a * 2^e] with [a] below [2^53] in magnitude add, subtract,
    multiply and compare as the integers [a] do, as long as the result
    is again below [2^53]: the rounding of [SpecFloat], the reference
    model of binary64, is then the identity.  The layout's whole
    numbers are such doubles. *)

Lemma iter_pos_nat {A : Type} (f : A -> A) (p : positive) :
  forall x, SpecFloat.iter_pos f p x = Nat.iter (Pos.to_nat p) f x.
Proof.
  induction p as [p IH|p IH|]; intros x; cbn [SpecFloat.iter_pos].
  - rewrite !IH, <- Nat.iter_add, <- Nat.iter_succ_r. f_equal. lia.
  - rewrite !IH, <- Nat.iter_add. f_equal. lia.
  - reflexivity.
Qed.

Lemma shiftl_nat_Z (q : positive) (k : nat) :
  Z.pos (Pos.shiftl_nat q k) = Z.pos q * 2 ^ Z.of_nat k.
Proof.
  induction k as [|k IH].
  - simpl. lia.
  - change (Pos.shiftl_nat q (S k)) with (xO (Pos.shiftl_nat q k)).
    change (Z.pos (Pos.shiftl_nat q k)~0) with (2 * Z.pos (Pos.shiftl_nat q k)).
    rewrite IH, Nat2Z.inj_succ, Z.pow_succ_r by lia. lia.
Qed.

Lemma shr_exact (k : nat) (q : positive) :
  Nat.iter k shr_1
    {| shr_m := Z.pos (Pos.shiftl_nat q k); shr_r := false; shr_s := false |}
  = {| shr_m := Z.pos q; shr_r := false; shr_s := false |}.
Proof.
  induction k as [|k IH]; [reflexivity|].
  rewrite Nat.iter_succ_r. exact IH.
Qed.

(** Number of binary digits. *)
Lemma digits2_bounds (p : positive) :
  2 ^ (Z.pos (digits2_pos p) - 1) <= Z.pos p < 2 ^ Z.pos (digits2_pos p).
Proof.
  induction p as [p IH|p IH|]; cbn [digits2_pos].
  - rewrite Pos2Z.inj_succ. change (Z.pos p~1) with (2 * Z.pos p + 1).
    replace (Z.succ (Z.pos (digits2_pos p)) - 1)
      with (Z.succ (Z.pos (digits2_pos p) - 1)) by lia.
    rewrite !Z.pow_succ_r by lia.
    generalize dependent (2 ^ (Z.pos (digits2_pos p) - 1)).
    generalize (2 ^ Z.pos (digits2_pos p)). intros; lia.
  - rewrite Pos2Z.inj_succ. change (Z.pos p~0) with (2 * Z.pos p).
    replace (Z.succ (Z.pos (digits2_pos p)) - 1)
      with (Z.succ (Z.pos (digits2_pos p) - 1)) by lia.
    rewrite !Z.pow_succ_r by lia.
    generalize dependent (2 ^ (Z.pos (digits2_pos p) - 1)).
    generalize (2 ^ Z.pos (digits2_pos p)). intros; lia.
  - simpl. lia.
Qed.

Lemma digits2_shiftl (q : positive) (k : nat) :
  Z.pos (digits2_pos (Pos.shiftl_nat q k))
  = Z.pos (digits2_pos q) + Z.of_nat k.
Proof.
  induction k as [|k IH]; [simpl; lia|].
  change (Pos.shiftl_nat q (S k)) with (xO (Pos.shiftl_nat q k)).
  cbn [digits2_pos]. rewrite Pos2Z.inj_succ, IH. lia.
Qed.

Lemma shiftl_nat_inj (p q : positive) (k : nat) :
  Pos.shiftl_nat p k = Pos.shiftl_nat q k -> p = q.
Proof.
  induction k as [|k IH]; [auto|].
  change (xO (Pos.shiftl_nat p k) = xO (Pos.shiftl_nat q k) -> p = q).
  intros [= H]. auto.
Qed.

Lemma shiftl_nat_add (p : positive) (a b : nat) :
  Pos.shiftl_nat (Pos.shiftl_nat p a) b = Pos.shiftl_nat p (a + b).
Proof.
  induction b as [|b IH]; [now rewrite Nat.add_0_r|].
  rewrite Nat.add_succ_r.
  change (xO (Pos.shiftl_nat (Pos.shiftl_nat p a) b)
          = xO (Pos.shiftl_nat p (a + b))).
  now rewrite IH.
Qed.

(** A mantissa of 53 digits followed by [k] zero bits rounds to itself. *)
Lemma binary_round_aux_exact (s : bool) (q : positive) (k : nat) (e : Z) :
  Z.pos (digits2_pos q) = 53 ->
  -1074 <= e + Z.of_nat k <= 971 ->
  binary_round_aux prec emax s (Z.pos (Pos.shiftl_nat q k)) e loc_Exact
  = S754_finite s q (e + Z.of_nat k).
Proof.
  intros Hd He. unfold binary_round_aux, shr_fexp.
  cbn [Zdigits2 shr_record_of_loc]. rewrite digits2_shiftl, Hd.
  assert (Hf : fexp prec emax (53 + Z.of_nat k + e) - e = Z.of_nat k).
  { unfold fexp, emin, prec, emax. lia. }
  rewrite Hf.
  assert (Hs : shr {| shr_m := Z.pos (Pos.shiftl_nat q k);
                      shr_r := false; shr_s := false |} e (Z.of_nat k)
               = ({| shr_m := Z.pos q; shr_r := false; shr_s := false |},
                  e + Z.of_nat k)).
  { destruct k as [|k]; [cbn [shr Z.of_nat]; f_equal; lia|].
    unfold shr. rewrite Nat2Z.inj_succ, <- Zpos_P_of_succ_nat.
    rewrite iter_pos_nat, SuccNat2Pos.id_succ, shr_exact. reflexivity. }
  rewrite Hs. cbn [shr_m loc_of_shr_record round_nearest_even Zdigits2
                     shr_record_of_loc].
  rewrite Hd.
  assert (Hf' : fexp prec emax (53 + (e + Z.of_nat k)) - (e + Z.of_nat k) = 0).
  { unfold fexp, emin, prec, emax. lia. }
  rewrite Hf'. cbn [shr shr_m].
  assert (Hle : (e + Z.of_nat k <=? emax - prec) = true).
  { apply Z.leb_le. unfold emax, prec. lia. }
  rewrite Hle. reflexivity.
Qed.

(** [binary_round] gives the 53-digit mantissa of the same value. *)
Lemma binary_round_exact (s : bool) (m q : positive) (e e' : Z) (i j : nat) :
  Z.pos (digits2_pos q) = 53 ->
  Pos.shiftl_nat m i = Pos.shiftl_nat q j ->
  e' = e - Z.of_nat i + Z.of_nat j ->
  -1074 <= e' <= 971 ->
  binary_round prec emax s m e = S754_finite s q e'.
Proof.
  intros Hd Hv He' Hr.
  assert (Hdm : Z.pos (digits2_pos m) + Z.of_nat i = 53 + Z.of_nat j).
  { rewrite <- Hd, <- !digits2_shiftl, Hv. reflexivity. }
  unfold binary_round.
  assert (Hf : fexp prec emax (Z.pos (digits2_pos m) + e) = e'). 
  { unfold fexp, emin, prec, emax. lia. }
  rewrite Hf. unfold shl_align.
  destruct (e' - e) as [|d|d] eqn:Ed.
  - assert (i = j) by lia. subst j.
    apply shiftl_nat_inj in Hv. subst m.
    replace e with (e' + Z.of_nat 0) at 2 by (simpl; lia).
    replace e with e' by lia.
    change q with (Pos.shiftl_nat q 0) at 1.
    rewrite binary_round_aux_exact by (simpl; lia). f_equal. simpl. lia.
  - assert (Hji : (j = i + Pos.to_nat d)%nat) by lia.
    assert (Hm : m = Pos.shiftl_nat q (Pos.to_nat d)).
    { apply (@shiftl_nat_inj _ _ i). rewrite Hv, shiftl_nat_add. f_equal. lia. }
    rewrite Hm, binary_round_aux_exact by lia. f_equal. lia.
  - assert (Hij : (i = j + Pos.to_nat d)%nat) by lia.
    rewrite Pos2Nat.inj_iter.
    change (nat_rect (fun _ : nat => positive) m (fun _ : nat => xO)
              (Pos.to_nat d)) with (Pos.shiftl_nat m (Pos.to_nat d)).
    assert (Hq : Pos.shiftl_nat m (Pos.to_nat d) = q).
    { apply (@shiftl_nat_inj _ _ j). rewrite <- Hv, shiftl_nat_add. f_equal. lia. }
    rewrite Hq. change q with (Pos.shiftl_nat q 0) at 1.
    rewrite binary_round_aux_exact by (simpl; lia). f_equal. simpl. lia.
Qed.

Lemma digits2_le_53 (p : positive) :
  Z.pos p < 2 ^ 53 -> Z.pos (digits2_pos p) <= 53.
Proof.
  intros H. pose proof (@digits2_bounds p) as [B _].
  destruct (Z.leb_spec (Z.pos (digits2_pos p)) 53) as [|Hgt]; [assumption|].
  assert (2 ^ 53 <= 2 ^ (Z.pos (digits2_pos p) - 1))
    by (apply Z.pow_le_mono_r; lia). lia.
Qed.

Lemma digits2_mono (p q : positive) :
  (p <= q)%positive -> Z.pos (digits2_pos p) <= Z.pos (digits2_pos q).
Proof.
  intros H. pose proof (@digits2_bounds p) as [B _].
  pose proof (@digits2_bounds q) as [_ B'].
  destruct (Z.leb_spec (Z.pos (digits2_pos p)) (Z.pos (digits2_pos q)))
    as [|Hgt]; [assumption|].
  assert (2 ^ Z.pos (digits2_pos q) <= 2 ^ (Z.pos (digits2_pos p) - 1))
    by (apply Z.pow_le_mono_r; lia). lia.
Qed.

Lemma canon_pos_digits (p : positive) :
  Z.pos p < 2 ^ 53 -> Z.pos (digits2_pos (canon_pos p)) = 53.
Proof.
  intros H. apply digits2_le_53 in H. unfold canon_pos.
  rewrite digits2_shiftl. lia.
Qed.

Lemma cond_Zopp_shiftl (s : bool) (p : positive) (k : nat) :
  cond_Zopp s (Z.pos (Pos.shiftl_nat p k))
  = cond_Zopp s (Z.pos p) * 2 ^ Z.of_nat k.
Proof. rewrite shiftl_nat_Z. destruct s; cbn [cond_Zopp]; lia. Qed.

Lemma canon_signed (s : bool) (p : positive) (e : Z) :
  canon (cond_Zopp s (Z.pos p)) e
  = S754_finite s (canon_pos p) (canon_exp p e).
Proof. destruct s; reflexivity. Qed.

(** Normalising [a * 2^J] at exponent [e - J] gives the canonical double
    of [a * 2^e]. *)
Lemma normalize_shift (a : Z) (J : nat) (e : Z) :
  Z.abs a < 2 ^ 53 -> -1022 <= e <= 971 ->
  binary_normalize prec emax (a * 2 ^ Z.of_nat J) (e - Z.of_nat J) false
  = canon a e.
Proof.
  intros Ha He.
  assert (Hgen : forall s p, Z.pos p < 2 ^ 53 ->
            binary_round prec emax s (Pos.shiftl_nat p J) (e - Z.of_nat J)
            = S754_finite s (canon_pos p) (canon_exp p e)).
  { intros s p Hp. pose proof (@digits2_le_53 p Hp) as Hd.
    apply (@binary_round_exact s _ _ _ _
             (Z.to_nat (53 - Z.pos (digits2_pos p))) J).
    - now apply canon_pos_digits.
    - unfold canon_pos. rewrite !shiftl_nat_add. f_equal. lia.
    - unfold canon_exp. lia.
    - unfold canon_exp. pose proof (Pos2Z.is_pos (digits2_pos p)). lia. }
  destruct a as [|p|p].
  - reflexivity.
  - rewrite <- shiftl_nat_Z. cbn [binary_normalize canon]. apply Hgen.
    exact Ha.
  - replace (Z.neg p * 2 ^ Z.of_nat J) with (Z.neg (Pos.shiftl_nat p J)).
    2:{ rewrite <- !Pos2Z.opp_pos, shiftl_nat_Z. lia. }
    cbn [binary_normalize canon]. apply Hgen. exact Ha.
Qed.

Lemma normalize_canon (a e : Z) :
  Z.abs a < 2 ^ 53 -> -1022 <= e <= 971 ->
  binary_normalize prec emax a e false = canon a e.
Proof.
  intros Ha He. rewrite <- (@normalize_shift a 0 e Ha He).
  f_equal; simpl; lia.
Qed.

Lemma canon_valid (a e : Z) :
  Z.abs a < 2 ^ 53 -> -1022 <= e <= 971 ->
  valid_binary (canon a e) = true.
Proof.
  intros Ha He.
  assert (H : forall p, Z.pos p < 2 ^ 53 ->
                        bounded prec emax (canon_pos p) (canon_exp p e) = true).
  { intros p Hp. unfold bounded, canonical_mantissa.
    rewrite canon_pos_digits by assumption.
    pose proof (@digits2_le_53 p Hp). pose proof (Pos2Z.is_pos (digits2_pos p)).
    apply andb_true_intro. split.
    - apply Z.eqb_eq. unfold fexp, emin, prec, emax, canon_exp. lia.
    - apply Z.leb_le. unfold prec, emax, canon_exp. lia. }
  unfold valid_binary.
  destruct a as [|p|p]; cbn [canon SpecFloat.valid_binary]; auto.
Qed.

Lemma dyadic_spec (a e : Z) :
  Z.abs a < 2 ^ 53 -> -1022 <= e <= 971 ->
  Prim2SF (dyadic a e) = canon a e.
Proof.
  intros Ha He. unfold dyadic. rewrite normalize_canon by assumption.
  apply Prim2SF_SF2Prim. now apply canon_valid.
Qed.

Lemma dyadic_intro (x : float) (a e : Z) :
  Z.abs a < 2 ^ 53 -> -1022 <= e <= 971 ->
  Prim2SF x = canon a e -> x = dyadic a e.
Proof.
  intros Ha He H. apply Prim2SF_inj. now rewrite dyadic_spec.
Qed.

(** Alignment of a canonical mantissa to a lower exponent. *)
Lemma shl_align_canon (p : positive) (e : Z) (J : nat) :
  53 - Z.pos (digits2_pos p) <= Z.of_nat J ->
  Z.pos (digits2_pos p) <= 53 ->
  shl_align (canon_pos p) (canon_exp p e) (e - Z.of_nat J)
  = (Pos.shiftl_nat p J, e - Z.of_nat J).
Proof.
  intros HJ Hd. unfold shl_align, canon_exp.
  destruct (e - Z.of_nat J - (e - (53 - Z.pos (digits2_pos p))))
    as [|d|d] eqn:Ed.
  - f_equal; [|lia]. unfold canon_pos. f_equal. lia.
  - lia.
  - f_equal. rewrite Pos2Nat.inj_iter.
    change (nat_rect (fun _ : nat => positive) (canon_pos p)
              (fun _ : nat => xO) (Pos.to_nat d))
      with (Pos.shiftl_nat (canon_pos p) (Pos.to_nat d)).
    unfold canon_pos. rewrite shiftl_nat_add. f_equal. lia.
Qed.

Lemma SFadd_finite (sa sb : bool) (pa pb : positive) (e : Z) :
  Z.pos pa < 2 ^ 53 -> Z.pos pb < 2 ^ 53 ->
  Z.abs (cond_Zopp sa (Z.pos pa) + cond_Zopp sb (Z.pos pb)) < 2 ^ 53 ->
  -1022 <= e <= 971 ->
  SFadd prec emax (S754_finite sa (canon_pos pa) (canon_exp pa e))
                  (S754_finite sb (canon_pos pb) (canon_exp pb e))
  = canon (cond_Zopp sa (Z.pos pa) + cond_Zopp sb (Z.pos pb)) e.
Proof.
  intros Ha Hb Hs He.
  pose proof (@digits2_le_53 pa Ha) as Da. pose proof (@digits2_le_53 pb Hb) as Db.
  cbn [SFadd].
  set (J := Z.to_nat (Z.max (53 - Z.pos (digits2_pos pa))
                            (53 - Z.pos (digits2_pos pb)))).
  assert (Hez : Z.min (canon_exp pa e) (canon_exp pb e) = e - Z.of_nat J).
  { unfold canon_exp, J. lia. }
  rewrite Hez.
  rewrite !shl_align_canon by (unfold J; lia). cbn [fst].
  rewrite !cond_Zopp_shiftl, <- Z.mul_add_distr_r.
  now apply normalize_shift.
Qed.

Lemma SFadd_canon (a b e : Z) :
  Z.abs a < 2 ^ 53 -> Z.abs b < 2 ^ 53 -> Z.abs (a + b) < 2 ^ 53 ->
  -1022 <= e <= 971 ->
  SFadd prec emax (canon a e) (canon b e) = canon (a + b) e.
Proof.
  intros Ha Hb Hs He.
  destruct a as [|pa|pa], b as [|pb|pb]; try reflexivity.
  - change (canon (Z.pos pa) e)
      with (S754_finite false (canon_pos pa) (canon_exp pa e)).
    change (canon (Z.pos pb) e)
      with (S754_finite false (canon_pos pb) (canon_exp pb e)).
    now apply (@SFadd_finite false false).
  - change (canon (Z.pos pa) e)
      with (S754_finite false (canon_pos pa) (canon_exp pa e)).
    change (canon (Z.neg pb) e)
      with (S754_finite true (canon_pos pb) (canon_exp pb e)).
    now apply (@SFadd_finite false true).
  - change (canon (Z.neg pa) e)
      with (S754_finite true (canon_pos pa) (canon_exp pa e)).
    change (canon (Z.pos pb) e)
      with (S754_finite false (canon_pos pb) (canon_exp pb e)).
    now apply (@SFadd_finite true false).
  - change (canon (Z.neg pa) e)
      with (S754_finite true (canon_pos pa) (canon_exp pa e)).
    change (canon (Z.neg pb) e)
      with (S754_finite true (canon_pos pb) (canon_exp pb e)).
    now apply (@SFadd_finite true true).
Qed.

Lemma SFsub_SFadd (x y : spec_float) :
  SFsub prec emax x y = SFadd prec emax x (SFopp y).
Proof.
  destruct x as [[|]|[|]| |[|] mx ex], y as [[|]|[|]| |[|] my ey];
    reflexivity.
Qed.

Lemma SFopp_canon (a e : Z) : SFopp (canon a e) = canon (- a) e \/ a = 0.
Proof. destruct a; [now right | now left | now left]. Qed.

Lemma SFsub_canon (a b e : Z) :
  Z.abs a < 2 ^ 53 -> Z.abs b < 2 ^ 53 -> Z.abs (a - b) < 2 ^ 53 ->
  -1022 <= e <= 971 ->
  SFsub prec emax (canon a e) (canon b e) = canon (a - b) e.
Proof.
  intros Ha Hb Hs He.
  destruct (Z.eq_dec b 0) as [->|Hb0].
  - rewrite Z.sub_0_r. destruct a; reflexivity.
  - rewrite SFsub_SFadd. destruct (@SFopp_canon b e) as [->|]; [|contradiction].
    apply SFadd_canon; auto; lia.
Qed.

(** Products. *)
Lemma SFmul_finite (sa sb : bool) (pa pb : positive) (e1 e2 : Z) :
  Z.pos (pa * pb) < 2 ^ 53 ->
  -1022 <= e1 + e2 <= 971 ->
  SFmul prec emax (S754_finite sa (canon_pos pa) (canon_exp pa e1))
                  (S754_finite sb (canon_pos pb) (canon_exp pb e2))
  = S754_finite (xorb sa sb) (canon_pos (pa * pb))
      (canon_exp (pa * pb) (e1 + e2)).
Proof.
  intros Hab He.
  assert (Ha : Z.pos pa < 2 ^ 53) by nia.
  assert (Hb : Z.pos pb < 2 ^ 53) by nia.
  pose proof (@digits2_le_53 pa Ha) as Da. pose proof (@digits2_le_53 pb Hb) as Db.
  pose proof (@digits2_le_53 _ Hab) as Dab.
  assert (Dm : Z.pos (digits2_pos pa) <= Z.pos (digits2_pos (pa * pb))).
  { apply digits2_mono. nia. }
  pose proof (Pos2Z.is_pos (digits2_pos pa)).
  pose proof (Pos2Z.is_pos (digits2_pos pb)).
  cbn [SFmul].
  set (k := Z.to_nat (53 - Z.pos (digits2_pos pa) + (53 - Z.pos (digits2_pos pb))
                      - (53 - Z.pos (digits2_pos (pa * pb))))).
  assert (Hm : (canon_pos pa * canon_pos pb)%positive
               = Pos.shiftl_nat (canon_pos (pa * pb)) k).
  { apply Pos2Z.inj. unfold canon_pos.
    rewrite Pos2Z.inj_mul, !shiftl_nat_Z, Pos2Z.inj_mul.
    rewrite <- !Z.mul_assoc. f_equal.
    rewrite (Z.mul_comm (2 ^ _) (Z.pos pb * _)), <- !Z.mul_assoc. f_equal.
    rewrite <- !Z.pow_add_r by lia. f_equal. unfold k. lia. }
  rewrite Hm, binary_round_aux_exact.
  - f_equal. unfold canon_exp, k. lia.
  - now apply canon_pos_digits.
  - unfold canon_exp, k. lia.
Qed.

Lemma SFmul_canon (a b e1 e2 : Z) :
  a <> 0 -> b <> 0 -> Z.abs (a * b) < 2 ^ 53 ->
  -1022 <= e1 + e2 <= 971 ->
  SFmul prec emax (canon a e1) (canon b e2) = canon (a * b) (e1 + e2).
Proof.
  intros Ha Hb Hab He.
  destruct a as [|pa|pa], b as [|pb|pb]; try contradiction;
    cbn [canon Z.mul]; rewrite SFmul_finite; auto.
Qed.

Lemma SFmul_canon_square (a e : Z) :
  Z.abs (a * a) < 2 ^ 53 -> -1022 <= e + e <= 971 ->
  SFmul prec emax (canon a e) (canon a e) = canon (a * a) (e + e).
Proof.
  intros Ha He. destruct (Z.eq_dec a 0) as [->|H0]; [reflexivity|].
  now apply SFmul_canon.
Qed.

(** Comparison. *)
Lemma canon_compare_pos (pa pb : positive) (e : Z) :
  Z.pos pa < 2 ^ 53 -> Z.pos pb < 2 ^ 53 ->
  match canon_exp pa e ?= canon_exp pb e with
  | Lt => Lt
  | Gt => Gt
  | Eq => Pos.compare_cont Eq (canon_pos pa) (canon_pos pb)
  end = (pa ?= pb)%positive.
Proof.
  intros Ha Hb.
  pose proof (@digits2_bounds pa) as [A1 A2].
  pose proof (@digits2_bounds pb) as [B1 B2].
  unfold canon_exp. destruct (Z.compare_spec
    (e - (53 - Z.pos (digits2_pos pa))) (e - (53 - Z.pos (digits2_pos pb))))
    as [H|H|H].
  - change (Pos.compare_cont Eq (canon_pos pa) (canon_pos pb))
      with (canon_pos pa ?= canon_pos pb)%positive.
    unfold canon_pos. replace (Z.pos (digits2_pos pb))
      with (Z.pos (digits2_pos pa)) by lia.
    rewrite !Pos2Z.inj_compare, !shiftl_nat_Z.
    symmetry. apply Zmult_compare_compat_r. apply Z.lt_gt.
    apply Z.pow_pos_nonneg; lia.
  - symmetry. apply Pos.compare_lt_iff.
    assert (2 ^ Z.pos (digits2_pos pa) <= 2 ^ (Z.pos (digits2_pos pb) - 1))
      by (apply Z.pow_le_mono_r; lia). lia.
  - symmetry. apply Pos.compare_gt_iff.
    assert (2 ^ Z.pos (digits2_pos pb) <= 2 ^ (Z.pos (digits2_pos pa) - 1))
      by (apply Z.pow_le_mono_r; lia). lia.
Qed.

Lemma canon_compare (a b e : Z) :
  Z.abs a < 2 ^ 53 -> Z.abs b < 2 ^ 53 ->
  SFcompare (canon a e) (canon b e) = Some (a ?= b).
Proof.
  intros Ha Hb.
  destruct a as [|pa|pa], b as [|pb|pb]; try reflexivity;
    cbn [canon SFcompare Z.compare]; f_equal.
  - now apply canon_compare_pos.
  - rewrite <- (@canon_compare_pos pa pb e) by assumption.
    destruct (canon_exp pa e ?= canon_exp pb e); reflexivity.
Qed.

(** ** The same, on doubles *)

Lemma dyadic_add (a b e : Z) :
  Z.abs a < 2 ^ 53 -> Z.abs b < 2 ^ 53 -> Z.abs (a + b) < 2 ^ 53 ->
  -1022 <= e <= 971 ->
  (dyadic a e + dyadic b e)%float = dyadic (a + b) e.
Proof.
  intros Ha Hb Hs He. apply dyadic_intro; auto.
  rewrite add_spec, !dyadic_spec by assumption. now apply SFadd_canon.
Qed.

Lemma dyadic_sub (a b e : Z) :
  Z.abs a < 2 ^ 53 -> Z.abs b < 2 ^ 53 -> Z.abs (a - b) < 2 ^ 53 ->
  -1022 <= e <= 971 ->
  (dyadic a e - dyadic b e)%float = dyadic (a - b) e.
Proof.
  intros Ha Hb Hs He. apply dyadic_intro; auto.
  rewrite sub_spec, !dyadic_spec by assumption. now apply SFsub_canon.
Qed.

Lemma dyadic_mul (a b e1 e2 : Z) :
  a <> 0 -> b <> 0 -> Z.abs (a * b) < 2 ^ 53 ->
  -1022 <= e1 <= 971 -> -1022 <= e2 <= 971 -> -1022 <= e1 + e2 <= 971 ->
  (dyadic a e1 * dyadic b e2)%float = dyadic (a * b) (e1 + e2).
Proof.
  intros Ha Hb Hab H1 H2 H12. apply dyadic_intro; auto.
  rewrite mul_spec, !dyadic_spec by (auto; nia). now apply SFmul_canon.
Qed.

Lemma dyadic_square (a e : Z) :
  Z.abs (a * a) < 2 ^ 53 -> -1022 <= e <= 971 -> -1022 <= e + e <= 971 ->
  (dyadic a e * dyadic a e)%float = dyadic (a * a) (e + e).
Proof.
  intros Ha H1 H2. apply dyadic_intro; auto.
  rewrite mul_spec, !dyadic_spec by (auto; nia). now apply SFmul_canon_square.
Qed.

Lemma dyadic_leb (a b e : Z) :
  Z.abs a < 2 ^ 53 -> Z.abs b < 2 ^ 53 -> -1022 <= e <= 971 ->
  (dyadic a e <=? dyadic b e)%float = (a <=? b).
Proof.
  intros Ha Hb He. rewrite leb_spec, !dyadic_spec by assumption.
  unfold SFleb. rewrite canon_compare by assumption.
  unfold Z.leb. destruct (a ?= b); reflexivity.
Qed.

Lemma dyadic_ltb (a b e : Z) :
  Z.abs a < 2 ^ 53 -> Z.abs b < 2 ^ 53 -> -1022 <= e <= 971 ->
  (dyadic a e <? dyadic b e)%float = (a <? b).
Proof.
  intros Ha Hb He. rewrite ltb_spec, !dyadic_spec by assumption.
  unfold SFltb. rewrite canon_compare by assumption.
  unfold Z.ltb. destruct (a ?= b); reflexivity.
Qed.

Lemma dyadic_shift (a e : Z) (k : nat) :
  Z.abs (a * 2 ^ Z.of_nat k) < 2 ^ 53 ->
  -1022 <= e <= 971 -> -1022 <= e - Z.of_nat k <= 971 ->
  dyadic (a * 2 ^ Z.of_nat k) (e - Z.of_nat k) = dyadic a e.
Proof.
  intros Ha He He'. unfold dyadic. f_equal.
  assert (Ha' : Z.abs a < 2 ^ 53).
  { assert (1 <= 2 ^ Z.of_nat k) by (apply Z.pow_le_mono_r with (b := 0); lia).
    rewrite Z.abs_mul in Ha. rewrite (Z.abs_eq (2 ^ _)) in Ha by lia. nia. }
  rewrite normalize_shift, normalize_canon by assumption. reflexivity.
Qed.

(** Division by a power of two: the divisor has mantissa [2^52]. *)
Lemma SFdiv_pow2_finite (s : bool) (p : positive) (e ey : Z) :
  Z.pos p < 2 ^ 53 ->
  -1021 <= canon_exp p e - ey - 52 <= 971 ->
  SFdiv prec emax (S754_finite s (canon_pos p) (canon_exp p e))
                  (S754_finite false 4503599627370496 ey)
  = S754_finite s (canon_pos p) (canon_exp p e - ey - 52).
Proof.
  intros Hp He. cbn [SFdiv]. unfold SFdiv_core_binary.
  cbn [Zdigits2]. rewrite (@canon_pos_digits p Hp).
  change (Z.pos (digits2_pos 4503599627370496)) with 53.
  set (E := canon_exp p e) in *.
  assert (He' : Z.min (fexp prec emax (53 + E - (53 + ey))) (E - ey)
                = E - ey - 53).
  { unfold fexp, emin, prec, emax. lia. }
  rewrite He'.
  replace (E - ey - (E - ey - 53)) with 53 by lia.
  rewrite Z.shiftl_mul_pow2 by lia.
  assert (Hdiv : Z.div_eucl (Z.pos (canon_pos p) * 2 ^ 53) 4503599627370496
                 = (Z.pos (xO (canon_pos p)), 0)).
  { rewrite (surjective_pairing (Z.div_eucl _ _)).
    change (fst (Z.div_eucl ?a ?b)) with (a / b).
    change (snd (Z.div_eucl ?a ?b)) with (a mod b).
    replace (Z.pos (canon_pos p) * 2 ^ 53)
      with (Z.pos (xO (canon_pos p)) * 4503599627370496)
      by (change (Z.pos (xO (canon_pos p))) with (2 * Z.pos (canon_pos p));
          change (2 ^ 53) with (2 * 4503599627370496); lia).
    rewrite Z.div_mul, Z.mod_mul by lia. reflexivity. }
  rewrite Hdiv. change (new_location 4503599627370496 0) with loc_Exact.
  change (xO (canon_pos p)) with (Pos.shiftl_nat (canon_pos p) 1).
  rewrite xorb_false_r.
  rewrite binary_round_aux_exact.
  - f_equal. simpl. lia.
  - now apply canon_pos_digits.
  - simpl. lia.
Qed.

Lemma dyadic_div_pow2 (a e ey : Z) (y : float) :
  Prim2SF y = S754_finite false 4503599627370496 ey ->
  Z.abs a < 2 ^ 53 -> -900 <= e <= 900 -> -900 <= e - ey - 52 <= 900 ->
  (dyadic a e / y)%float = dyadic a (e - ey - 52).
Proof.
  intros Hy Ha He He'. apply dyadic_intro; [assumption | lia |].
  rewrite div_spec, Hy, dyadic_spec by (auto; lia).
  pose proof (Pos2Z.is_pos 1) as H1.
  destruct a as [|p|p]; [reflexivity| |]; cbn [canon]; unfold SF64div;
    rewrite SFdiv_pow2_finite;
    try (f_equal; unfold canon_exp; lia); try exact Ha;
    pose proof (@digits2_le_53 p Ha); pose proof (Pos2Z.is_pos (digits2_pos p));
    unfold canon_exp; lia.
Qed.

(** The double of a whole-number rational, and of a multiple of
    [1 / 1024]. *)
Lemma float_of_Q_whole (q : Q) :
  Qden q = 1%positive -> Z.abs (Qnum q) < 2 ^ 53 ->
  float_of_Q q = dyadic (Qnum q) 0.
Proof.
  intros Hd Hn. unfold float_of_Q, float_of_Z. rewrite Hd.
  rewrite (@dyadic_div_pow2 (Qnum q) 0 (-52)); auto; lia.
Qed.

Lemma float_of_Q_1024 (m : Z) :
  Z.abs m < 2 ^ 53 -> float_of_Q (m # 1024) = dyadic m (-10).
Proof.
  intros Hm. unfold float_of_Q, float_of_Z. cbn [Qnum Qden].
  rewrite (@dyadic_div_pow2 m 0 (-42)); auto; lia.
Qed.

(** ** Quadtree: the stated properties, in the arithmetic of the code *)

(** C9. Inserting a point that lies outside the root's bounding rectangle
    -- by the test the code applies, whose far edges are the doubles
    [x + width] and [y + height] -- leaves the tree as it was, so every
    later [queryNearest] and [queryRect] answers as if the insert had not
    happened. *)
Theorem insert_outside_noop (T : Type) (qt : Quadtree T float) (it : T)
    (x y : float) :
  inBounds (bounds (root qt)) x y = false ->
  insert qt it x y = qt /\
  (forall qx qy radius,
      queryNearest (insert qt it x y) qx qy radius
      = queryNearest qt qx qy radius) /\
  (forall rect, queryRect (insert qt it x y) rect = queryRect qt rect).
Proof.
  intros H.
  assert (E : insert qt it x y = qt).
  { unfold insert. rewrite insertInto_outside by exact H.
    destruct qt; reflexivity. }
  rewrite E. auto.
Qed.

Lemma insert_outside_noop_witness :
  insert example_tree "Z" 150%float 10%float = example_tree /\
  (forall qx qy radius,
      queryNearest (insert example_tree "Z" 150%float 10%float) qx qy radius
      = queryNearest example_tree qx qy radius) /\
  (forall rect, queryRect (insert example_tree "Z" 150%float 10%float) rect
                = queryRect example_tree rect).
Proof.
  apply insert_outside_noop. vm_compute. reflexivity.
Defined.

(** C10 (as amended). Every entry held at a node or anywhere below it
    passes the code's [inBounds] test for that node's rectangle, edges
    included; this holds for a new quadtree and after every sequence of
    inserts, and so also after one more insert, whether it subdivides a
    leaf or not. *)
Theorem quadtree_well_formed (T : Type) (b : BBox float) (mi md : Z)
    (l : list (T * float * float)) :
  well_formed (root (quadtree_new T b mi md)) /\
  well_formed (root (insert_all (quadtree_new T b mi md) l)) /\
  forall it x y,
    well_formed (root (insert (insert_all (quadtree_new T b mi md) l) it x y)).
Proof.
  assert (H0 : well_formed (root (quadtree_new T b mi md))).
  { constructor. constructor. }
  assert (H1 : well_formed (root (insert_all (quadtree_new T b mi md) l))).
  { now apply insert_all_wf. }
  repeat split; auto.
  intros it x y. unfold insert. cbn [root].
  now apply insertInto_wf.
Qed.

(** C10 as stated fails on the rectangles: the north-east child of
    [example_overhang] starts at the double [0.1 + 2.1] and is [2.1]
    wide, so its right edge [4.300000000000001] lies beyond the right
    edge [4.3] of its parent. *)
Lemma quadtree_child_overhang :
  exists c cs,
    children (root example_overhang) = Some cs /\ In c cs /\
    rect_in (bounds c) (bounds (root example_overhang)) = false /\
    (b_x (bounds (root example_overhang))
     + b_width (bounds (root example_overhang))
     <? b_x (bounds c) + b_width (bounds c))%float = true.
Proof.
  eexists. eexists. split; [vm_compute; reflexivity|].
  split; [right; left; reflexivity|]. split; vm_compute; reflexivity.
Qed.




(** ** Lanes are never negative *)

Lemma in_set_inv {V : Type} (m : JsMap.t V) (k k' : string) (v v' : V) :
  In (k, v) (JsMap.set k' v' m) -> (k, v) = (k', v') \/ In (k, v) m.
Proof.
  induction m as [|[k0 v0] r IH]; simpl.
  - intros [H|[]]. left. congruence.
  - destruct (String.eqb k' k0) eqn:E; simpl.
    + apply String.eqb_eq in E. subst k0.
      intros [H|H]; [left; congruence | right; now right].
    + intros [H|H]; [right; now left|].
      destruct (IH H); [now left | right; now right].
Qed.

Lemma in_delete_inv {V : Type} (m : JsMap.t V) (k k' : string) (v : V) :
  In (k, v) (JsMap.delete k' m) -> In (k, v) m.
Proof.
  induction m as [|[k0 v0] r IH]; simpl; [tauto|].
  destruct (String.eqb k' k0); simpl; [now right|].
  intros [H|H]; [now left | right; auto].
Qed.

Lemma indexOf_null_from_range (lanes : list slot) :
  forall i, indexOf_null_from i lanes = -1 \/ i <= indexOf_null_from i lanes.
Proof.
  induction lanes as [|s r IH]; intros i; simpl; [now left|].
  destruct (slot_is_null s); [right; lia|].
  destruct (IH (i + 1)); [now left | right; lia].
Qed.

Lemma free_lane_nonneg (lanes : list slot) :
  0 <= (if indexOf_null lanes =? -1
        then Z.of_nat (List.length lanes) else indexOf_null lanes).
Proof.
  destruct (indexOf_null lanes =? -1) eqn:E; [lia|].
  apply Z.eqb_neq in E. unfold indexOf_null in *.
  destruct (indexOf_null_from_range lanes 0); lia.
Qed.

Lemma lane_parent_step_nonneg oidSet col i parent st :
  0 <= col -> lanes_nonneg st ->
  lanes_nonneg (lane_parent_step oidSet col i parent st).
Proof.
  intros Hc [Hcols Hres]. unfold lane_parent_step.
  destruct (negb (set_has oidSet parent)); [split; assumption|].
  destruct (JsMap.has parent (columns st) || JsMap.has parent (reservations st));
    [split; assumption|].
  pose proof (free_lane_nonneg (activeLanes st)) as Hfree.
  destruct ((i =? 0) && lane_is_null (activeLanes st) col).
  - split; cbn [columns reservations]; [assumption|].
    intros k v Hin. apply in_set_inv in Hin.
    destruct Hin as [Hin|Hin]; [inversion Hin; subst; assumption | eauto].
  - destruct (indexOf_null (activeLanes st) =? -1);
      (split; cbn [columns reservations]; [assumption|]);
      intros k v Hin; apply in_set_inv in Hin;
      (destruct Hin as [Hin|Hin]; [inversion Hin; subst; assumption | eauto]).
Qed.

Lemma lane_parents_nonneg oidSet col :
  forall ps i st,
    0 <= col -> lanes_nonneg st ->
    lanes_nonneg (lane_parents oidSet col i ps st).
Proof.
  induction ps as [|p ps IH]; intros i st Hc Hst; simpl; [assumption|].
  apply IH; [assumption|]. now apply lane_parent_step_nonneg.
Qed.

Lemma lane_commit_step_nonneg oidSet st commit :
  lanes_nonneg st -> lanes_nonneg (lane_commit_step oidSet st commit).
Proof.
  intros [Hcols Hres]. unfold lane_commit_step.
  destruct (JsMap.get (oid commit) (reservations st)) as [v|] eqn:Eg;
    cbn [nullish].
  - assert (Hv : 0 <= v) by (apply JsMapFacts.get_in in Eg; eauto).
    assert (Hne : (v =? -1) = false) by (apply Z.eqb_neq; lia).
    rewrite Hne. cbn [negb].
    apply lane_parents_nonneg; [assumption|].
    split; cbn [columns reservations].
    + intros k w Hin. apply in_set_inv in Hin.
      destruct Hin as [Hin|Hin]; [inversion Hin; subst; assumption | eauto].
    + intros k w Hin. apply in_delete_inv in Hin. eauto.
  - change (-1 =? -1) with true. cbn [negb].
    pose proof (free_lane_nonneg (activeLanes st)) as Hfree.
    destruct (indexOf_null (activeLanes st) =? -1);
      (apply lane_parents_nonneg; [assumption|]);
      (split; cbn [columns reservations]; [|assumption]);
      intros k w Hin; apply in_set_inv in Hin;
      (destruct Hin as [Hin|Hin]; [inversion Hin; subst; assumption | eauto]).
Qed.

Lemma assignColumns_nonneg (commits : list CommitNode) (k : string) (v : Z) :
  JsMap.get k (assignColumns commits) = Some v -> 0 <= v.
Proof.
  unfold assignColumns. intros H. apply JsMapFacts.get_in in H.
  assert (Hinv : forall l st, lanes_nonneg st ->
            lanes_nonneg (fold_left (lane_commit_step (map oid commits)) l st)).
  { induction l as [|c l IH]; intros st Hst; simpl; [assumption|].
    apply IH. now apply lane_commit_step_nonneg. }
  destruct (Hinv (sort_by_time_desc commits)
              (mkLaneState JsMap.empty [] JsMap.empty)) as [Hcols _].
  - split; simpl; tauto.
  - eauto.
Qed.

(** ** Round trip through the spatial index *)

Lemma mapi_from_in {A B : Type} (f : A -> Z -> B) (l : list A) :
  forall i n,
    In n (mapi_from f i l) ->
    exists k a, nth_error l k = Some a /\ n = f a (i + Z.of_nat k).
Proof.
  induction l as [|a r IH]; intros i n H; simpl in H; [contradiction|].
  destruct H as [<-|H].
  - exists O, a. split; [reflexivity|]. f_equal. simpl. lia.
  - destruct (IH _ _ H) as [k [a' [Hk ->]]].
    exists (S k), a'. split; [assumption|]. f_equal. lia.
Qed.

Lemma fold_max_ge (l : list Z) (z : Z) : In z l -> z <= fold_right Z.max 0 l.
Proof.
  induction l as [|a r IH]; simpl; [tauto|].
  intros [->|H]; [lia|]. specialize (IH H). lia.
Qed.

Lemma Qmax2_ge_l (a b : Q) : (a <= Qmax2 a b)%Q.
Proof.
  unfold Qmax2. destruct (Qle_bool a b) eqn:E.
  - now apply Qle_bool_iff.
  - apply Qle_refl.
Qed.

(** Shape of the layout of a non-empty list. *)
Lemma computeLayout_nonempty (commits : list CommitNode) :
  commits <> [] ->
  let ns := mapi (layout_node (assignColumns commits)) (sort_by_time_desc commits) in
  nodes (computeLayout commits) = ns /\
  width (computeLayout commits)
  = Qmax2 (padding * 2 + inject_Z (fold_right Z.max 0 (map n_col ns)) * colSpacing) 200 /\
  height (computeLayout commits)
  = Qmax2 (padding * 2 + (inject_Z (Z.of_nat (List.length ns)) - 1) * rowSpacing) 200.
Proof.
  intros H. unfold computeLayout.
  destruct commits as [|c cs]; [congruence|].
  change (List.length (c :: cs) =? 0)%nat with false. cbv iota.
  cbn [nodes width height]. auto.
Qed.

(** Two layout nodes at the same height are the same node. *)
Lemma layout_node_same_y (commits : list CommitNode) (n n' : LayoutNode) :
  commits <> [] ->
  In n (nodes (computeLayout commits)) ->
  In n' (nodes (computeLayout commits)) ->
  (n_y n' == n_y n)%Q -> n' = n.
Proof.
  intros Hne Hn Hn' Hy.
  destruct (computeLayout_nonempty Hne) as [Hns _].
  rewrite Hns in Hn, Hn'. unfold mapi in Hn, Hn'.
  destruct (mapi_from_in _ _ _ _ Hn) as [k [c [Hk ->]]].
  destruct (mapi_from_in _ _ _ _ Hn') as [k' [c' [Hk' ->]]].
  cbn [n_y layout_node] in Hy. unfold padding, rowSpacing in Hy.
  assert (Hq : (inject_Z (0 + Z.of_nat k') == inject_Z (0 + Z.of_nat k))%Q).
  { set (q' := inject_Z (0 + Z.of_nat k')) in *. clearbody q'.
    set (q := inject_Z (0 + Z.of_nat k)) in *. clearbody q.
    clear - Hy. lra. }
  apply (proj1 (inject_Z_injective _ _)) in Hq.
  assert (k' = k) by (clear - Hq; lia). subst k'. congruence.
Qed.

Lemma buildSpatialIndex_insert_all (N : Type) {num : Num N}
    (layout : GraphLayout) :
  buildSpatialIndex N layout
  = insert_all
      (quadtree_new LayoutNode
         (mkBBox (of_Q 0) (of_Q 0)
                 (of_Q (width layout) + of_Q 200)%num
                 (of_Q (height layout) + of_Q 200)%num) 4 10)
      (map (fun n => (n, of_Q (n_x n), of_Q (n_y n))) (nodes layout)).
Proof.
  unfold buildSpatialIndex, insert_all.
  generalize (quadtree_new LayoutNode
                (mkBBox (of_Q 0) (of_Q 0)
                   (of_Q (width layout) + of_Q 200)%num
                   (of_Q (height layout) + of_Q 200)%num) 4 10).
  induction (nodes layout) as [|n ns IH]; intros qt; simpl; [reflexivity|].
  apply IH.
Qed.

(** Every layout node lies within the layout's width and height. *)
Lemma layout_node_in_box (commits : list CommitNode) (n : LayoutNode) :
  commits <> [] ->
  In n (nodes (computeLayout commits)) ->
  (0 <= n_x n /\ n_x n <= width (computeLayout commits) + 200 /\
   0 <= n_y n /\ n_y n <= height (computeLayout commits) + 200)%Q.
Proof.
  intros Hne Hn.
  destruct (computeLayout_nonempty Hne) as [Hns [Hw Hh]].
  rewrite Hw, Hh. rewrite Hns in Hn. clear Hw Hh Hns.
  set (ns := mapi (layout_node (assignColumns commits))
               (sort_by_time_desc commits)) in *.
  assert (Hcol_le : n_col n <= fold_right Z.max 0 (map n_col ns)).
  { apply fold_max_ge. now apply in_map. }
  unfold ns, mapi in Hn. destruct (mapi_from_in _ _ _ _ Hn) as [k [c [Hk Hn']]].
  assert (Hklt : (k < List.length ns)%nat).
  { unfold ns, mapi. rewrite mapi_from_length. apply nth_error_Some. congruence. }
  assert (Hcol_ge : 0 <= n_col n).
  { subst n. cbn [n_col layout_node].
    destruct (JsMap.get (oid c) (assignColumns commits)) as [v|] eqn:Eg;
      cbn [nullish]; [|lia].
    eapply assignColumns_nonneg; eauto. }
  assert (Hx : n_x n = (padding + inject_Z (n_col n) * colSpacing)%Q)
    by (subst n; reflexivity).
  assert (Hy : n_y n = (padding + inject_Z (Z.of_nat k) * rowSpacing)%Q)
    by (subst n; reflexivity).
  rewrite Hx, Hy.
  generalize dependent (fold_right Z.max 0 (map n_col ns)). intros maxCol Hcol_le.
  pose proof (Qmax2_ge_l (padding * 2 + inject_Z maxCol * colSpacing) 200) as Hw.
  pose proof (Qmax2_ge_l
                (padding * 2 + (inject_Z (Z.of_nat (List.length ns)) - 1) * rowSpacing)
                200) as Hh.
  rewrite Zle_Qle in Hcol_le, Hcol_ge.
  assert (Hk1 : (inject_Z (Z.of_nat k) + 1 <= inject_Z (Z.of_nat (List.length ns)))%Q).
  { change 1%Q with (inject_Z 1). rewrite <- inject_Z_plus, <- Zle_Qle. lia. }
  assert (Hk0 : (0 <= inject_Z (Z.of_nat k))%Q).
  { change 0%Q with (inject_Z 0). rewrite <- Zle_Qle. lia. }
  change (inject_Z 0) with 0%Q in Hcol_ge.
  unfold padding, colSpacing, rowSpacing in *.
  clear Hx Hy Hn Hn' Hk Hklt.
  set (qc := inject_Z (n_col n)) in *. clearbody qc.
  set (qm := inject_Z maxCol) in *. clearbody qm.
  set (qk := inject_Z (Z.of_nat k)) in *. clearbody qk.
  set (ql := inject_Z (Z.of_nat (List.length ns))) in *. clearbody ql.
  set (mw := Qmax2 (60 * 2 + qm * 80) 200) in *. clearbody mw.
  set (mh := Qmax2 (60 * 2 + (ql - 1) * 70) 200) in *. clearbody mh.
  clear - Hcol_ge Hcol_le Hw Hh Hk1 Hk0.
  split; [lra|]. split; [lra|]. split; lra.
Qed.

(** The numbers of a layout are whole. *)
Lemma layout_whole (commits : list CommitNode) :
  commits <> [] ->
  Qden (width (computeLayout commits)) = 1%positive /\
  Qden (height (computeLayout commits)) = 1%positive /\
  forall n, In n (nodes (computeLayout commits)) ->
            Qden (n_x n) = 1%positive /\ Qden (n_y n) = 1%positive.
Proof.
  intros Hne. destruct (computeLayout_nonempty Hne) as [Hns [Hw Hh]].
  rewrite Hw, Hh, Hns. split; [|split].
  - unfold Qmax2. destruct (Qle_bool _ _); reflexivity.
  - unfold Qmax2. destruct (Qle_bool _ _); reflexivity.
  - intros n Hn. unfold mapi in Hn.
    destruct (mapi_from_in _ _ _ _ Hn) as [k [c [_ ->]]].
    split; reflexivity.
Qed.

(** Whole coordinates of a layout of bounded size. *)
Lemma layout_node_whole (commits : list CommitNode) (n : LayoutNode) :
  commits <> [] ->
  (width (computeLayout commits) <= 33554432)%Q ->
  (height (computeLayout commits) <= 33554432)%Q ->
  In n (nodes (computeLayout commits)) ->
  Qden (n_x n) = 1%positive /\ Qden (n_y n) = 1%positive /\
  0 <= Qnum (n_x n) <= Qnum (width (computeLayout commits)) + 200 /\
  0 <= Qnum (n_y n) <= Qnum (height (computeLayout commits)) + 200 /\
  Qden (width (computeLayout commits)) = 1%positive /\
  Qden (height (computeLayout commits)) = 1%positive /\
  Qnum (width (computeLayout commits)) <= 33554432 /\
  Qnum (height (computeLayout commits)) <= 33554432.
Proof.
  intros Hne Hw Hh Hn.
  destruct (@layout_whole commits Hne) as [Dw [Dh Dn]].
  destruct (Dn n Hn) as [Dx Dy].
  destruct (@layout_node_in_box commits n Hne Hn) as [X0 [X1 [Y0 Y1]]].
  set (W := width (computeLayout commits)) in *.
  set (H := height (computeLayout commits)) in *.
  clearbody W H.
  destruct W as [wn wd], H as [hn hd], (n_x n) as [xn xd], (n_y n) as [yn yd].
  cbn [Qnum Qden] in *. subst.
  unfold Qle, Qplus in *. cbn [Qnum Qden] in *.
  repeat split; try reflexivity; lia.
Qed.

(** The code's tests on doubles that are multiples of [2^e]. *)
Lemma inBounds_dyadic (e bx bY bw bh X Y : Z) :
  -1022 <= e <= 971 ->
  Z.abs bx < 2 ^ 52 -> Z.abs bY < 2 ^ 52 ->
  Z.abs bw < 2 ^ 52 -> Z.abs bh < 2 ^ 52 ->
  Z.abs X < 2 ^ 52 -> Z.abs Y < 2 ^ 52 ->
  inBounds (mkBBox (dyadic bx e) (dyadic bY e) (dyadic bw e) (dyadic bh e))
           (dyadic X e) (dyadic Y e)
  = (bx <=? X) && (X <=? bx + bw) && (bY <=? Y) && (Y <=? bY + bh).
Proof.
  intros He Hbx Hby Hbw Hbh HX HY.
  assert (H52 : 2 ^ 52 + 2 ^ 52 = 2 ^ 53) by reflexivity.
  unfold inBounds. cbn [b_x b_y b_width b_height nadd nleb float_num].
  rewrite !dyadic_add by lia. rewrite !dyadic_leb by lia. reflexivity.
Qed.

Lemma entry_dist_dyadic (T : Type) (it : T) (X Y X' Y' : Z) :
  0 <= X <= 33554632 -> 0 <= Y <= 33554632 ->
  0 <= X' <= 33554632 -> 0 <= Y' <= 33554632 ->
  entry_dist (dyadic X 0) (dyadic Y 0) (mkEntry it (dyadic X' 0) (dyadic Y' 0))
  = dyadic ((X' - X) * (X' - X) + (Y' - Y) * (Y' - Y)) 0.
Proof.
  intros HX HY HX' HY'.
  assert (H53 : 2 ^ 53 = 9007199254740992) by reflexivity.
  unfold entry_dist. cbn [ent_x ent_y nadd nsub nmul float_num].
  rewrite !dyadic_sub by lia.
  rewrite !dyadic_square by nia. cbn [Z.add].
  rewrite dyadic_add by nia. reflexivity.
Qed.

Lemma in_square_dyadic (T : Type) (it : T) (X Y m : Z) :
  0 <= X <= 33554632 -> 0 <= Y <= 33554632 -> 1 <= m <= 67108864 ->
  in_square (dyadic X 0) (dyadic Y 0) (dyadic m (-10))
            (mkEntry it (dyadic X 0) (dyadic Y 0)) = true.
Proof.
  intros HX HY Hm.
  assert (H53 : 2 ^ 53 = 9007199254740992) by reflexivity.
  assert (H52 : 2 ^ 52 = 4503599627370496) by reflexivity.
  assert (Hs : forall a, 0 <= a <= 33554632 ->
                         dyadic a 0 = dyadic (a * 1024) (-10)).
  { intros a Ha. symmetry. apply (@dyadic_shift a 0 10); simpl; lia. }
  unfold in_square, searchBounds. cbn [ent_x ent_y nsub nmul float_num].
  change (@ntwo float float_num) with (dyadic 2 0).
  rewrite (@dyadic_mul m 2 (-10) 0) by lia.
  rewrite (Hs X HX), (Hs Y HY).
  rewrite !dyadic_sub by lia.
  change (-10 + 0) with (-10).
  rewrite inBounds_dyadic by lia.
  repeat (apply andb_true_intro; split); apply Z.leb_le; lia.
Qed.




(** ** The cases of [tests/graphAlgo.test.ts] *)

Example test_topologicalSort_chain :
  topologicalSort test_chain = Some ["a"; "b"; "c"].
Proof. reflexivity. Qed.

Example test_topologicalSort_merge :
  topologicalSort test_merge = Some ["root"; "a"; "b"; "merge"].
Proof. reflexivity. Qed.

Example test_assignColumns_chain :
  assignColumns test_chain = [("c", 0); ("b", 0); ("a", 0)].
Proof. reflexivity. Qed.

Example test_assignColumns_branches :
  assignColumns
    [ test_commit "root" [] 100; test_commit "a" ["root"] 200;
      test_commit "b" ["root"] 201 ]
  = [("b", 0); ("a", 1); ("root", 0)].
Proof. reflexivity. Qed.

Example test_computeLayout_chain :
  List.length (nodes (computeLayout test_chain)) = 3%nat /\
  List.length (edges (computeLayout test_chain)) = 2%nat /\
  map n_oid (nodes (computeLayout test_chain)) = ["c"; "b"; "a"].
Proof. repeat split. Qed.

Example test_quadtree_nearest :
  (let qt :=
     insert (insert (insert
       (quadtree_new string (mkBBox 0 0 100 100) 4 8)
       "A" 10 10) "B" 50 50) "C" 90 90 in
   queryNearest qt 11 11 20 = Some "A" /\
   queryNearest qt 49 51 20 = Some "B" /\
   queryNearest qt 88 92 20 = Some "C")%float.
Proof. vm_compute. repeat split. Qed.

Example test_quadtree_no_match :
  (queryNearest
     (insert (quadtree_new string (mkBBox 0 0 100 100) 4 8) "A" 10 10)
     90 90 5 = None)%float.
Proof. vm_compute. reflexivity. Qed.

Example test_isAncestor_chain :
  isAncestor test_chain "a" "c" = Some true /\
  isAncestor test_chain "c" "a" = Some false.
Proof. split; reflexivity. Qed.

Example test_isAncestor_merge :
  isAncestor test_merge "root" "merge" = Some true /\
  isAncestor test_merge "a" "merge" = Some true /\
  isAncestor test_merge "b" "merge" = Some true.
Proof. repeat split. Qed.

Example test_isAncestor_unrelated :
  isAncestor [test_commit "a" [] 100; test_commit "b" [] 200] "a" "b"
  = Some false.
Proof. reflexivity. Qed.

Example test_buildSpatialIndex :
  option_map n_oid
    (queryNearest (buildSpatialIndex float
                     (computeLayout
                        [test_commit "a" [] 100; test_commit "b" ["a"] 200]))
       60 60 30)%float
  = Some "b".
Proof. vm_compute. reflexivity. Qed.

(** * Further properties of the code *)

(** ** Adjacency list *)

Lemma find_snoc {A : Type} (p : A -> bool) (l : list A) (a : A) :
  find p (l ++ [a]) =
  match find p l with
  | Some x => Some x
  | None => if p a then Some a else None
  end.
Proof.
  induction l as [|b r IH]; simpl; [reflexivity|].
  destruct (p b); auto.
Qed.

Lemma adjacency_fold_get (k : string) :
  forall (commits : list CommitNode) (m : JsMap.t (list string)),
    JsMap.get k
      (fold_left (fun adj c => JsMap.set (oid c) (parents c) adj) commits m)
    = match find (fun c => String.eqb (oid c) k) (rev commits) with
      | Some c => Some (parents c)
      | None => JsMap.get k m
      end.
Proof.
  induction commits as [|a r IH]; intros m; simpl; [reflexivity|].
  rewrite IH, find_snoc.
  destruct (find (fun c => String.eqb (oid c) k) (rev r)); [reflexivity|].
  destruct (String.eqb (oid a) k) eqn:E.
  - apply String.eqb_eq in E. subst k. apply JsMapFacts.get_set_eq.
  - apply String.eqb_neq in E. now apply JsMapFacts.get_set_neq.
Qed.

(** X1. [buildAdjacencyList] maps an identifier to the raw parent list of
    the last commit of the input that carries it (parents are not filtered,
    a later commit with the same identifier overwrites an earlier one), and
    has no entry for an identifier that no commit carries. *)
Theorem buildAdjacencyList_lookup (commits : list CommitNode) (k : string) :
  JsMap.get k (buildAdjacencyList commits)
  = option_map parents (find (fun c => String.eqb (oid c) k) (rev commits)) /\
  (JsMap.get k (buildAdjacencyList commits) = None <->
   ~ In k (map oid commits)).
Proof.
  assert (H : JsMap.get k (buildAdjacencyList commits)
              = option_map parents
                  (find (fun c => String.eqb (oid c) k) (rev commits))).
  { unfold buildAdjacencyList. rewrite adjacency_fold_get.
    destruct (find _ (rev commits)); reflexivity. }
  split; [exact H|]. rewrite H.
  destruct (find (fun c => String.eqb (oid c) k) (rev commits)) as [c|] eqn:E;
    simpl.
  - apply find_some in E. destruct E as [Hin Hk].
    apply String.eqb_eq in Hk. split; [discriminate|].
    intros Hn. exfalso. apply Hn. rewrite <- Hk. apply in_map.
    now apply in_rev.
  - split; [|reflexivity]. intros _ Hin. apply in_map_iff in Hin.
    destruct Hin as [c [Hc Hin]].
    apply in_rev in Hin.
    pose proof (find_none _ _ E c Hin) as Hf. simpl in Hf.
    subst k. rewrite String.eqb_refl in Hf. discriminate.
Qed.

(** ** Topological sort on arbitrary input *)

(** X2. For every commit list, also one with repeated identifiers, cycles
    or dangling parents, [topologicalSort] returns, and its output holds
    exactly the identifiers of the input: none is dropped and none is
    invented. *)
Theorem topologicalSort_same_ids (commits : list CommitNode) :
  exists sorted,
    topologicalSort commits = Some sorted /\
    forall x, In x sorted <-> In x (map oid commits).
Proof.
  destruct (topologicalSort_queue commits) as [queue [Hs [_ [Hincl _]]]].
  eexists. split; [exact Hs|].
  intros x. rewrite in_app_iff, filter_In, negb_true_iff, set_has_false_iff.
  split.
  - intros [Hx|[Hx _]]; auto.
  - intros Hx. destruct (in_dec string_dec x queue); auto.
Qed.

(** ** Roots come first *)

Lemma topo_children_fold_extends :
  forall (ch : list string) (inDegree : JsMap.t Z) (queue : list string),
    exists inDegree' extra,
      fold_left topo_child_step ch (inDegree, queue)
      = (inDegree', queue ++ extra).
Proof.
  induction ch as [|c ch IH]; intros inDegree queue; cbn [fold_left].
  - exists inDegree, []. now rewrite app_nil_r.
  - unfold topo_child_step at 2.
    destruct (nullish (JsMap.get c inDegree) 1 - 1 =? 0).
    + destruct (IH (JsMap.set c (nullish (JsMap.get c inDegree) 1 - 1) inDegree)
                  (queue ++ [c])) as [d [extra H]].
      exists d, ([c] ++ extra). rewrite H. now rewrite app_assoc.
    + apply IH.
Qed.

Lemma topo_loop_prefix :
  forall fuel children inDegree queue idx res,
    topo_loop fuel children inDegree queue idx (firstn idx queue) = Some res ->
    exists extra, res = queue ++ extra.
Proof.
  induction fuel as [|fuel IH]; intros children inDegree queue idx res H;
    simpl in H; destruct (nth_error queue idx) as [node|] eqn:Hn;
    try discriminate.
  - inversion H. exists []. rewrite app_nil_r. apply firstn_all2.
    now apply nth_error_None.
  - destruct (topo_children_fold_extends
                (nullish (JsMap.get node children) []) inDegree queue)
      as [d [extra Hf]].
    rewrite Hf in H.
    assert (Hlt : (idx < List.length queue)%nat)
      by (apply nth_error_Some; congruence).
    assert (Hfirst : firstn idx queue ++ [node]
                     = firstn (S idx) (queue ++ extra)).
    { rewrite firstn_app_le by lia. symmetry. now apply firstn_S_nth_error. }
    rewrite Hfirst in H. apply IH in H. destruct H as [extra' ->].
    exists (extra ++ extra'). now rewrite app_assoc.
  - inversion H. exists []. rewrite app_nil_r. apply firstn_all2.
    now apply nth_error_None.
Qed.

Lemma set_last {V : Type} (m : JsMap.t V) (k : string) (z v : V) :
  ~ In k (JsMap.keys m) ->
  JsMap.set k v (m ++ [(k, z)]) = m ++ [(k, v)].
Proof.
  induction m as [|[k' v'] r IH]; simpl; intros H.
  - now rewrite String.eqb_refl.
  - destruct (String.eqb k k') eqn:E.
    + apply String.eqb_eq in E. subst. tauto.
    + f_equal. apply IH. tauto.
Qed.

Lemma get_last {V : Type} (m : JsMap.t V) (k : string) (z : V) :
  ~ In k (JsMap.keys m) -> JsMap.get k (m ++ [(k, z)]) = Some z.
Proof.
  induction m as [|[k' v'] r IH]; simpl; intros H.
  - now rewrite String.eqb_refl.
  - destruct (String.eqb k k') eqn:E.
    + apply String.eqb_eq in E. subst. tauto.
    + apply IH. tauto.
Qed.

Lemma set_fresh {V : Type} (m : JsMap.t V) (k : string) (v : V) :
  ~ In k (JsMap.keys m) -> JsMap.set k v m = m ++ [(k, v)].
Proof.
  induction m as [|[k' v'] r IH]; simpl; intros H; [reflexivity|].
  destruct (String.eqb k k') eqn:E.
  - apply String.eqb_eq in E. subst. tauto.
  - f_equal. apply IH. tauto.
Qed.

Lemma topo_parents_fold_degree (oidSet : list string) (c : CommitNode)
    (m : JsMap.t Z) :
  ~ In (oid c) (JsMap.keys m) ->
  forall ps z children,
    fst (fold_left (topo_parent_step oidSet c) ps (m ++ [(oid c, z)], children))
    = m ++ [(oid c, z + Z.of_nat (List.length (filter (set_has oidSet) ps)))].
Proof.
  intros Hk. induction ps as [|p ps IH]; intros z children; cbn [fold_left].
  - simpl. now rewrite Z.add_0_r.
  - unfold topo_parent_step at 2. cbn [filter].
    destruct (set_has oidSet p); cbn [negb].
    + rewrite get_last by assumption. cbn [nullish].
      rewrite set_last by assumption. rewrite IH.
      cbn [List.length]. do 2 f_equal. f_equal. lia.
    + apply IH.
Qed.

Lemma topo_commit_step_fresh (oidSet : list string) (c : CommitNode)
    (m : JsMap.t Z) (children : JsMap.t (list string)) :
  ~ In (oid c) (JsMap.keys m) ->
  fst (topo_commit_step oidSet (m, children) c)
  = m ++ [(oid c,
           Z.of_nat (List.length (filter (set_has oidSet) (parents c))))].
Proof.
  intros Hc. unfold topo_commit_step.
  assert (Hhas : JsMap.has (oid c) m = false)
    by (now apply JsMapFacts.has_false_iff).
  rewrite Hhas. cbn [negb]. rewrite set_fresh by assumption.
  apply (@topo_parents_fold_degree oidSet c m Hc (parents c) 0 children).
Qed.

Lemma topo_build_degrees (oidSet : list string) :
  forall (commits : list CommitNode) (st : JsMap.t Z * JsMap.t (list string)),
    NoDup (map oid commits) ->
    (forall c, In c commits -> ~ In (oid c) (JsMap.keys (fst st))) ->
    fst (fold_left (topo_commit_step oidSet) commits st)
    = fst st
      ++ map (fun c =>
                (oid c,
                 Z.of_nat (List.length (filter (set_has oidSet) (parents c)))))
             commits.
Proof.
  induction commits as [|c r IH]; intros [m children] Hnd Hfresh;
    cbn [fold_left].
  - simpl. now rewrite app_nil_r.
  - inversion Hnd; subst. cbn [fst] in *.
    assert (Hc : ~ In (oid c) (JsMap.keys m)) by (apply Hfresh; now left).
    pose proof (@topo_commit_step_fresh oidSet c m children Hc) as Hstep.
    rewrite IH; auto.
    + rewrite Hstep, <- app_assoc. reflexivity.
    + intros c' Hc' Hin. rewrite Hstep in Hin. unfold JsMap.keys in Hin.
      rewrite map_app, in_app_iff in Hin. destruct Hin as [Hin|[Hin|[]]].
      * apply (Hfresh c'); [now right | exact Hin].
      * simpl in Hin. apply H1. rewrite Hin. now apply in_map.
Qed.

Lemma filter_length_zero_existsb {A : Type} (f : A -> bool) (l : list A) :
  (Z.of_nat (List.length (filter f l)) =? 0) = negb (existsb f l).
Proof.
  induction l as [|a r IH]; simpl; [reflexivity|].
  destruct (f a); simpl; [reflexivity | exact IH].
Qed.

(** X3. For a commit list with pairwise distinct identifiers, the output
    of [topologicalSort] starts with the commits that have no parent in the
    list, in input order; everything else comes after them. *)
Theorem topologicalSort_roots_first (commits : list CommitNode) :
  NoDup (map oid commits) ->
  exists rest,
    topologicalSort commits
    = Some (map oid (filter (is_root (map oid commits)) commits) ++ rest).
Proof.
  intros Hnd.
  destruct (topologicalSort_queue commits) as [q [Hq _]].
  unfold topologicalSort, topologicalSort_fuel in *.
  pose proof (@topo_build_degrees (map oid commits) commits
                (JsMap.empty, JsMap.empty) Hnd (fun c _ H => H)) as Hdeg.
  fold (topo_build commits) in Hdeg. cbn [fst app] in Hdeg.
  destruct (topo_build commits) as [inDegree children]. cbn [fst] in Hdeg.
  assert (Hseed : topo_seed inDegree
                  = map oid (filter (is_root (map oid commits)) commits)).
  { rewrite Hdeg. unfold topo_seed, is_root. clear.
    generalize (map oid commits). intros oids.
    induction commits as [|c r IH]; simpl; [reflexivity|].
    rewrite filter_length_zero_existsb.
    destruct (negb (existsb (set_has oids) (parents c))); simpl;
      [f_equal|]; apply IH. }
  destruct (topo_loop (List.length commits) children inDegree
              (topo_seed inDegree) 0 []) as [res|] eqn:Hloop; [|discriminate].
  apply (topo_loop_prefix _ _ _ _ 0%nat) in Hloop.
  destruct Hloop as [extra ->]. rewrite Hseed, <- app_assoc. eauto.
Qed.

Lemma topologicalSort_roots_first_witness :
  exists rest,
    topologicalSort example_diamond
    = Some (map oid (filter (is_root (map oid example_diamond)) example_diamond)
            ++ rest).
Proof.
  apply topologicalSort_roots_first.
  simpl. repeat constructor; simpl; intuition discriminate.
Defined.

(** ** Lane assignment: which identifiers get a lane *)

Lemma lane_parent_step_columns oidSet col i parent st :
  columns (lane_parent_step oidSet col i parent st) = columns st.
Proof.
  unfold lane_parent_step.
  destruct (negb (set_has oidSet parent)); [reflexivity|].
  destruct (JsMap.has parent (columns st) || JsMap.has parent (reservations st));
    [reflexivity|].
  destruct ((i =? 0) && lane_is_null (activeLanes st) col); [reflexivity|].
  destruct (indexOf_null (activeLanes st) =? -1); reflexivity.
Qed.

Lemma lane_parents_columns oidSet col :
  forall ps i st, columns (lane_parents oidSet col i ps st) = columns st.
Proof.
  induction ps as [|p ps IH]; intros i st; simpl; [reflexivity|].
  rewrite IH. apply lane_parent_step_columns.
Qed.

Lemma lane_commit_step_columns oidSet st commit :
  exists col,
    columns (lane_commit_step oidSet st commit)
    = JsMap.set (oid commit) col (columns st).
Proof.
  unfold lane_commit_step.
  destruct (negb (nullish (JsMap.get (oid commit) (reservations st)) (-1) =? -1)).
  - destruct (nullish (JsMap.get (oid commit) (reservations st)) (-1) =? -1).
    + destruct (indexOf_null _ =? -1); eexists;
        rewrite lane_parents_columns; reflexivity.
    + eexists. rewrite lane_parents_columns. reflexivity.
  - destruct (nullish (JsMap.get (oid commit) (reservations st)) (-1) =? -1).
    + destruct (indexOf_null _ =? -1); eexists;
        rewrite lane_parents_columns; reflexivity.
    + eexists. rewrite lane_parents_columns. reflexivity.
Qed.

Lemma lane_fold_keys oidSet :
  forall l st k,
    In k (JsMap.keys (columns (fold_left (lane_commit_step oidSet) l st))) <->
    In k (map oid l) \/ In k (JsMap.keys (columns st)).
Proof.
  induction l as [|c l IH]; intros st k; simpl; [tauto|].
  rewrite IH. destruct (lane_commit_step_columns oidSet st c) as [col ->].
  rewrite JsMapFacts.in_keys_set. intuition (subst; auto).
Qed.

Lemma assignColumns_keys (commits : list CommitNode) (k : string) :
  In k (JsMap.keys (assignColumns commits)) <-> In k (map oid commits).
Proof.
  unfold assignColumns. rewrite lane_fold_keys. simpl. split.
  - intros [H|[]]. eapply Permutation_in; [|exact H].
    apply Permutation_map. symmetry. apply sort_by_time_desc_perm.
  - intros H. left. eapply Permutation_in; [|exact H].
    apply Permutation_map. apply sort_by_time_desc_perm.
Qed.

Lemma assignColumns_lane (commits : list CommitNode) (k : string) :
  In k (map oid commits) ->
  exists v, JsMap.get k (assignColumns commits) = Some v /\ 0 <= v.
Proof.
  intros H. apply assignColumns_keys in H.
  apply JsMapFacts.keys_get in H. destruct H as [v Hv].
  exists v. split; [assumption|]. eapply assignColumns_nonneg; eauto.
Qed.

(** X4. [assignColumns] gives a lane to every identifier of the input and
    to nothing else, and no lane index is negative: a lookup in its
    result answers with a lane of at least zero for an identifier of the
    input, and with nothing for every other string. *)
Theorem assignColumns_domain (commits : list CommitNode) (k : string) :
  match JsMap.get k (assignColumns commits) with
  | Some v => In k (map oid commits) /\ 0 <= v
  | None => ~ In k (map oid commits)
  end.
Proof.
  destruct (JsMap.get k (assignColumns commits)) as [v|] eqn:E.
  - split.
    + apply assignColumns_keys. eapply JsMapFacts.get_Some_keys; eauto.
    + eapply assignColumns_nonneg; eauto.
  - intros H. destruct (assignColumns_lane _ _ H) as [v [Hv _]]. congruence.
Qed.

(** ** Layout: order, positions and contents of the nodes *)

Lemma sort_insert_sorted (a : CommitNode) (l : list CommitNode) :
  StronglySorted (fun x y => timestamp y <= timestamp x) l ->
  StronglySorted (fun x y => timestamp y <= timestamp x)
    (sort_insert (fun x y => timestamp y - timestamp x) a l).
Proof.
  induction l as [|b r IH]; intros H; simpl.
  - constructor; constructor.
  - inversion H as [|? ? Hr Hb]; subst.
    destruct (Z.gtb_spec (timestamp b - timestamp a) 0) as [Hgt|Hle].
    + constructor; [now apply IH|].
      apply Forall_forall. intros x Hx.
      apply (Permutation_in _ (Permutation_sym (sort_insert_perm _ a r))) in Hx.
      destruct Hx as [<-|Hx]; [lia|].
      rewrite Forall_forall in Hb. now apply Hb.
    + constructor; [assumption|].
      constructor; [lia|].
      rewrite Forall_forall in Hb. apply Forall_forall. intros x Hx.
      specialize (Hb x Hx). lia.
Qed.

Lemma sort_by_time_desc_sorted (commits : list CommitNode) :
  StronglySorted (fun x y => timestamp y <= timestamp x)
    (sort_by_time_desc commits).
Proof.
  unfold sort_by_time_desc, js_sort.
  induction commits as [|a r IH]; simpl; [constructor|].
  now apply sort_insert_sorted.
Qed.

Lemma StronglySorted_nth_error {A : Type} (R : A -> A -> Prop) (l : list A) :
  StronglySorted R l ->
  forall i j a b,
    (i < j)%nat -> nth_error l i = Some a -> nth_error l j = Some b -> R a b.
Proof.
  induction 1 as [|x l Hs IH Hx]; intros i j a b Hij Hi Hj.
  - destruct i; discriminate.
  - destruct j as [|j]; [lia|]. simpl in Hj. destruct i as [|i]; simpl in Hi.
    + inversion Hi; subst. rewrite Forall_forall in Hx. apply Hx.
      eapply nth_error_In; eauto.
    + apply (IH i j); auto. lia.
Qed.

Lemma mapi_from_nth_error {A B : Type} (f : A -> Z -> B) (l : list A) :
  forall i k a,
    nth_error l k = Some a ->
    nth_error (mapi_from f i l) k = Some (f a (i + Z.of_nat k)).
Proof.
  induction l as [|x r IH]; intros i k a H; destruct k; simpl in *;
    try discriminate.
  - inversion H; subst. do 2 f_equal. lia.
  - rewrite (IH (i + 1) k a H). do 2 f_equal. lia.
Qed.

(** The nodes of any layout, empty or not. *)
Lemma computeLayout_nodes (commits : list CommitNode) :
  nodes (computeLayout commits)
  = mapi (layout_node (assignColumns commits)) (sort_by_time_desc commits).
Proof.
  destruct commits as [|c cs]; [reflexivity|].
  now apply computeLayout_nonempty.
Qed.

(** X5. The layout never drops, repeats or invents a commit: the
    identifiers of its nodes are a rearrangement of the input identifiers. *)
Theorem computeLayout_node_ids (commits : list CommitNode) :
  Permutation (map n_oid (nodes (computeLayout commits))) (map oid commits).
Proof.
  rewrite computeLayout_nodes. unfold mapi.
  rewrite (@mapi_from_map _ _ _ (layout_node (assignColumns commits)) n_oid oid)
    by reflexivity.
  apply Permutation_map. symmetry. apply sort_by_time_desc_perm.
Qed.

(** X6. Rows follow time: when commit [a] is strictly newer than commit
    [b], the node of [a] sits in a strictly smaller row, hence strictly
    higher on the canvas, than the node of [b]. *)
Theorem computeLayout_newer_above (commits : list CommitNode)
    (a b : CommitNode) :
  In a commits -> In b commits -> timestamp b < timestamp a ->
  exists na nb,
    In na (nodes (computeLayout commits)) /\
    In nb (nodes (computeLayout commits)) /\
    n_oid na = oid a /\ n_oid nb = oid b /\
    n_row na < n_row nb /\ (n_y na < n_y nb)%Q.
Proof.
  intros Ha Hb Hts. rewrite computeLayout_nodes.
  pose proof (sort_by_time_desc_perm commits) as Hp.
  pose proof (sort_by_time_desc_sorted commits) as Hs.
  apply (Permutation_in _ Hp) in Ha, Hb.
  apply In_nth_error in Ha, Hb. destruct Ha as [i Hi], Hb as [j Hj].
  assert (Hij : (i < j)%nat).
  { destruct (Nat.lt_trichotomy i j) as [H|[H|H]]; [assumption| |].
    - subst j. rewrite Hi in Hj. inversion Hj; subst. lia.
    - pose proof (StronglySorted_nth_error Hs H Hj Hi) as Hle. simpl in Hle. lia. }
  set (cols := assignColumns commits).
  exists (layout_node cols a (0 + Z.of_nat i)),
         (layout_node cols b (0 + Z.of_nat j)).
  unfold mapi.
  split; [eapply nth_error_In; apply mapi_from_nth_error; eassumption|].
  split; [eapply nth_error_In; apply mapi_from_nth_error; eassumption|].
  cbn [layout_node n_oid n_row n_y]. repeat split; [lia|].
  unfold padding, rowSpacing.
  assert (Hq : (inject_Z (0 + Z.of_nat i) < inject_Z (0 + Z.of_nat j))%Q)
    by (rewrite <- Zlt_Qlt; lia).
  set (qi := inject_Z (0 + Z.of_nat i)) in *. clearbody qi.
  set (qj := inject_Z (0 + Z.of_nat j)) in *. clearbody qj.
  clear - Hq. lra.
Qed.

Lemma computeLayout_newer_above_witness :
  exists na nb,
    In na (nodes (computeLayout test_chain)) /\
    In nb (nodes (computeLayout test_chain)) /\
    n_oid na = "c" /\ n_oid nb = "a" /\
    n_row na < n_row nb /\ (n_y na < n_y nb)%Q.
Proof.
  apply (@computeLayout_newer_above test_chain
           (test_commit "c" ["b"] 300) (test_commit "a" [] 100)).
  - simpl. tauto.
  - simpl. tauto.
  - simpl. lia.
Defined.

(** X7. Every layout node stands for an input commit: it copies the
    commit's identifier, parents, refs, message and head flag, its lane is
    the one [assignColumns] gave that identifier (the [?? 0] fallback is
    never taken), its colour is an entry of the palette, and its position
    is [60 + 80 * lane], [60 + 70 * row]. *)
Theorem computeLayout_node_fields (commits : list CommitNode) (n : LayoutNode) :
  In n (nodes (computeLayout commits)) ->
  exists c,
    In c commits /\
    n_oid n = oid c /\ n_parents n = parents c /\ n_refs n = refs c /\
    n_message n = message c /\ n_isHead n = isHead c /\
    JsMap.get (oid c) (assignColumns commits) = Some (n_col n) /\
    nth_error branchColors (Z.to_nat (Z.rem (n_col n) 8)) = Some (n_color n) /\
    n_x n = (60 + inject_Z (n_col n) * 80)%Q /\
    n_y n = (60 + inject_Z (n_row n) * 70)%Q.
Proof.
  rewrite computeLayout_nodes. unfold mapi. intros Hn.
  destruct (mapi_from_in _ _ _ _ Hn) as [k [c [Hk ->]]].
  assert (Hc : In c commits).
  { eapply Permutation_in; [symmetry; apply sort_by_time_desc_perm|].
    eapply nth_error_In; eauto. }
  exists c. split; [assumption|].
  assert (Hlane : exists v, JsMap.get (oid c) (assignColumns commits) = Some v
                            /\ 0 <= v).
  { apply assignColumns_lane. now apply in_map. }
  destruct Hlane as [v [Hv Hv0]].
  cbn [layout_node n_oid n_parents n_refs n_message n_isHead n_col n_row
       n_color n_x n_y].
  rewrite Hv. cbn [nullish]. repeat split; try reflexivity.
  assert (Hr : 0 <= Z.rem v 8 < 8).
  { rewrite Z.rem_mod_nonneg by lia. apply Z.mod_pos_bound. lia. }
  change (Z.of_nat (List.length branchColors)) with 8.
  destruct (nth_error branchColors (Z.to_nat (Z.rem v 8))) as [s|] eqn:E.
  - f_equal. symmetry. now apply nth_error_nth.
  - apply nth_error_None in E. simpl in E. lia.
Qed.

Lemma computeLayout_node_fields_witness :
  exists c,
    In c test_chain /\
    n_oid example_node_b
      = oid c /\
    n_parents example_node_b
      = parents c /\
    n_refs example_node_b
      = refs c /\
    n_message example_node_b
      = message c /\
    n_isHead example_node_b
      = isHead c /\
    JsMap.get (oid c) (assignColumns test_chain)
      = Some (n_col example_node_b) /\
    nth_error branchColors
      (Z.to_nat (Z.rem (n_col example_node_b) 8))
      = Some (n_color example_node_b) /\
    n_x example_node_b
      = (60 + inject_Z (n_col example_node_b) * 80)%Q /\
    n_y example_node_b
      = (60 + inject_Z (n_row example_node_b) * 70)%Q.
Proof.
  apply computeLayout_node_fields.
  vm_compute. right. left. reflexivity.
Defined.

(** X8. Every node lies on the canvas with the padding of 60 on each
    side: [60 <= x <= width - 60] and [60 <= y <= height - 60]. *)
Theorem computeLayout_nodes_on_canvas (commits : list CommitNode)
    (n : LayoutNode) :
  In n (nodes (computeLayout commits)) ->
  (60 <= n_x n /\ n_x n <= width (computeLayout commits) - 60 /\
   60 <= n_y n /\ n_y n <= height (computeLayout commits) - 60)%Q.
Proof.
  intros Hn.
  assert (Hne : commits <> []) by (intros ->; simpl in Hn; contradiction).
  destruct (computeLayout_nonempty Hne) as [Hns [Hw Hh]].
  rewrite Hw, Hh. rewrite Hns in Hn. clear Hw Hh Hns.
  set (ns := mapi (layout_node (assignColumns commits))
               (sort_by_time_desc commits)) in *.
  assert (Hcol_le : n_col n <= fold_right Z.max 0 (map n_col ns)).
  { apply fold_max_ge. now apply in_map. }
  unfold ns, mapi in Hn. destruct (mapi_from_in _ _ _ _ Hn) as [k [c [Hk Hn']]].
  assert (Hklt : (k < List.length ns)%nat).
  { unfold ns, mapi. rewrite mapi_from_length. apply nth_error_Some. congruence. }
  assert (Hcol_ge : 0 <= n_col n).
  { subst n. cbn [n_col layout_node].
    destruct (JsMap.get (oid c) (assignColumns commits)) as [v|] eqn:Eg;
      cbn [nullish]; [|lia].
    eapply assignColumns_nonneg; eauto. }
  assert (Hx : n_x n = (padding + inject_Z (n_col n) * colSpacing)%Q)
    by (subst n; reflexivity).
  assert (Hy : n_y n = (padding + inject_Z (Z.of_nat k) * rowSpacing)%Q)
    by (subst n; reflexivity).
  rewrite Hx, Hy.
  generalize dependent (fold_right Z.max 0 (map n_col ns)). intros maxCol Hcol_le.
  pose proof (Qmax2_ge_l (padding * 2 + inject_Z maxCol * colSpacing) 200) as Hw.
  pose proof (Qmax2_ge_l
                (padding * 2 + (inject_Z (Z.of_nat (List.length ns)) - 1) * rowSpacing)
                200) as Hh.
  rewrite Zle_Qle in Hcol_le, Hcol_ge.
  assert (Hk1 : (inject_Z (Z.of_nat k) + 1 <= inject_Z (Z.of_nat (List.length ns)))%Q).
  { change 1%Q with (inject_Z 1). rewrite <- inject_Z_plus, <- Zle_Qle. lia. }
  assert (Hk0 : (0 <= inject_Z (Z.of_nat k))%Q).
  { change 0%Q with (inject_Z 0). rewrite <- Zle_Qle. lia. }
  change (inject_Z 0) with 0%Q in Hcol_ge.
  unfold padding, colSpacing, rowSpacing in *.
  clear Hx Hy Hn Hn' Hk Hklt.
  set (qc := inject_Z (n_col n)) in *. clearbody qc.
  set (qm := inject_Z maxCol) in *. clearbody qm.
  set (qk := inject_Z (Z.of_nat k)) in *. clearbody qk.
  set (ql := inject_Z (Z.of_nat (List.length ns))) in *. clearbody ql.
  set (mw := Qmax2 (60 * 2 + qm * 80) 200) in *. clearbody mw.
  set (mh := Qmax2 (60 * 2 + (ql - 1) * 70) 200) in *. clearbody mh.
  clear - Hcol_ge Hcol_le Hw Hh Hk1 Hk0.
  split; [lra|]. split; [lra|]. split; lra.
Qed.

Lemma computeLayout_nodes_on_canvas_witness :
  (60 <= n_x example_node_b /\
   n_x example_node_b <= width (computeLayout test_chain) - 60 /\
   60 <= n_y example_node_b /\
   n_y example_node_b <= height (computeLayout test_chain) - 60)%Q.
Proof.
  apply computeLayout_nodes_on_canvas.
  vm_compute. right. left. reflexivity.
Defined.

Lemma Qmax2_ge_r (a b : Q) : (b <= Qmax2 a b)%Q.
Proof.
  unfold Qmax2. destruct (Qle_bool a b) eqn:E.
  - apply Qle_refl.
  - apply Qlt_le_weak. apply Qnot_le_lt. intros H.
    apply Qle_bool_iff in H. congruence.
Qed.

(** X9. A non-empty layout is at least 200 wide and 200 high, and its
    height depends only on the number of commits:
    [max (120 + 70 * (n - 1)) 200]. *)
Theorem computeLayout_dimensions (c : CommitNode) (cs : list CommitNode) :
  (200 <= width (computeLayout (c :: cs)) /\
   200 <= height (computeLayout (c :: cs)))%Q /\
  height (computeLayout (c :: cs))
  = Qmax2 (60 * 2 + (inject_Z (Z.of_nat (List.length (c :: cs))) - 1) * 70) 200.
Proof.
  assert (Hne : c :: cs <> []) by discriminate.
  destruct (computeLayout_nonempty Hne) as [_ [Hw Hh]].
  rewrite Hw, Hh. split; [split; apply Qmax2_ge_r|].
  unfold mapi. rewrite mapi_from_length.
  rewrite <- (Permutation_length (sort_by_time_desc_perm (c :: cs))).
  reflexivity.
Qed.

(** ** Layout: edges *)

Lemma fold_set_get_in {A : Type} (key : A -> string) (l : list A) :
  forall (m : JsMap.t A) k v,
    JsMap.get k (fold_left (fun m a => JsMap.set (key a) a m) l m) = Some v ->
    (In v l /\ key v = k) \/ JsMap.get k m = Some v.
Proof.
  induction l as [|a r IH]; intros m k v H; simpl in H; [now right|].
  apply IH in H. destruct H as [[H1 H2]|H].
  - left. split; [now right | assumption].
  - destruct (string_dec (key a) k) as [E|E].
    + subst k. rewrite JsMapFacts.get_set_eq in H. inversion H; subst.
      left. split; [now left | reflexivity].
    + rewrite JsMapFacts.get_set_neq in H by assumption. now right.
Qed.

Lemma edge_fold_in (nodeMap : JsMap.t LayoutNode) (node : LayoutNode) :
  forall ps acc e,
    In e (fold_left (edge_step nodeMap node) ps acc) ->
    In e acc \/
    exists p parent,
      In p ps /\ JsMap.get p nodeMap = Some parent /\
      e = mkLayoutEdge (n_oid node) p (n_color node)
            (e_points (edge_between node parent)).
Proof.
  induction ps as [|p ps IH]; intros acc e H; simpl in H; [now left|].
  apply IH in H. destruct H as [H|[q [parent [Hq [Hg He]]]]].
  - unfold edge_step in H. destruct (JsMap.get p nodeMap) as [parent|] eqn:Eg.
    + apply in_app_iff in H. destruct H as [H|[H|[]]]; [now left|].
      right. exists p, parent. split; [now left|]. split; [assumption|].
      rewrite <- H. unfold edge_between. cbn [e_points].
      destruct (n_col node =? n_col parent); reflexivity.
    + now left.
  - right. exists q, parent. split; [now right|]. auto.
Qed.

Lemma layout_edges_in (nodeMap : JsMap.t LayoutNode) (ns : list LayoutNode)
    (e : LayoutEdge) :
  In e (layout_edges nodeMap ns) ->
  exists node p parent,
    In node ns /\ In p (n_parents node) /\
    JsMap.get p nodeMap = Some parent /\
    e = mkLayoutEdge (n_oid node) p (n_color node)
          (e_points (edge_between node parent)).
Proof.
  unfold layout_edges.
  enough (H : forall acc,
             In e (fold_left
                     (fun acc node =>
                        fold_left (edge_step nodeMap node) (n_parents node) acc)
                     ns acc) ->
             In e acc \/
             exists node p parent,
               In node ns /\ In p (n_parents node) /\
               JsMap.get p nodeMap = Some parent /\
               e = mkLayoutEdge (n_oid node) p (n_color node)
                     (e_points (edge_between node parent))).
  { intros Hin. destruct (H [] Hin) as [[]|Hex]. exact Hex. }
  induction ns as [|n ns IH]; intros acc H; simpl in H; [now left|].
  apply IH in H. destruct H as [H|[node [p [parent [Hn Hr]]]]].
  - apply edge_fold_in in H. destruct H as [H|[p [parent [Hp [Hg He]]]]].
    + now left.
    + right. exists n, p, parent. split; [now left|]. auto.
  - right. exists node, p, parent. split; [now right|]. exact Hr.
Qed.

(** X10. Every edge of the layout runs from a layout node to a layout
    node that the first lists as a parent; it carries the child's colour,
    and its points are the two positions when both share a lane, and
    otherwise four points that start at the child, end at the parent and
    bend at the height halfway between them. *)
Theorem computeLayout_edges (commits : list CommitNode) (e : LayoutEdge) :
  In e (edges (computeLayout commits)) ->
  exists node parent,
    In node (nodes (computeLayout commits)) /\
    In parent (nodes (computeLayout commits)) /\
    In (n_oid parent) (n_parents node) /\
    e = edge_between node parent.
Proof.
  intros He.
  assert (Hne : commits <> []) by (intros ->; simpl in He; contradiction).
  destruct (computeLayout_nonempty Hne) as [Hns _]. rewrite Hns.
  unfold computeLayout in He. destruct commits as [|c cs]; [congruence|].
  change (List.length (c :: cs) =? 0)%nat with false in He. cbv iota in He.
  cbn [edges] in He. apply layout_edges_in in He.
  destruct He as [node [p [parent [Hn [Hp [Hg ->]]]]]].
  apply fold_set_get_in in Hg. destruct Hg as [[Hpar Hk]|Hg]; [|discriminate].
  exists node, parent. subst p. repeat split; auto.
Qed.

Lemma computeLayout_edges_witness :
  exists node parent,
    In node (nodes (computeLayout test_chain)) /\
    In parent (nodes (computeLayout test_chain)) /\
    In (n_oid parent) (n_parents node) /\
    mkLayoutEdge "c" "b" "#6366f1" [(60, 60); (60, 130)]%Q
    = edge_between node parent.
Proof.
  apply computeLayout_edges. vm_compute. left. reflexivity.
Defined.

(** ** Quadtree: contents, range queries and shape *)

(** X11. The index holds exactly the inserts whose point passed the
    [inBounds] test of the root rectangle, each once: the entries of a
    tree grown from a new quadtree are a rearrangement of those inserts;
    nothing is lost or doubled by subdivision, and nothing that failed
    the test is kept.  This holds in the arithmetic of doubles and in any
    other, since no property of the numbers is used. *)
Theorem quadtree_contents (T N : Type) {num : Num N} (b : BBox N)
    (mi md : Z) (l : list (T * N * N)) :
  Permutation
    (entries (root (insert_all (quadtree_new T b mi md) l)))
    (map entry_of (filter (fun p => inBounds b (snd (fst p)) (snd p)) l)).
Proof.
  rewrite insert_all_perm. reflexivity.
Qed.

(** X12. [queryRect] on a tree of doubles grown from a new quadtree
    returns exactly the inserted items whose point passes the code's
    edge-inclusive test, with the far edges [x + width] and [y + height]
    as the doubles compute them, for the root rectangle and for the query
    rectangle, each once per insert, in some order. *)
Theorem queryRect_exact (T : Type) (b : BBox float) (mi md : Z)
    (l : list (T * float * float)) (rect : BBox float) :
  Permutation
    (queryRect (insert_all (quadtree_new T b mi md) l) rect)
    (map (fun p => fst (fst p))
       (filter (fun p => inBounds b (snd (fst p)) (snd p) &&
                         inBounds rect (snd (fst p)) (snd p)) l)).
Proof. exact (queryRect_insert_all b mi md l rect). Qed.

(** X13. Whatever is inserted into a new quadtree, every subdivided node
    has exactly four children, over the NW, NE, SW and SE quarters of its
    rectangle as [subdivide] computes them, in that order. *)
Theorem quadtree_quartered (T N : Type) {num : Num N} (b : BBox N)
    (mi md : Z) (l : list (T * N * N)) :
  quartered (root (insert_all (quadtree_new T b mi md) l)).
Proof.
  apply (proj1 (proj2 (insert_all_shape l (quadtree_new T b mi md)))).
  constructor.
Qed.

(** X14. A tree grown from a new quadtree is never more than [maxDepth]
    levels deep (not subdivided at all when [maxDepth] is zero or
    negative), however many points share a cell. *)
Theorem quadtree_depth_bounded (T N : Type) {num : Num N} (b : BBox N)
    (mi md : Z) (l : list (T * N * N)) :
  Z.of_nat (tree_height (root (insert_all (quadtree_new T b mi md) l)))
  <= Z.max 0 md.
Proof.
  pose proof (insert_all_shape l (quadtree_new T b mi md)) as [_ [_ Hd]].
  cbn [quadtree_new maxDepth root] in Hd.
  specialize (Hd (depth_ok_leaf md 0 b [])).
  apply depth_ok_height in Hd. now rewrite Z.sub_0_r in Hd.
Qed.

(** ** Quadtree: nearest neighbour on arbitrary trees *)

(** The sign given to [binary_round_aux] is the sign of its result. *)
Lemma binary_round_aux_sign (sx : bool) (mx ex : Z) (lx : location) :
  match binary_round_aux prec emax sx mx ex lx with
  | S754_zero s | S754_infinity s | S754_finite s _ _ => s = sx
  | S754_nan => True
  end.
Proof.
  unfold binary_round_aux.
  destruct (shr_fexp prec emax mx ex lx) as [mrs' e'].
  destruct (shr_fexp prec emax _ e' loc_Exact) as [mrs'' e''].
  destruct (shr_m mrs''); [reflexivity | | exact I].
  destruct (e'' <=? emax - prec); reflexivity.
Qed.

Lemma SFmul_self_nonneg (a : spec_float) : sf_nonneg (SFmul prec emax a a).
Proof.
  destruct a as [s|s| |s m e]; cbn [SFmul sf_nonneg];
    try exact I; try (destruct s; exact I).
  rewrite xorb_nilpotent.
  pose proof (binary_round_aux_sign false (Z.pos (m * m)) (e + e)
                loc_Exact) as H.
  destruct (binary_round_aux prec emax false (Z.pos (m * m)) (e + e)
              loc_Exact) as [s'|s'| |s' m' e']; subst; exact I.
Qed.

Lemma SFadd_nonneg (a b : spec_float) :
  sf_nonneg a -> sf_nonneg b -> sf_nonneg (SFadd prec emax a b).
Proof.
  destruct a as [[|]|[|]| |[|] ma ea], b as [[|]|[|]| |[|] mb eb];
    cbn [sf_nonneg SFadd]; try tauto.
  intros _ _. cbn [cond_Zopp Z.add binary_normalize]. unfold binary_round.
  destruct (shl_align _ _ _) as [mz ez].
  pose proof (binary_round_aux_sign false (Z.pos mz) ez loc_Exact) as H.
  destruct (binary_round_aux prec emax false (Z.pos mz) ez loc_Exact)
    as [s'|s'| |s' m' e']; subst; exact I.
Qed.

(** A sum of two squares of doubles is never below zero. *)
Lemma squares_not_below_zero (a b : float) :
  (a * a + b * b <? 0)%float = false.
Proof.
  rewrite ltb_spec, add_spec, !mul_spec.
  change (Prim2SF 0) with (S754_zero false).
  pose proof (@SFadd_nonneg _ _ (SFmul_self_nonneg (Prim2SF a))
                (SFmul_self_nonneg (Prim2SF b))) as H.
  unfold SF64add, SF64mul.
  destruct (SFadd prec emax _ _) as [[|]|[|]| |[|] m e];
    cbn [sf_nonneg] in H; try contradiction; reflexivity.
Qed.

(** X15. For every tree of doubles and every radius, an answer of
    [queryNearest] is an item stored at a squared distance that the code
    finds strictly below [radius * radius], both as the doubles compute
    them; with radius zero the query finds nothing, even an item lying
    exactly on the query point. *)
Theorem queryNearest_within_radius (T : Type) (qt : Quadtree T float)
    (x y r : float) :
  match queryNearest qt x y r with
  | Some it =>
      exists e, In e (entries (root qt)) /\ item e = it /\
                (entry_dist x y e <? r * r)%float = true
  | None => True
  end /\
  queryNearest qt x y 0%float = None.
Proof.
  split.
  { destruct (queryNearest qt x y r) as [it|] eqn:E; [|exact I].
    exact (queryNearest_sound qt x y r E). }
  destruct (queryNearest qt x y 0%float) as [it|] eqn:E; [|reflexivity].
  destruct (queryNearest_sound qt x y 0%float E) as [e [_ [_ Hlt]]]. exfalso.
  unfold entry_dist in Hlt. cbn [nadd nsub nmul nltb float_num] in Hlt.
  change (0 * 0)%float with 0%float in Hlt.
  rewrite squares_not_below_zero in Hlt. discriminate.
Qed.

(** ** Ancestry on arbitrary commit lists *)

Lemma commitMap_fold_get (k : string) :
  forall (commits : list CommitNode) (m : JsMap.t CommitNode),
    JsMap.get k (fold_left (fun m c => JsMap.set (oid c) c m) commits m)
    = match last_commit commits k with
      | Some c => Some c
      | None => JsMap.get k m
      end.
Proof.
  unfold last_commit.
  induction commits as [|a r IH]; intros m; simpl; [reflexivity|].
  rewrite IH, find_snoc.
  destruct (find (fun c => String.eqb (oid c) k) (rev r)); [reflexivity|].
  destruct (String.eqb (oid a) k) eqn:E.
  - apply String.eqb_eq in E. subst k. apply JsMapFacts.get_set_eq.
  - apply String.eqb_neq in E. now apply JsMapFacts.get_set_neq.
Qed.

Lemma commitMap_fold_nodup :
  forall (commits : list CommitNode) (m : JsMap.t CommitNode),
    NoDup (JsMap.keys m) ->
    NoDup (JsMap.keys
             (fold_left (fun m c => JsMap.set (oid c) c m) commits m)).
Proof.
  induction commits as [|a r IH]; intros m H; simpl; [exact H|].
  apply IH. now apply JsMapFacts.keys_NoDup_set.
Qed.

Lemma unexpanded_set (k : string) (c : CommitNode) :
  forall m : JsMap.t CommitNode,
    (unexpanded (JsMap.set k c m) []
     <= unexpanded m [] + List.length (parents c))%nat.
Proof.
  unfold unexpanded.
  induction m as [|[k' v'] m IH]; simpl in *; [lia|].
  destruct (String.eqb k k'); simpl in *; lia.
Qed.

Lemma unexpanded_fold :
  forall (commits : list CommitNode) (m : JsMap.t CommitNode),
    (unexpanded (fold_left (fun m c => JsMap.set (oid c) c m) commits m) []
     <= unexpanded m []
        + fold_right (fun c n => (List.length (parents c) + n)%nat) O commits)%nat.
Proof.
  induction commits as [|a r IH]; intros m; simpl; [lia|].
  pose proof (IH (JsMap.set (oid a) a m)) as H.
  pose proof (unexpanded_set (oid a) a m). lia.
Qed.

(** The breadth-first search decides reachability in the commit map. *)
Lemma isAncestor_resolved (commits : list CommitNode) (a b : string) :
  exists r,
    isAncestor commits a b = Some r /\
    (r = true <->
     a = b \/ clos_trans string (resolved_parent commits) b a).
Proof.
  unfold isAncestor, isAncestor_fuel.
  set (cm := fold_left (fun m c => JsMap.set (oid c) c m) commits JsMap.empty).
  assert (Hcm : NoDup (JsMap.keys cm)).
  { apply commitMap_fold_nodup. constructor. }
  assert (Hedge : forall u v, map_edge cm u v <-> resolved_parent commits u v).
  { intros u v. unfold map_edge, resolved_parent, cm.
    split; intros [c [Hc Hv]]; exists c; split; try assumption.
    - rewrite commitMap_fold_get in Hc.
      destruct (last_commit commits u); [assumption | discriminate].
    - rewrite commitMap_fold_get, Hc. reflexivity. }
  set (fuel := S (fold_right (fun c n => (List.length (parents c) + n)%nat) O commits)).
  destruct (@isAncestor_loop_terminates cm a Hcm fuel [] [b]) as [r Hr].
  { pose proof (unexpanded_fold commits JsMap.empty) as H.
    fold cm in H. unfold fuel. simpl in *. lia. }
  exists r. split; [exact Hr|].
  destruct r.
  - split; [intros _|reflexivity].
    destruct (isAncestor_loop_sound _ _ _ _ _ Hr) as [q [[<-|[]] Hq]].
    apply (@clos_rt_t_ext _ (map_edge cm) (resolved_parent commits)) in Hq.
    + destruct Hq; auto.
    + intros u v. apply Hedge.
  - split; [discriminate|]. intros H. exfalso.
    destruct (@isAncestor_loop_complete cm a fuel [] [b]) as [S [HS [HaS Hcl]]];
      [ intros [] | intros v w [] | exact Hr | ].
    assert (Hreach : forall x y, clos_refl_trans string (map_edge cm) x y ->
                                 In x S -> In y S).
    { induction 1; eauto. }
    apply HaS. apply (Hreach b a).
    + destruct H as [->|H]; [apply rt_refl|].
      apply (@clos_t_rt_ext _ (resolved_parent commits)); [|assumption].
      intros u v. apply Hedge.
    + apply HS. right. now left.
Qed.

(** X16. [isAncestor] returns on every commit list, also one that repeats
    identifiers or has dangling parent references, and answers [true]
    exactly when the two identifiers are equal or the ancestor is reached
    from the descendant along parent references, where an identifier
    carried by several commits stands for the last of them. *)
Theorem isAncestor_any_list (commits : list CommitNode) (a b : string) :
  exists r,
    isAncestor commits a b = Some r /\
    (r = true <->
     a = b \/ clos_trans string (resolved_parent commits) b a).
Proof. exact (isAncestor_resolved commits a b). Qed.

(** X17. Ancestry as computed is transitive on every commit list: an
    ancestor of an ancestor of [c] is reported as an ancestor of [c]. *)
Theorem isAncestor_transitive (commits : list CommitNode) (a b c : string) :
  isAncestor commits a b = Some true ->
  isAncestor commits b c = Some true ->
  isAncestor commits a c = Some true.
Proof.
  intros Hab Hbc.
  destruct (isAncestor_resolved commits a b) as [r1 [E1 H1]].
  destruct (isAncestor_resolved commits b c) as [r2 [E2 H2]].
  destruct (isAncestor_resolved commits a c) as [r3 [E3 H3]].
  rewrite E1 in Hab. rewrite E2 in Hbc. rewrite E3.
  injection Hab as ->. injection Hbc as ->.
  f_equal. apply H3.
  destruct (proj1 H1 eq_refl) as [<-|P1];
    destruct (proj1 H2 eq_refl) as [<-|P2]; auto.
  right. eapply t_trans; eassumption.
Qed.

Lemma isAncestor_transitive_witness :
  isAncestor example_chain "a" "b" = Some true /\
  isAncestor example_chain "b" "c" = Some true /\
  isAncestor example_chain "a" "c" = Some true.
Proof.
  split; [reflexivity|]. split; [reflexivity|].
  apply (@isAncestor_transitive example_chain "a" "b" "c"); reflexivity.
Defined.

(** X18. A descendant identifier that no commit of the list carries has
    no ancestor but itself: the search answers [false], it does not
    fail. *)
Theorem isAncestor_unknown_descendant (commits : list CommitNode)
    (a b : string) :
  ~ In b (map oid commits) -> a <> b ->
  isAncestor commits a b = Some false.
Proof.
  intros Hb Hab.
  destruct (isAncestor_resolved commits a b) as [r [E H]].
  rewrite E. f_equal. destruct r; [|reflexivity]. exfalso.
  destruct (proj1 H eq_refl) as [Heq|P]; [contradiction|].
  assert (Hfirst : exists y, resolved_parent commits b y).
  { clear - P. induction P as [x y Hxy | x y z _ IH1 _ _]; eauto. }
  destruct Hfirst as [y [c [Hc _]]].
  unfold last_commit in Hc. apply find_some in Hc. destruct Hc as [Hin Hk].
  apply String.eqb_eq in Hk. apply Hb. rewrite <- Hk. apply in_map.
  now apply in_rev.
Qed.

Lemma isAncestor_unknown_descendant_witness :
  ~ In "zzz" (map oid example_chain) /\ "a" <> "zzz" /\
  isAncestor example_chain "a" "zzz" = Some false.
Proof.
  assert (H1 : ~ In "zzz" (map oid example_chain))
    by (simpl; intuition discriminate).
  assert (H2 : "a" <> "zzz") by discriminate.
  split; [exact H1|]. split; [exact H2|].
  exact (@isAncestor_unknown_descendant example_chain "a" "zzz" H1 H2).
Defined.

(** ** Utilities and the pan/zoom handlers *)

Lemma Qle_bool_false_lt (a b : Q) : Qle_bool a b = false -> (b < a)%Q.
Proof.
  intros E. apply Qnot_le_lt. intros H. apply Qle_bool_iff in H. congruence.
Qed.

Lemma Qmin2_le_r (a b : Q) : (Qmin2 a b <= b)%Q.
Proof.
  unfold Qmin2. destruct (Qle_bool a b) eqn:E.
  - now apply Qle_bool_iff.
  - apply Qle_refl.
Qed.

Lemma Qmin2_le_l (a b : Q) : (Qmin2 a b <= a)%Q.
Proof.
  unfold Qmin2. destruct (Qle_bool a b) eqn:E.
  - apply Qle_refl.
  - apply Qlt_le_weak. now apply Qle_bool_false_lt.
Qed.

Lemma clamp_bounds (value lo hi : Q) :
  (lo <= hi)%Q -> (lo <= clamp value lo hi <= hi)%Q.
Proof.
  intros Hb. unfold clamp. split; [|apply Qmin2_le_r].
  unfold Qmin2. destruct (Qle_bool (Qmax2 value lo) hi); [|exact Hb].
  apply Qmax2_ge_r.
Qed.

(** X19. With [min <= max], [clamp] returns a number of the interval
    [min, max]: the value itself when it lies inside, [min] when the value
    is below and [max] when it is above. *)
Theorem clamp_range (value lo hi : Q) :
  (lo <= hi ->
   lo <= clamp value lo hi <= hi /\
   clamp value lo hi ==
     (if Qle_bool value lo then lo
      else if Qle_bool value hi then value else hi))%Q.
Proof.
  intros Hb. split; [now apply clamp_bounds|].
  unfold clamp, Qmax2, Qmin2.
  destruct (Qle_bool value lo) eqn:E1.
  - assert (E2 : Qle_bool lo hi = true) by now apply Qle_bool_iff.
    rewrite E2. reflexivity.
  - destruct (Qle_bool value hi); reflexivity.
Qed.

Lemma clamp_range_witness :
  (1 # 10 <= clamp 5 (1 # 10) 3 <= 3 /\
   clamp 5 (1 # 10) 3 ==
     (if Qle_bool 5 (1 # 10) then 1 # 10
      else if Qle_bool 5 3 then 5 else 3))%Q.
Proof.
  apply (@clamp_range 5 (1 # 10) 3). unfold Qle. simpl. lia.
Defined.

(** X20. The zoom never leaves [MIN_ZOOM, MAX_ZOOM] = [0.1, 3] through
    the handlers: whatever the current view and the wheel event, the zoom
    that [zoomIn], [zoomOut] and a ctrl/meta wheel event set lies in that
    interval, and a plain wheel event leaves the zoom alone. *)
Theorem zoom_stays_in_range (view : ViewState) (rect : option (Q * Q))
    (clientX clientY deltaX deltaY : Q) :
  (MIN_ZOOM <= zoom (zoomIn view) <= MAX_ZOOM)%Q /\
  (MIN_ZOOM <= zoom (zoomOut view) <= MAX_ZOOM)%Q /\
  (MIN_ZOOM
   <= zoom (setView view
              (handleWheel view true rect clientX clientY deltaX deltaY))
   <= MAX_ZOOM)%Q /\
  zoom (setView view
          (handleWheel view false rect clientX clientY deltaX deltaY))
  = zoom view.
Proof.
  assert (Hb : (MIN_ZOOM <= MAX_ZOOM)%Q) by (unfold MIN_ZOOM, MAX_ZOOM; lra).
  split; [|split; [|split]].
  - unfold zoomIn, setView. cbn [zoom patch_zoom nullish].
    now apply clamp_bounds.
  - unfold zoomOut, setView. cbn [zoom patch_zoom nullish].
    now apply clamp_bounds.
  - unfold handleWheel, setView. destruct rect as [[rl rt]|];
      cbn [zoom patch_zoom nullish]; now apply clamp_bounds.
  - reflexivity.
Qed.

(** X21. A ctrl/meta wheel event over a mounted canvas zooms about the
    cursor: the graph point under the cursor, as [handleClick] maps
    client coordinates to graph coordinates, is the same before and
    after the update (in exact arithmetic, for a non-zero zoom). *)
Theorem handleWheel_zoom_anchor (view : ViewState)
    (rectLeft rectTop clientX clientY deltaX deltaY : Q) :
  ~ (zoom view == 0)%Q ->
  ((clientX - rectLeft
    - panX (setView view
              (handleWheel view true (Some (rectLeft, rectTop))
                 clientX clientY deltaX deltaY)))
   / zoom (setView view
             (handleWheel view true (Some (rectLeft, rectTop))
                clientX clientY deltaX deltaY))
   == (clientX - rectLeft - panX view) / zoom view)%Q /\
  ((clientY - rectTop
    - panY (setView view
              (handleWheel view true (Some (rectLeft, rectTop))
                 clientX clientY deltaX deltaY)))
   / zoom (setView view
             (handleWheel view true (Some (rectLeft, rectTop))
                clientX clientY deltaX deltaY))
   == (clientY - rectTop - panY view) / zoom view)%Q.
Proof.
  intros Hz. unfold handleWheel, setView.
  cbn [zoom panX panY patch_zoom patch_panX patch_panY nullish].
  set (nz := clamp (zoom view * (1 + - deltaY * ZOOM_SENSITIVITY))
               MIN_ZOOM MAX_ZOOM).
  assert (Hnz : ~ (nz == 0)%Q).
  { assert (Hb : (MIN_ZOOM <= MAX_ZOOM)%Q)
      by (unfold MIN_ZOOM, MAX_ZOOM; lra).
    pose proof (@clamp_bounds (zoom view * (1 + - deltaY * ZOOM_SENSITIVITY))
                  MIN_ZOOM MAX_ZOOM Hb) as [Hlo _].
    fold nz in Hlo. unfold MIN_ZOOM in Hlo. intros H. rewrite H in Hlo.
    revert Hlo. unfold Qle. simpl. lia. }
  clearbody nz. split; field; auto.
Qed.

Lemma handleWheel_zoom_anchor_witness :
  ((200 - 10
    - panX (setView (mkViewState 30 40 2)
              (handleWheel (mkViewState 30 40 2) true (Some (10, 20))
                 200 300 0 (-100))))
   / zoom (setView (mkViewState 30 40 2)
             (handleWheel (mkViewState 30 40 2) true (Some (10, 20))
                200 300 0 (-100)))
   == (200 - 10 - panX (mkViewState 30 40 2)) / zoom (mkViewState 30 40 2))%Q /\
  ((300 - 20
    - panY (setView (mkViewState 30 40 2)
              (handleWheel (mkViewState 30 40 2) true (Some (10, 20))
                 200 300 0 (-100))))
   / zoom (setView (mkViewState 30 40 2)
             (handleWheel (mkViewState 30 40 2) true (Some (10, 20))
                200 300 0 (-100)))
   == (300 - 20 - panY (mkViewState 30 40 2)) / zoom (mkViewState 30 40 2))%Q.
Proof.
  apply (@handleWheel_zoom_anchor (mkViewState 30 40 2) 10 20 200 300 0 (-100)).
  simpl. unfold Qeq. simpl. lia.
Defined.

(** ** Snapshots *)

Lemma js_slice_prefix {A : Type} (l : list A) (stop : Z) :
  0 <= stop -> js_slice l 0 stop = firstn (Z.to_nat stop) l.
Proof.
  intros H. unfold js_slice.
  assert (E0 : (0 <? 0) = false) by reflexivity. rewrite E0.
  assert (E1 : (stop <? 0) = false) by (apply Z.ltb_ge; lia). rewrite E1.
  rewrite (Z.min_l 0) by lia. cbn [Z.to_nat skipn]. rewrite Z.sub_0_r.
  destruct (Z.le_ge_cases stop (Z.of_nat (List.length l))) as [Hle|Hge].
  - now rewrite Z.min_l by lia.
  - rewrite Z.min_r by lia. rewrite Nat2Z.id.
    rewrite firstn_all. symmetry. apply firstn_all2. lia.
Qed.

Lemma js_slice_suffix {A : Type} (l : list A) (start : Z) :
  0 <= start <= Z.of_nat (List.length l) ->
  js_slice l start (Z.of_nat (List.length l)) = skipn (Z.to_nat start) l.
Proof.
  intros H. unfold js_slice.
  assert (E0 : (start <? 0) = false) by (apply Z.ltb_ge; lia). rewrite E0.
  assert (E1 : (Z.of_nat (List.length l) <? 0) = false)
    by (apply Z.ltb_ge; lia).
  rewrite E1. rewrite !Z.min_l by lia.
  apply firstn_all2. rewrite length_skipn. lia.
Qed.

(** X22. [pushSnapshot] (for an index of at least -1, the initial value)
    discards the snapshots after the current index, appends the new one
    and makes it current; it keeps at most 50 snapshots, and drops
    snapshots, the oldest, only when that is needed to stay at 50. *)
Theorem pushSnapshot_spec (A : Type) (snapshots : list A)
    (snapshotIndex : Z) (snapshot : A) :
  -1 <= snapshotIndex ->
  exists dropped init,
    firstn (Z.to_nat (snapshotIndex + 1)) snapshots = dropped ++ init /\
    fst (pushSnapshot snapshots snapshotIndex snapshot) = init ++ [snapshot] /\
    snd (pushSnapshot snapshots snapshotIndex snapshot)
    = Z.of_nat (List.length init) /\
    (List.length init <= 49)%nat /\
    (dropped = [] \/ List.length init = 49%nat).
Proof.
  intros Hi. unfold pushSnapshot.
  rewrite js_slice_prefix by lia.
  set (kept := firstn (Z.to_nat (snapshotIndex + 1)) snapshots).
  cbv zeta. rewrite length_app. cbn [List.length].
  destruct (50 <? List.length kept + 1)%nat eqn:E.
  - apply Nat.ltb_lt in E.
    replace (Z.of_nat (List.length kept + 1))
      with (Z.of_nat (List.length (kept ++ [snapshot])))
      by (rewrite length_app; reflexivity).
    rewrite js_slice_suffix by (rewrite length_app; cbn [List.length]; lia).
    rewrite length_app. cbn [List.length].
    set (k := Z.to_nat (Z.of_nat (List.length kept + 1) - 50)).
    assert (Hk : (k = List.length kept - 49)%nat) by (unfold k; lia).
    rewrite skipn_app.
    replace (k - List.length kept)%nat with O by lia. cbn [skipn].
    exists (firstn k kept), (skipn k kept).
    rewrite firstn_skipn. cbn [fst snd].
    rewrite length_app, length_skipn. cbn [List.length].
    split; [reflexivity|]. split; [reflexivity|].
    split; [lia|]. split; [lia|]. right. lia.
  - apply Nat.ltb_ge in E.
    exists [], kept. cbn [app fst snd]. rewrite length_app.
    cbn [List.length].
    split; [reflexivity|]. split; [reflexivity|].
    split; [lia|]. split; [lia|]. now left.
Qed.

Lemma pushSnapshot_spec_witness :
  exists dropped init,
    firstn (Z.to_nat (1 + 1)) ["s0"; "s1"; "s2"] = dropped ++ init /\
    fst (pushSnapshot ["s0"; "s1"; "s2"] 1 "s3") = init ++ ["s3"] /\
    snd (pushSnapshot ["s0"; "s1"; "s2"] 1 "s3")
    = Z.of_nat (List.length init) /\
    (List.length init <= 49)%nat /\
    (dropped = [] \/ List.length init = 49%nat).
Proof.
  apply (@pushSnapshot_spec string ["s0"; "s1"; "s2"] 1 "s3"). lia.
Defined.

(** ** Lane assignment on a linear history *)

Lemma lane_chain_step (oidSet : list string) (st : LaneState)
    (c : CommitNode) (next : option CommitNode) :
  (activeLanes st = [] /\ reservations st = []) \/
  (activeLanes st = [Some (Some (oid c))] /\
   reservations st = [(oid c, 0)]) ->
  parents c = match next with None => [] | Some p => [oid p] end ->
  (forall p, next = Some p ->
     set_has oidSet (oid p) = true /\
     JsMap.has (oid p) (JsMap.set (oid c) 0 (columns st)) = false) ->
  lane_commit_step oidSet st c
  = mkLaneState (JsMap.set (oid c) 0 (columns st))
      (match next with
       | None => [Some None]
       | Some p => [Some (Some (oid p))]
       end)
      (match next with None => [] | Some p => [(oid p, 0)] end).
Proof.
  intros Hst Hp Hnext. destruct st as [cols lanes res]. cbn [columns] in *.
  cbn [activeLanes reservations] in Hst.
  unfold lane_commit_step. cbn [columns activeLanes reservations].
  rewrite Hp.
  destruct Hst as [[-> ->] | [-> ->]].
  - cbn [JsMap.get nullish]. simpl.
    destruct next as [p|]; [|reflexivity].
    destruct (Hnext p eq_refl) as [Hs Hh].
    simpl. unfold lane_parent_step.
    cbn [columns activeLanes reservations]. rewrite Hs, Hh. reflexivity.
  - cbn [JsMap.get JsMap.delete]. rewrite String.eqb_refl.
    cbn [nullish]. simpl.
    destruct next as [p|]; [|reflexivity].
    destruct (Hnext p eq_refl) as [Hs Hh].
    simpl. unfold lane_parent_step.
    cbn [columns activeLanes reservations]. rewrite Hs, Hh. reflexivity.
Qed.

Lemma set_zero_all (k : string) :
  forall m : JsMap.t Z,
    Forall (fun kv => snd kv = 0) m ->
    Forall (fun kv => snd kv = 0) (JsMap.set k 0 m).
Proof.
  induction m as [|[k' v'] m IH]; intros H; simpl.
  - repeat constructor.
  - inversion H as [|? ? Hv Hm]; subst.
    destruct (String.eqb k k'); constructor; auto.
Qed.

Lemma lane_chain_fold (oidSet : list string) :
  forall (s : list CommitNode) (st : LaneState),
    is_chain s ->
    NoDup (map oid s) ->
    (forall c, In c s -> set_has oidSet (oid c) = true) ->
    (forall k, In k (JsMap.keys (columns st)) -> ~ In k (map oid s)) ->
    Forall (fun kv => snd kv = 0) (columns st) ->
    ((activeLanes st = [] /\ reservations st = []) \/
     match s with
     | [] => True
     | c :: _ =>
         activeLanes st = [Some (Some (oid c))] /\
         reservations st = [(oid c, 0)]
     end) ->
    Forall (fun kv => snd kv = 0)
      (columns (fold_left (lane_commit_step oidSet) s st)).
Proof.
  induction s as [|c r IH]; intros st Hch Hnd Hset Hfresh Hzero Hst;
    cbn [fold_left]; [exact Hzero|].
  destruct Hch as [Hp Hr]. inversion Hnd as [|? ? Hc Hnd']; subst.
  rewrite (@lane_chain_step oidSet st c (hd_error r)).
  - apply IH; cbn [columns activeLanes reservations]; auto.
    + intros c' Hc'. apply Hset. now right.
    + intros k Hk Hin. apply JsMapFacts.in_keys_set in Hk.
      destruct Hk as [E|Hk]; [rewrite E in Hin; contradiction|].
      apply (Hfresh k Hk). now right.
    + now apply set_zero_all.
    + destruct r as [|p r']; [now right | right; auto].
  - destruct Hst as [H|H]; [now left | now right].
  - rewrite Hp. destruct r; reflexivity.
  - intros p E. destruct r as [|p' r']; [discriminate|].
    injection E as ->. split; [apply Hset; right; now left|].
    apply JsMapFacts.has_false_iff. intros Hk.
    apply JsMapFacts.in_keys_set in Hk. destruct Hk as [Hk|Hk].
    + apply Hc. rewrite <- Hk. now left.
    + apply (Hfresh _ Hk). right. now left.
Qed.

(** X25. A linear history takes a single lane: when the commits have
    pairwise distinct identifiers and, read newest first, each has the
    next one as its only parent and the oldest has none, [assignColumns]
    puts every commit in lane 0. *)
Theorem assignColumns_chain (commits : list CommitNode) (c : CommitNode) :
  NoDup (map oid commits) ->
  is_chain (sort_by_time_desc commits) ->
  In c commits ->
  JsMap.get (oid c) (assignColumns commits) = Some 0.
Proof.
  intros Hnd Hch Hc.
  pose proof (sort_by_time_desc_perm commits) as Hperm.
  assert (Hall : Forall (fun kv => snd kv = 0) (assignColumns commits)).
  { unfold assignColumns. apply lane_chain_fold; cbn; auto.
    - eapply Permutation_NoDup; [|exact Hnd]. now apply Permutation_map.
    - intros c' Hc'. apply set_has_true_iff. apply in_map.
      eapply Permutation_in; [symmetry; exact Hperm | exact Hc']. }
  assert (Hk : In (oid c) (JsMap.keys (assignColumns commits))).
  { unfold assignColumns. apply lane_fold_keys. left. apply in_map.
    eapply Permutation_in; [exact Hperm | exact Hc]. }
  apply JsMapFacts.keys_get in Hk. destruct Hk as [v Hv].
  rewrite Hv. f_equal.
  apply JsMapFacts.get_in in Hv. rewrite Forall_forall in Hall.
  exact (Hall _ Hv).
Qed.

Lemma assignColumns_chain_witness :
  JsMap.get (oid (test_commit "b" ["a"] 200)) (assignColumns test_chain)
  = Some 0.
Proof.
  apply assignColumns_chain.
  - simpl. repeat constructor; simpl; intuition discriminate.
  - simpl. repeat split.
  - simpl. tauto.
Defined.

(** ** Synthetic graphs *)

Lemma to_N_pad_zeros (k : nat) (s : string) :
  HexString.Raw.to_N (pad_chars k "0"%char s) 0%N
  = HexString.Raw.to_N s 0%N.
Proof.
  induction k as [|k IH]; [reflexivity|]. cbn [pad_chars]. exact IH.
Qed.

Lemma hex_rank_synthetic_oid (j : nat) : hex_rank (synthetic_oid j) = j.
Proof.
  unfold hex_rank, synthetic_oid, padStart. rewrite to_N_pad_zeros.
  rewrite <- (Nat2N.id j) at 2.
  unfold toString16. destruct (N.of_nat j) as [|p]; [reflexivity|].
  now rewrite HexString.Raw.to_N_of_pos.
Qed.

Lemma synthetic_oid_inj (i j : nat) :
  synthetic_oid i = synthetic_oid j -> i = j.
Proof.
  intros H. rewrite <- (hex_rank_synthetic_oid i), H.
  apply hex_rank_synthetic_oid.
Qed.

Lemma get_set_cases {V : Type} (m : JsMap.t V) (k k' : string) (v x : V) :
  JsMap.get k (JsMap.set k' v m) = Some x ->
  (k = k' /\ x = v) \/ JsMap.get k m = Some x.
Proof.
  intros H. destruct (string_dec k' k) as [E|E].
  - subst k'. rewrite JsMapFacts.get_set_eq in H. injection H as <-. now left.
  - rewrite JsMapFacts.get_set_neq in H by assumption. now right.
Qed.

Lemma truthy_Some (o : option string) (s : string) :
  truthy o = Some s -> o = Some s.
Proof.
  destruct o as [t|]; simpl; [|discriminate].
  destruct (String.eqb t ""); [discriminate | auto].
Qed.

Lemma gen_step_inv (n branchFactor k : nat) (st : GenState) :
  gen_inv n k st -> gen_inv n (S k) (gen_step n branchFactor st k).
Proof.
  intros [Hc Hh].
  assert (Hheads : forall b h,
            JsMap.get b
              (JsMap.set
                 (nth (k mod List.length (g_branches st)) (g_branches st) "")
                 (synthetic_oid k) (g_branchHeads st)) = Some h ->
            exists j', (j' < S k)%nat /\ h = synthetic_oid j').
  { intros b h H. apply get_set_cases in H. destruct H as [[_ ->]|H].
    - exists k. split; [lia | reflexivity].
    - destruct (Hh _ _ H) as [j' [Hj ->]]. exists j'. split; [lia | reflexivity]. }
  assert (Hprev : forall b h,
            truthy (JsMap.get b (g_branchHeads st)) = Some h ->
            exists j', (j' < k)%nat /\ h = synthetic_oid j').
  { intros b h H. apply truthy_Some in H. eauto. }
  set (ps0 := match truthy (JsMap.get
                      (nth (k mod List.length (g_branches st)) (g_branches st) "")
                      (g_branchHeads st)) with
              | Some headOid => [headOid]
              | None => []
              end).
  assert (H0 : (List.length ps0 <= 1)%nat /\
               Forall (fun p => exists j', (j' < k)%nat /\ p = synthetic_oid j')
                 ps0).
  { unfold ps0.
    destruct (truthy (JsMap.get _ (g_branchHeads st))) as [h|] eqn:E.
    - split; [simpl; lia|]. constructor; [|constructor]. eapply Hprev, E.
    - split; [simpl; lia | constructor]. }
  set (ps := if (10 <? k)%nat && (k mod 7 =? 0)%nat
                && (1 <? List.length (g_branches st))%nat
             then
               match truthy (JsMap.get
                      (nth ((k mod List.length (g_branches st) + 1)
                            mod List.length (g_branches st))
                         (g_branches st) "")
                      (g_branchHeads st)) with
               | Some otherHead =>
                   if negb (existsb (String.eqb otherHead) ps0)
                   then ps0 ++ [otherHead] else ps0
               | None => ps0
               end
             else ps0).
  assert (H1 : (List.length ps <= 2)%nat /\
               Forall (fun p => exists j', (j' < k)%nat /\ p = synthetic_oid j')
                 ps).
  { destruct H0 as [Hl Hf]. unfold ps. clearbody ps0.
    destruct ((10 <? k)%nat && (k mod 7 =? 0)%nat
              && (1 <? List.length (g_branches st))%nat);
      [|split; [lia | exact Hf]].
    destruct (truthy (JsMap.get _ (g_branchHeads st))) as [h|] eqn:E;
      [|split; [lia | exact Hf]].
    destruct (negb (existsb (String.eqb h) ps0));
      [|split; [lia | exact Hf]].
    split; [rewrite length_app; simpl; lia|].
    apply Forall_app. split; [exact Hf|].
    constructor; [|constructor]. eapply Hprev, E. }
  destruct H1 as [Hl Hf].
  assert (Hcs : Forall2 (synthetic_commit n) (seq 0 (S k))
                  (g_commits st
                   ++ [mkCommit (synthetic_oid k)
                         (String.append "Commit " (toString10 k)) ps
                         (1700000000 + Z.of_nat k * 60)
                         (if (k =? n - 1)%nat
                          then [nth (k mod List.length (g_branches st))
                                  (g_branches st) ""]
                          else [])
                         (k =? n - 1)%nat])).
  { rewrite seq_S. apply Forall2_app; [exact Hc|].
    constructor; [|constructor]. cbn [Nat.add].
    unfold synthetic_commit. cbn [oid message timestamp isHead parents].
    repeat split; auto. }
  unfold gen_step. fold (synthetic_oid k). fold ps0. fold ps.
  match goal with
  | |- gen_inv _ _ (if ?b then _ else _) => destruct b
  end; split; cbn [g_commits g_branchHeads]; try exact Hcs; try exact Hheads.
  intros b h H. apply get_set_cases in H. destruct H as [[_ ->]|H].
  - exists k. split; [lia | reflexivity].
  - exact (Hheads b h H).
Qed.

Lemma gen_fold_inv (n branchFactor : nat) :
  forall len k st,
    gen_inv n k st ->
    gen_inv n (k + len)
      (fold_left (gen_step n branchFactor) (seq k len) st).
Proof.
  induction len as [|len IH]; intros k st H; cbn [seq fold_left].
  - now rewrite Nat.add_0_r.
  - replace (k + S len)%nat with (S k + len)%nat by lia.
    apply IH. now apply gen_step_inv.
Qed.

Lemma generateSyntheticGraph_inv (n branchFactor : nat) :
  Forall2 (synthetic_commit n) (seq 0 n)
    (generateSyntheticGraph n branchFactor).
Proof.
  unfold generateSyntheticGraph.
  apply (@gen_fold_inv n branchFactor n 0%nat
           (mkGenState [] ["main"] JsMap.empty)).
  split; [constructor|]. intros b h H. discriminate.
Qed.

Lemma synthetic_oids (n : nat) :
  forall (l : list nat) (cs : list CommitNode),
    Forall2 (synthetic_commit n) l cs ->
    map oid cs = map synthetic_oid l.
Proof.
  induction 1 as [|j c l cs Hc _ IH]; [reflexivity|].
  cbn [map]. rewrite IH. now rewrite (proj1 Hc).
Qed.

(** X26. [generateSyntheticGraph n] returns [n] commits; the one at
    position [j] has the 40-digit hexadecimal identifier of [j], message
    [Commit j], timestamp [1700000000 + 60 j], is the head exactly when it
    is the last, and has at most two parents, each the identifier of a
    commit at an earlier position. *)
Theorem generateSyntheticGraph_commits (n branchFactor : nat) :
  List.length (generateSyntheticGraph n branchFactor) = n /\
  Forall2 (synthetic_commit n) (seq 0 n)
    (generateSyntheticGraph n branchFactor).
Proof.
  pose proof (generateSyntheticGraph_inv n branchFactor) as H.
  split; [|exact H].
  apply Forall2_length in H. now rewrite length_seq in H.
Qed.

Lemma Forall2_in_right {A B : Type} (P : A -> B -> Prop) :
  forall (l : list A) (l' : list B),
    Forall2 P l l' ->
    forall b, In b l' -> exists a, In a l /\ P a b.
Proof.
  induction 1 as [|a b' l l' Hab _ IH]; intros b Hb; [contradiction|].
  destruct Hb as [<-|Hb].
  - exists a. split; [now left | assumption].
  - destruct (IH _ Hb) as [a' [Ha' Hp]]. exists a'. split; [now right | assumption].
Qed.

(** X27. Every synthetic graph meets the preconditions of the sort and
    ancestry theorems: its identifiers are pairwise distinct, no parent
    reference dangles, and its parent references are acyclic. *)
Theorem generateSyntheticGraph_acyclic (n branchFactor : nat) :
  NoDup (map oid (generateSyntheticGraph n branchFactor)) /\
  Forall (fun c =>
            Forall (fun p =>
                      In p (map oid (generateSyntheticGraph n branchFactor)))
              (parents c))
    (generateSyntheticGraph n branchFactor) /\
  acyclic (generateSyntheticGraph n branchFactor).
Proof.
  pose proof (generateSyntheticGraph_inv n branchFactor) as H.
  pose proof (@synthetic_oids n _ _ H) as Hoids.
  assert (Hnth : forall c, In c (generateSyntheticGraph n branchFactor) ->
            exists j, (j < n)%nat /\ synthetic_commit n j c).
  { intros c Hc. destruct (@Forall2_in_right _ _ _ _ _ H c Hc) as [j [Hj Hs]].
    apply in_seq in Hj. exists j. split; [lia | assumption]. }
  split; [|split].
  - rewrite Hoids. apply Injective_map_NoDup; [|apply seq_NoDup].
    intros i j. apply synthetic_oid_inj.
  - apply Forall_forall. intros c Hc.
    destruct (Hnth c Hc) as [j [Hj [_ [_ [_ [_ [_ Hp]]]]]]].
    eapply Forall_impl; [|exact Hp]. cbn beta.
    intros p [j' [Hj' ->]]. rewrite Hoids. apply in_map. apply in_seq. lia.
  - apply (@acyclic_of_rank _ hex_rank).
    intros child parent [c [Hc [Ho [Hp _]]]].
    destruct (Hnth c Hc) as [j [_ [Hoid [_ [_ [_ [_ Hps]]]]]]].
    rewrite Forall_forall in Hps. destruct (Hps _ Hp) as [j' [Hj' ->]].
    rewrite <- Ho, Hoid, !hex_rank_synthetic_oid. exact Hj'.
Qed.

(** ** Throttling by animation frame *)

Section RafThrottleFacts.
Variable Args : Type.

Lemma throttle_step_inv (st : ThrottleState Args) (ev : ThrottleEvent Args) :
  throttle_inv st -> throttle_inv (throttle_step st ev).
Proof.
  destruct st as [q la sc calls]. unfold throttle_inv. cbn.
  intros [Hs Hq]. destruct ev as [args|]; cbn.
  - unfold throttle_call. cbn. destruct q; cbn; subst sc;
      (split; [reflexivity | discriminate]).
  - unfold throttle_frame. cbn. destruct q; subst sc; cbn;
      (split; [reflexivity | discriminate]).
Qed.

Lemma throttle_fold_inv :
  forall (evs : list (ThrottleEvent Args)) (st : ThrottleState Args),
    throttle_inv st ->
    throttle_inv (fold_left (@throttle_step Args) evs st).
Proof.
  induction evs as [|ev evs IH]; intros st Hst; cbn [fold_left]; auto.
  apply IH. now apply throttle_step_inv.
Qed.

Lemma throttle_call_facts (st : ThrottleState Args) (args : Args) :
  fn_calls (throttle_call st args) = fn_calls st /\
  queued (throttle_call st args) = true /\
  lastArgs (throttle_call st args) = Some args.
Proof.
  unfold throttle_call. destruct st as [q la sc calls]. cbn.
  destruct q; cbn; auto.
Qed.

Lemma throttle_frame_facts (st : ThrottleState Args) :
  throttle_inv st ->
  fn_calls (throttle_frame st)
  = fn_calls st
    ++ (if queued st
        then match lastArgs st with Some args => [args] | None => [] end
        else []) /\
  queued (throttle_frame st) = false.
Proof.
  unfold throttle_frame. destruct st as [q la sc calls].
  intros [Hs _]. cbn in Hs. cbn [scheduled]. subst sc.
  destruct q; cbn.
  - destruct la; cbn; [auto|]. now rewrite app_nil_r.
  - now rewrite app_nil_r.
Qed.

Lemma throttle_fold_spec :
  forall (evs : list (ThrottleEvent Args)) (st : ThrottleState Args),
    throttle_inv st ->
    fn_calls (fold_left (@throttle_step Args) evs st)
    = fn_calls st
      ++ latest_per_frame (if queued st then lastArgs st else None) evs /\
    (List.length (fn_calls (fold_left (@throttle_step Args) evs st))
     <= List.length (fn_calls st)
        + List.length (filter is_frame evs))%nat.
Proof.
  induction evs as [|ev evs IH]; intros st Hinv; cbn [fold_left].
  - cbn. rewrite app_nil_r. split; [reflexivity | lia].
  - destruct (IH _ (throttle_step_inv ev Hinv)) as [IH1 IH2].
    rewrite IH1 in *. clear IH1.
    destruct ev as [args|]; cbn [throttle_step latest_per_frame filter is_frame] in *.
    + destruct (throttle_call_facts st args) as [E1 [E2 E3]].
      rewrite E1, E2, E3 in *. split; [reflexivity | exact IH2].
    + destruct (throttle_frame_facts Hinv) as [E1 E2].
      rewrite E1, E2 in *. destruct Hinv as [_ Hq].
      destruct (queued st).
      * destruct (lastArgs st) as [args|]; [|exfalso; now apply Hq].
        rewrite <- app_assoc in *. cbn [app] in *.
        split; [reflexivity|].
        rewrite !length_app in *. cbn [List.length] in *. lia.
      * rewrite app_nil_r in *. split; [reflexivity|].
        rewrite !length_app in *. cbn [List.length] in *. lia.
Qed.

(** X28. A function wrapped by [rafThrottle] is called at most once per
    animation frame: in any sequence of requests and frames, each frame
    that follows at least one new request calls it once, with the
    arguments of the latest request, and a frame without a new request
    calls nothing. *)
Theorem rafThrottle_latest_per_frame (evs : list (ThrottleEvent Args)) :
  fn_calls (throttle_run evs) = latest_per_frame None evs /\
  (List.length (fn_calls (throttle_run evs))
   <= List.length (filter is_frame evs))%nat /\
  (scheduled (throttle_run evs) <= 1)%nat.
Proof.
  assert (H0 : throttle_inv (throttle_init Args))
    by (split; [reflexivity | discriminate]).
  destruct (throttle_fold_spec evs H0) as [H1 H2].
  split; [exact H1|]. split; [exact H2|].
  destruct (throttle_fold_inv evs H0) as [Hs _].
  unfold throttle_run. rewrite Hs.
  destruct (queued (fold_left (@throttle_step Args) evs (throttle_init Args)));
    lia.
Qed.
End RafThrottleFacts.
